(** * Dependency resolution of devspace: pkg/devspace/dependency/resolver.go

    A shallow embedding of the resolver (Resolve, buildDependencyQueue,
    resolveRecursive, resolveDependency) as state-passing functions, and the
    properties of the dependency graph resolution engine proved about it.

    The resolver works on a graph store (graph.go) and on a number of
    collaborators (configuration loader, source acquisition, cluster client
    factory, ...) that live in other files and packages.  The graph store is
    modelled from its specification; the collaborators are the fields of a
    class, so that every statement holds for all of them. *)

From stdpp Require Import gmap strings list relations fin_sets.

Set Default Proof Using "Type".
Open Scope string_scope.

(** ** Errors and outcomes *)

(** Go [error] values.  [cyclicError] is the distinguished, unexported error
    type of the package; [errorString] stands for every error made by
    [errors.New]/[errors.Errorf] and for the error values handed back by a
    collaborator (whose dynamic type is never the cycle error); [withMessage]
    is what [errors.Wrap(cause, msg)] builds. *)
Inductive error : Type :=
| cyclicError (from to : string)
| errorString (msg : string)
| withMessage (cause : error) (msg : string).

(** The type assertion of [err] to the cycle error type: it looks at the
    dynamic type of the value itself, not at what it wraps. *)
Definition is_cyclicError (e : error) : bool :=
  match e with
  | cyclicError _ _ => true
  | _ => false
  end.

(** [err.Error()]: a wrapped error prints its message, a colon and the cause
    (github.com/pkg/errors).  Modelled from the spec: the text of the cycle
    error, which is declared with the graph store, "should name the
    participating identities". *)
Fixpoint Error (e : error) : string :=
  match e with
  | cyclicError from to => "Cyclic dependency found: " ++ from ++ " -> " ++ to
  | errorString msg => msg
  | withMessage cause msg => msg ++ ": " ++ Error cause
  end.

(** [strings.Contains s sub]. *)
Fixpoint Contains (s sub : string) : bool :=
  String.prefix sub s ||
  match s with
  | EmptyString => false
  | String _ s' => Contains s' sub
  end.

(** Result of running a piece of Go code: a value, an [error], a run-time
    panic, or no result within the given recursion budget. *)
Inductive outcome (A : Type) : Type :=
| Ok (a : A)
| Err (e : error)
| Panic
| Diverge.
Arguments Ok {A} a.
Arguments Err {A} e.
Arguments Panic {A}.
Arguments Diverge {A}.

(** ** Graph store *)

Section GraphStore.
Context {D : Type}.

(** Modelled from the spec: the node and graph types of graph.go, the file
    of the graph store.  A node is referred to by its identity (the
    arena of section 9 of the specification); its payload is empty for the
    root and a Dependency record otherwise; its children are the identities
    it points to, in insertion order. *)
Record node : Type := mkNode { Data : option D; Childs : list string }.

Record graph : Type := mkGraph { Nodes : gmap string node; Root : string }.

(** Modelled from the spec: newNode and newGraph of graph.go; a graph
    starts with its root as the only node. *)
Definition newNode (data : option D) : node := {| Data := data; Childs := [] |}.

Definition newGraph (id : string) (root : node) : graph :=
  {| Nodes := {[ id := root ]}; Root := id |}.

(** Modelled from the spec: the children are an "ordered set"; a new child
    goes to the end, a child that is there already is not added again. *)
Definition addChild (c : string) (n : node) : node :=
  {| Data := Data n;
     Childs := if decide (c ∈ Childs n) then Childs n else Childs n ++ [c] |}.

(** Modelled from the spec: the edges to [c] taken out of a node. *)
Definition dropChild (c : string) (n : node) : node :=
  {| Data := Data n; Childs := filter (λ x, x ≠ c) (Childs n) |}.

(** Modelled from the spec: the "outgoing edges to any node still present
    in the graph" of a node. *)
Definition liveChilds (g : graph) (n : node) : list string :=
  filter (λ c, is_Some (Nodes g !! c)) (Childs n).

(** Modelled from the spec: insertNodeAt of graph.go.  "Fails if parentId
    does not exist, or newId already exists.  On success, creates the node
    and adds an edge from parentId to it." *)
Definition insertNodeAt (g : graph) (parentId newId : string) (payload : D)
  : outcome graph :=
  match Nodes g !! parentId with
  | None => Err (errorString ("Parent " ++ parentId ++ " does not exist"))
  | Some p =>
      match Nodes g !! newId with
      | Some _ => Err (errorString ("Node " ++ newId ++ " does already exist"))
      | None =>
          Ok {| Nodes := <[newId := newNode (Some payload)]>
                           (<[parentId := addChild newId p]> (Nodes g));
                Root := Root g |}
      end
  end.

(** Modelled from the spec: the Cycle Guard of graph.go, "a reachability
    search from toId looking for fromId over existing edges".  The search
    is depth first and at most [fuel] nodes deep; [addEdge] runs it with
    the number of nodes of the graph, which bounds every simple path. *)
Fixpoint findPath (fuel : nat) (g : graph) (a b : string) : bool :=
  match fuel with
  | O => false
  | S fuel' =>
      bool_decide (a = b) ||
      match Nodes g !! a with
      | Some n => existsb (λ c, findPath fuel' g c b) (Childs n)
      | None => false
      end
  end.

(** Modelled from the spec: addEdge of graph.go, as the resolver calls it
    (with the two identities, the cycle check not suppressed).  "Fails with
    a cycle error if toId already has a path to fromId; fails with a
    not-found error if either id is absent." *)
Definition addEdge (g : graph) (fromId toId : string) : outcome graph :=
  match Nodes g !! fromId with
  | None => Err (errorString ("fromID " ++ fromId ++ " does not exist"))
  | Some f =>
      match Nodes g !! toId with
      | None => Err (errorString ("toID " ++ toId ++ " does not exist"))
      | Some _ =>
          if findPath (size (Nodes g)) g toId fromId
          then Err (cyclicError fromId toId)
          else Ok {| Nodes := <[fromId := addChild toId f]> (Nodes g);
                     Root := Root g |}
      end
  end.

(** Modelled from the spec: what removeNode of graph.go leaves of a graph,
    "deletes the node and all edges pointing to it". *)
Definition without (id : string) (g : graph) : graph :=
  {| Nodes := dropChild id <$> delete id (Nodes g); Root := Root g |}.

(** Modelled from the spec: removeNode of graph.go.  Removal "is only valid
    for current leaves" (section 3), a current leaf being "a node with no
    outgoing edges to any node still present in the graph" (glossary), and
    never for the root; "on success, deletes the node and all edges
    pointing to it".  Removing an identity that is not in the graph is not
    among the failures the specification lists. *)
Definition removeNode (g : graph) (id : string) : outcome graph :=
  if decide (id = Root g)
  then Err (errorString ("Cannot remove the root " ++ id))
  else
    match Nodes g !! id with
    | Some n =>
        match liveChilds g n with
        | [] => Ok (without id g)
        | _ :: _ =>
            Err (errorString
                   ("Cannot remove " ++ id ++ " because it has still children"))
        end
    | None => Ok g
    end.

(** The first result of [f] along a list. *)
Fixpoint firstSome {A B : Type} (f : A → option B) (l : list A) : option B :=
  match l with
  | [] => None
  | x :: l' =>
      match f x with
      | Some y => Some y
      | None => firstSome f l'
      end
  end.

(** Modelled from the spec: the traversal of getNextLeaf of graph.go,
    depth first with the siblings in insertion order; it yields "the first
    node encountered (other than the root) that currently has no outgoing
    edges to any node still present in the graph". *)
Fixpoint firstLeaf (fuel : nat) (g : graph) (id : string) : option string :=
  match fuel with
  | O => None
  | S fuel' =>
      match Nodes g !! id with
      | None => None
      | Some n =>
          match liveChilds g n with
          | [] => if decide (id = Root g) then None else Some id
          | c :: cs => firstSome (firstLeaf fuel' g) (c :: cs)
          end
      end
  end.

(** Modelled from the spec: getNextLeaf of graph.go.  "If no such node
    exists except the root itself, returns the root." *)
Definition getNextLeaf (g : graph) (start : string) : string :=
  default (Root g) (firstLeaf (size (Nodes g)) g start).

(** The edges, the nodes and the payloads of a graph. *)
Definition edge (g : graph) (a b : string) : Prop :=
  ∃ n, Nodes g !! a = Some n ∧ b ∈ Childs n.

Definition present (g : graph) (id : string) : Prop := is_Some (Nodes g !! id).

Definition payload (g : graph) (id : string) : option D :=
  Nodes g !! id ≫= Data.

(** [x] comes strictly before [y] in the list [l]. *)
Definition precedes (l : list string) (x y : string) : Prop :=
  ∃ i j, l !! i = Some x ∧ l !! j = Some y ∧ (i < j)%nat.

(** What the resolver maintains of its graph (section 3 of the
    specification): the root is there, no edge dangles, there is no cycle,
    every node is reached from the root, and every node but the root has a
    payload. *)
Record wf_graph (g : graph) : Prop := {
  wf_root : present g (Root g);
  wf_closed : ∀ a b, edge g a b → present g b;
  wf_acyclic : ∀ a, ¬ tc (edge g) a a;
  wf_connected : ∀ a, present g a → rtc (edge g) (Root g) a;
  wf_payload : ∀ a, present g a → a ≠ Root g → is_Some (payload g a)
}.
End GraphStore.

Arguments node : clear implicits.
Arguments graph : clear implicits.

(** ** Configuration types and collaborators *)

(** Address of a [generated.Config] object.  The base cache is handed around
    by pointer, so the cache objects live in a store and are named by their
    address. *)
Definition loc : Type := positive.

(** The types the resolver only passes on, declared in other packages;
    [DevConfig_zero] is the zero value [latest.DevConfig{}]. *)
Class Opaque : Type := {
  DevConfig : Type;
  DevConfig_zero : DevConfig;
  ImageConfig : Type;
  CommandConfig : Type;
  CacheConfig : Type;
  OtherOptions : Type;
  Client : Type;
  KubeLoader : Type;
  DockerClient : Type;
  RegistryClient : Type;
  BuildController : Type;
  DeployController : Type;
  Ext : Type
}.

(** Package config/versions/latest: the fields of the configuration the
    resolver reads or writes. *)
Module latest.
Section latest.
Context `{Opaque}.

Record SourceConfig : Type := {
  Git : string;
  Path : string;
  ConfigName : string
}.

Record DependencyConfig : Type := {
  Source : SourceConfig;
  Profile : string;
  SkipBuild : option bool;
  IgnoreDependencies : option bool;
  Namespace : string
}.

Record Config : Type := {
  Dev : option DevConfig;
  Images : gmap string ImageConfig;
  Dependencies : list DependencyConfig
}.

Definition setDev (dev : option DevConfig) (c : Config) : Config :=
  {| Dev := dev; Images := Images c; Dependencies := Dependencies c |}.

Definition setImages (images : gmap string ImageConfig) (c : Config) : Config :=
  {| Dev := Dev c; Images := images; Dependencies := Dependencies c |}.
End latest.
End latest.

(** Package config/generated: the generated cache and its loader. *)
Module generated.
Section generated.
Context `{Opaque}.

Record Config : Type := {
  ActiveProfile : string;
  Profiles : gmap string CacheConfig
}.

Definition setActiveProfile (p : string) (c : Config) : Config :=
  {| ActiveProfile := p; Profiles := Profiles c |}.

(** [generated.NewConfigLoader(profile)] *)
Record ConfigLoader : Type := NewConfigLoader { profile : string }.
End generated.
End generated.

(** Package config/loader: the options a configuration loader is made of. *)
Module loader.
Section loader.
Context `{Opaque}.

Record ConfigOptions : Type := {
  Profile : string;
  GeneratedConfig : option loc;
  ConfigPath : string;
  BasePath : string;
  Other : OtherOptions
}.

Definition setProfile (p : string) (o : ConfigOptions) : ConfigOptions :=
  {| Profile := p; GeneratedConfig := GeneratedConfig o;
     ConfigPath := ConfigPath o; BasePath := BasePath o; Other := Other o |}.

Definition setGeneratedConfig (c : option loc) (o : ConfigOptions) : ConfigOptions :=
  {| Profile := Profile o; GeneratedConfig := c;
     ConfigPath := ConfigPath o; BasePath := BasePath o; Other := Other o |}.

Definition setConfigPath (p : string) (o : ConfigOptions) : ConfigOptions :=
  {| Profile := Profile o; GeneratedConfig := GeneratedConfig o;
     ConfigPath := p; BasePath := BasePath o; Other := Other o |}.

Definition setBasePath (p : string) (o : ConfigOptions) : ConfigOptions :=
  {| Profile := Profile o; GeneratedConfig := GeneratedConfig o;
     ConfigPath := ConfigPath o; BasePath := p; Other := Other o |}.
End loader.
End loader.

Section Types.
Context `{Opaque}.

(** dependency.Dependency (dependency.go), as [resolveDependency] fills it. *)
Record Dependency : Type := {
  ID : string;
  LocalPath : string;
  Config : latest.Config;
  Commands : list CommandConfig;
  GeneratedConfig : loc;
  DependencyConfig : latest.DependencyConfig;
  DependencyCache : loc;
  kubeClient : option Client;
  registryClient : RegistryClient;
  buildController : BuildController;
  deployController : DeployController;
  Dependency_generatedSaver : generated.ConfigLoader
}.

(** The resolver struct (the logger is left out). *)
Record resolver : Type := {
  DependencyGraph : graph Dependency;
  BasePath : string;
  BaseConfig : latest.Config;
  BaseCache : loc;
  ConfigOptions : loader.ConfigOptions;
  AllowCyclic : bool;
  kubeLoader : KubeLoader;
  client : option Client;
  generatedSaver : generated.ConfigLoader
}.

Definition setDependencyGraph (g : graph Dependency) (r : resolver) : resolver :=
  {| DependencyGraph := g; BasePath := BasePath r; BaseConfig := BaseConfig r;
     BaseCache := BaseCache r; ConfigOptions := ConfigOptions r;
     AllowCyclic := AllowCyclic r; kubeLoader := kubeLoader r;
     client := client r; generatedSaver := generatedSaver r |}.

(** Everything outside the resolver: the store of generated cache objects
    and the rest of the world (file system, version control, cluster). *)
Record World : Type := {
  generatedConfigs : gmap loc generated.Config;
  ext : Ext
}.

Definition setGeneratedConfigs (h : gmap loc generated.Config) (w : World) : World :=
  {| generatedConfigs := h; ext := ext w |}.

(** What a collaborator hands back: a value, or an error with its message. *)
Inductive reply (A : Type) : Type :=
| Return (a : A)
| Fail (msg : string).

(** Observation points of a run, kept in a trace that the code never reads:
    the Materializer is called for an identity (resolver.go:149), addEdge
    has returned (resolver.go:137), a configuration loader is made from
    the cloned options (resolver.go:201), the base cache is saved
    (resolver.go:103). *)
Inductive event : Type :=
| EvResolveDependency (id : string)
| EvAddEdge (fromId toId : string) (err : option error)
| EvNewConfigLoader (options : loader.ConfigOptions)
| EvSave (cache : loc).

Record state : Type := {
  this : resolver;
  world : World;
  trace : list event
}.
End Types.

Arguments Return {A} a.
Arguments Fail {A} msg.

(** The collaborators of section 6 of the specification, as the resolver
    calls them.  Those that touch the world take it and give it back. *)
Class Collaborators `{Opaque} : Type := {
  os_Getwd : World → reply string * World;
  util_GetDependencyID : string → latest.SourceConfig → string → World → string;
  util_DownloadDependency :
    string → latest.SourceConfig → string → bool → World → reply (string * string) * World;
  ConfigOptions_Clone : loader.ConfigOptions → reply loader.ConfigOptions;
  filepath_Join : string → string → string;
  filepath_FromSlash : string → string;
  constants_DefaultConfigPath : string;
  generated_ConfigPath : string;
  ConfigLoader_ConfigPath : loader.ConfigOptions → string;
  ConfigLoader_LoadWithoutProfile :
    loader.ConfigOptions → World → reply latest.Config * World;
  ConfigLoader_Load : loader.ConfigOptions → World → reply latest.Config * World;
  ConfigLoader_ParseCommands :
    loader.ConfigOptions → World → reply (list CommandConfig) * World;
  generated_LoadFromPath : generated.ConfigLoader → string → World → reply loc * World;
  generated_InitDevSpaceConfig : loc → string → World → World;
  generated_GetActive : loc → World → CacheConfig * World;
  generated_Save : generated.ConfigLoader → loc → World → reply unit * World;
  kubectl_NewClientFromContext :
    string → string → bool → KubeLoader → World → reply Client * World;
  Client_CurrentContext : Client → string;
  Client_Namespace : Client → string;
  docker_NewClient : World → reply DockerClient * World;
  pullsecrets_NewClient : latest.Config → option Client → DockerClient → RegistryClient;
  build_NewController : latest.Config → CacheConfig → option Client → BuildController;
  deploy_NewController : latest.Config → CacheConfig → option Client → DeployController
}.

(** ** The resolver *)

Section Resolver.
Context `{Collaborators}.

(** Go code that works on the resolver and the world: it yields an outcome
    and the state it leaves behind, also when it fails. *)
Definition M (A : Type) : Type := state → outcome A * state.

#[global] Instance M_ret : MRet M := λ A a st, (Ok a, st).

#[global] Instance M_bind : MBind M := λ A B k m st,
  match m st with
  | (Ok a, st') => k a st'
  | (Err e, st') => (Err e, st')
  | (Panic, st') => (Panic, st')
  | (Diverge, st') => (Diverge, st')
  end.

Definition fail {A : Type} (e : error) : M A := λ st, (Err e, st).
Definition panic {A : Type} : M A := λ st, (Panic, st).
Definition diverge {A : Type} : M A := λ st, (Diverge, st).

(** Reading the receiver [r] and the graph it points to. *)
Definition getThis : M resolver := λ st, (Ok (this st), st).
Definition getGraph : M (graph Dependency) := λ st, (Ok (DependencyGraph (this st)), st).

Definition withGraph (g : graph Dependency) (st : state) : state :=
  {| this := setDependencyGraph g (this st); world := world st; trace := trace st |}.

Definition withWorld (w : World) (st : state) : state :=
  {| this := this st; world := w; trace := trace st |}.

Definition withEvent (ev : event) (st : state) : state :=
  {| this := this st; world := world st; trace := trace st ++ [ev] |}.

Definition setGraph (g : graph Dependency) : M unit := λ st, (Ok tt, withGraph g st).

(** Appending to the trace. *)
Definition emit (ev : event) : M unit := λ st, (Ok tt, withEvent ev st).

(** A call of a collaborator that may fail. *)
Definition call {A : Type} (f : World → reply A * World) : M A := λ st,
  (match (f (world st)).1 with
   | Return a => Ok a
   | Fail msg => Err (errorString msg)
   end,
   withWorld (f (world st)).2 st).

(** A call of a collaborator that cannot fail. *)
Definition invoke {A : Type} (f : World → A * World) : M A := λ st,
  (Ok (f (world st)).1, withWorld (f (world st)).2 st).

(** A collaborator that only looks at the world. *)
Definition inspect {A : Type} (f : World → A) : M A := λ st, (Ok (f (world st)), st).

Definition liftReply {A : Type} (r : reply A) : M A :=
  call (λ w, (r, w)).

(** [v, err := m; if err != nil { return nil, f(err) }] *)
Definition mapErr {A : Type} (f : error → error) (m : M A) : M A := λ st,
  match m st with
  | (Err e, st') => (Err (f e), st')
  | other => other
  end.

(** [errors.Wrap(err, msg)] on the error of [m]. *)
Definition wrapErr {A : Type} (m : M A) (msg : string) : M A :=
  mapErr (λ err, withMessage err msg) m.

(** [err := m], for an [m] that only yields an error or nil. *)
Definition attempt (m : M unit) : M (option error) := λ st,
  match m st with
  | (Ok _, st') => (Ok None, st')
  | (Err e, st') => (Ok (Some e), st')
  | (Panic, st') => (Panic, st')
  | (Diverge, st') => (Diverge, st')
  end.

(** A graph operation on [r.DependencyGraph]; a failed operation leaves the
    graph as it was. *)
Definition onGraph (f : graph Dependency → outcome (graph Dependency)) : M unit :=
  g ← getGraph;
  match f g with
  | Ok g' => setGraph g'
  | Err e => fail e
  | Panic => panic
  | Diverge => diverge
  end.

(** [obj.ActiveProfile = p] for the generated config at address [l]; a nil
    or dangling pointer panics. *)
Definition storeActiveProfile (l : loc) (p : string) : M unit := λ st,
  match generatedConfigs (world st) !! l with
  | Some c =>
      (Ok tt,
       withWorld (setGeneratedConfigs
                    (<[l := generated.setActiveProfile p c]> (generatedConfigs (world st)))
                    (world st)) st)
  | None => (Panic, st)
  end.

(** resolver.go:174-275 *)
Definition resolveDependency (basePath : string)
    (dependency : latest.DependencyConfig) (update : bool) : M Dependency :=
  '(ID, localPath) ← call (util_DownloadDependency basePath
                             (latest.Source dependency) (latest.Profile dependency) update);
  r ← getThis;
  (* Clone config options *)
  cloned ← wrapErr (liftReply (ConfigOptions_Clone (ConfigOptions r)))
                   "clone config options";
  let cloned := loader.setProfile (latest.Profile dependency) cloned in
  (* Construct load path *)
  let configPath :=
    if decide (latest.ConfigName (latest.Source dependency) ≠ "")
    then filepath_Join localPath (latest.ConfigName (latest.Source dependency))
    else filepath_Join localPath constants_DefaultConfigPath in
  (* Load config *)
  let cloned := loader.setGeneratedConfig (Some (BaseCache r)) cloned in
  let cloned := loader.setConfigPath configPath cloned in
  let cloned := loader.setBasePath (ConfigLoader_ConfigPath (ConfigOptions r)) cloned in
  (* Create the config loader *)
  emit (EvNewConfigLoader cloned);;
  dConfig ← wrapErr
              (if decide (loader.Profile cloned = "")
               then call (ConfigLoader_LoadWithoutProfile cloned)
               else call (ConfigLoader_Load cloned))
              ("loading config for dependency " ++ ID);
  (* parse the commands *)
  dCommands ← wrapErr (call (ConfigLoader_ParseCommands cloned))
                      "parse dependency commands";
  (* Override complete dev config *)
  let dConfig := latest.setDev (Some DevConfig_zero) dConfig in
  (* Check if we should skip building *)
  let dConfig :=
    if decide (latest.SkipBuild dependency = Some true)
    then latest.setImages ∅ dConfig
    else dConfig in
  (* Load dependency generated config *)
  let gLoader := generated.NewConfigLoader (latest.Profile dependency) in
  dGeneratedConfig ←
    mapErr (λ err, errorString ("Error loading generated config for dependency "
                                  ++ ID ++ ": " ++ Error err))
           (call (generated_LoadFromPath gLoader
                    (filepath_Join localPath (filepath_FromSlash generated_ConfigPath))));
  storeActiveProfile dGeneratedConfig (latest.Profile dependency);;
  invoke (λ w, (tt, generated_InitDevSpaceConfig dGeneratedConfig
                      (latest.Profile dependency) w));;
  (* Recreate client if necessary *)
  client ←
    (if decide (latest.Namespace dependency ≠ "")
     then
       match client r with
       | None =>
           created ← wrapErr (call (kubectl_NewClientFromContext
                                      "" (latest.Namespace dependency) false (kubeLoader r)))
                             "create new client";
           mret (Some created)
       | Some current =>
           created ← wrapErr (call (kubectl_NewClientFromContext
                                      (Client_CurrentContext current)
                                      (latest.Namespace dependency) false (kubeLoader r)))
                             "create new client";
           mret (Some created)
       end
     else mret (client r));
  (* Create docker client *)
  dockerClient ← wrapErr (call docker_NewClient) "create docker client";
  (* Create registry client for pull secrets *)
  let registryClient := pullsecrets_NewClient dConfig client dockerClient in
  buildActive ← invoke (generated_GetActive dGeneratedConfig);
  deployActive ← invoke (generated_GetActive dGeneratedConfig);
  mret {| ID := ID;
          LocalPath := localPath;
          Config := dConfig;
          Commands := dCommands;
          GeneratedConfig := dGeneratedConfig;
          DependencyConfig := dependency;
          DependencyCache := BaseCache r;
          kubeClient := client;
          registryClient := registryClient;
          buildController := build_NewController dConfig buildActive client;
          deployController := deploy_NewController dConfig deployActive client;
          Dependency_generatedSaver := gLoader |}.

(** The body of the loop of [resolveRecursive] (resolver.go:133-168);
    [recurse] is the function itself, one level further down. *)
Definition resolveRecursive_body
    (recurse : string → string → list latest.DependencyConfig → bool → M unit)
    (basePath parentID : string) (dependencyConfig : latest.DependencyConfig)
    (update : bool) : M unit :=
  ID ← inspect (util_GetDependencyID basePath (latest.Source dependencyConfig)
                  (latest.Profile dependencyConfig));
  g ← getGraph;
  (* Try to insert new edge *)
  match Nodes g !! ID with
  | Some _ =>
      err ← attempt (onGraph (λ g, addEdge g parentID ID));
      emit (EvAddEdge parentID ID err);;
      match err with
      | Some err =>
          if is_cyclicError err then
            (* Check if cyclic dependencies are allowed *)
            r ← getThis;
            if negb (AllowCyclic r) then fail err else mret tt
          else fail err
      | None => mret tt
      end
  | None =>
      emit (EvResolveDependency ID);;
      dependency ← resolveDependency basePath dependencyConfig update;
      wrapErr (onGraph (λ g, insertNodeAt g parentID ID dependency)) "insert node";;
      (* Load dependencies from dependency *)
      if decide (latest.IgnoreDependencies dependencyConfig = None ∨
                 latest.IgnoreDependencies dependencyConfig = Some false)
      then
        match latest.Dependencies (Config dependency) with
        | _ :: _ =>
            recurse (LocalPath dependency) ID
                    (latest.Dependencies (Config dependency)) update
        | [] => mret tt
        end
      else mret tt
  end.

(** resolver.go:131-172.  [fuel] bounds the depth of the recursion into
    nested declarations; the loop over the declarations is structural. *)
Fixpoint resolveRecursive (fuel : nat) (basePath parentID : string)
    (dependencies : list latest.DependencyConfig) (update : bool) {struct fuel}
  : M unit :=
  match fuel with
  | O => diverge
  | S fuel' =>
      (fix range (dependencies : list latest.DependencyConfig) : M unit :=
         match dependencies with
         | [] => mret tt
         | dependencyConfig :: rest =>
             resolveRecursive_body (resolveRecursive fuel')
               basePath parentID dependencyConfig update;;
             range rest
         end) dependencies
  end.

(** The loop of [buildDependencyQueue] (resolver.go:114-126) on the graph;
    it yields the graph it leaves behind as well.  Every turn that goes on
    has removed a node, so [fuel] is the number of nodes at the start. *)
Fixpoint drain (fuel : nat) (g : graph Dependency) (retDependencies : list Dependency)
  : outcome (list Dependency) * graph Dependency :=
  if decide (1 < size (Nodes g))%nat then
    match fuel with
    | O => (Diverge, g)
    | S fuel' =>
        let next := getNextLeaf g (Root g) in
        if decide (next = Root g) then (Ok retDependencies, g)
        else
          match payload g next with
          | None => (Panic, g)
          | Some dependency =>
              let retDependencies := (retDependencies ++ [dependency])%list in
              match removeNode g next with
              | Ok g' => drain fuel' g' retDependencies
              | Err err => (Err err, g)
              | Panic => (Panic, g)
              | Diverge => (Diverge, g)
              end
          end
    end
  else (Ok retDependencies, g).

(** resolver.go:111-129 *)
Definition buildDependencyQueue : M (list Dependency) := λ st,
  let g := DependencyGraph (this st) in
  ((drain (size (Nodes g)) g []).1, withGraph (drain (size (Nodes g)) g []).2 st).

(** The error [Resolve] gives back for an error of the descent
    (resolver.go:94-100). *)
Definition surfaced (err : error) : error :=
  if is_cyclicError err then err
  else withMessage err "resolve dependencies recursive".

(** resolver.go:87-109.  [fuel] is handed to [resolveRecursive]. *)
Definition Resolve (fuel : nat) (update : bool) : M (list Dependency) :=
  currentWorkingDirectory ← wrapErr (call os_Getwd) "get current working directory";
  r ← getThis;
  mapErr surfaced
         (resolveRecursive fuel currentWorkingDirectory (Root (DependencyGraph r))
            (latest.Dependencies (BaseConfig r)) update);;
  (* Save generated *)
  emit (EvSave (BaseCache r));;
  call (generated_Save (generatedSaver r) (BaseCache r));;
  buildDependencyQueue.

(** *** Notions the statements below are written with *)

(** The options [resolveDependency] makes the configuration loader of
    (resolver.go:181-197): the clone [cloned] of the resolver's options with
    the profile, the base cache, the configuration path and the base path
    set. *)
Definition dependencyOptions (r : resolver) (dependency : latest.DependencyConfig)
    (localPath : string) (cloned : loader.ConfigOptions) : loader.ConfigOptions :=
  loader.setBasePath (ConfigLoader_ConfigPath (ConfigOptions r))
    (loader.setConfigPath
       (if decide (latest.ConfigName (latest.Source dependency) ≠ "")
        then filepath_Join localPath (latest.ConfigName (latest.Source dependency))
        else filepath_Join localPath constants_DefaultConfigPath)
       (loader.setGeneratedConfig (Some (BaseCache r))
          (loader.setProfile (latest.Profile dependency) cloned))).

(** The two ways [resolveDependency] loads a configuration
    (resolver.go:202-206). *)
Definition loadConfig (options : loader.ConfigOptions)
  : World → reply latest.Config * World :=
  if decide (loader.Profile options = "")
  then ConfigLoader_LoadWithoutProfile options
  else ConfigLoader_Load options.

(** What [resolveDependency] does to a loaded configuration
    (resolver.go:217-223). *)
Definition overrideConfig (dependency : latest.DependencyConfig)
    (dConfig : latest.Config) : latest.Config :=
  let dConfig := latest.setDev (Some DevConfig_zero) dConfig in
  if decide (latest.SkipBuild dependency = Some true)
  then latest.setImages ∅ dConfig
  else dConfig.

(** The identities the Materializer was called for, in the order of the calls. *)
Definition materialized (t : list event) : list string :=
  omap (λ ev, match ev with EvResolveDependency id => Some id | _ => None end) t.

(** The base caches handed to the saver. *)
Definition saved (t : list event) : list loc :=
  omap (λ ev, match ev with EvSave cache => Some cache | _ => None end) t.

(** The errors addEdge came back with. *)
Definition edgeErrors (t : list event) : list error :=
  omap (λ ev, match ev with EvAddEdge _ _ err => err | _ => None end) t.

(** The options the configuration loaders were made of. *)
Definition loaderOptions (t : list event) : list loader.ConfigOptions :=
  omap (λ ev, match ev with EvNewConfigLoader options => Some options | _ => None end) t.

(** A computation that stops (error, panic, no result) stops what follows. *)
Inductive stopped {A B : Type} : outcome A → outcome B → Prop :=
| stopped_Err e : stopped (Err e) (Err e)
| stopped_Panic : stopped Panic Panic
| stopped_Diverge : stopped Diverge Diverge.

(** Run from [st], [m] leaves the resolver as it is and adds to the trace
    only events that satisfy [Q]. *)
Definition emits_at {A : Type} (Q : resolver → event → Prop) (m : M A) (st : state)
  : Prop :=
  this (m st).2 = this st ∧
  ∃ evs, trace (m st).2 = (trace st ++ evs)%list ∧ Forall (Q (this st)) evs.

(** The options a configuration loader is made of point at the base cache. *)
Definition loads_with_BaseCache (r : resolver) (ev : event) : Prop :=
  match ev with
  | EvNewConfigLoader options => loader.GeneratedConfig options = Some (BaseCache r)
  | _ => False
  end.

(** The declaration goes on into the nested declarations. *)
Definition descends (dependencyConfig : latest.DependencyConfig) (dependency : Dependency)
  : Prop :=
  (latest.IgnoreDependencies dependencyConfig = None ∨
   latest.IgnoreDependencies dependencyConfig = Some false) ∧
  latest.Dependencies (Config dependency) ≠ [].

(** What a run of [resolveRecursive] from [st] that adds the events [evs]
    to the trace and ends in [st'] with the outcome [o] has done. *)
Record descent (st : state) (evs : list event) (o : outcome unit) (st' : state)
  : Prop := {
  d_this : this st' = setDependencyGraph (DependencyGraph (this st')) (this st);
  d_trace : trace st' = (trace st ++ evs)%list;
  d_saved : saved evs = [];
  d_nodup : NoDup (materialized evs);
  d_fresh : ∀ id, id ∈ materialized evs → ¬ present (DependencyGraph (this st)) id;
  d_inserted : o = Ok tt →
    ∀ id, id ∈ materialized evs → present (DependencyGraph (this st')) id;
  d_options : ∀ options, options ∈ loaderOptions evs →
    loader.GeneratedConfig options = Some (BaseCache (this st));
  d_edgeErrors : ∀ e, e ∈ edgeErrors evs →
    (is_cyclicError e = true ∧ AllowCyclic (this st) = true) ∨ o = Err e;
  d_present : ∀ id,
    present (DependencyGraph (this st)) id → present (DependencyGraph (this st')) id;
  d_edge : ∀ a b,
    edge (DependencyGraph (this st)) a b → edge (DependencyGraph (this st')) a b;
  d_wf : wf_graph (DependencyGraph (this st)) → wf_graph (DependencyGraph (this st'));
  d_payload : ∀ id d, payload (DependencyGraph (this st')) id = Some d →
    payload (DependencyGraph (this st)) id = Some d ∨
    DependencyCache d = BaseCache (this st);
  d_root : Root (DependencyGraph (this st')) = Root (DependencyGraph (this st))
}.
End Resolver.

(** ** Concrete projects

    A small world to run the resolver in: a project is found by the path of
    its configuration file, a dependency is named by its remote (or else its
    path) and its profile, and some collaborators can be told to fail. *)
Module Scenario.

(** A cluster client; [serial] tells the clients apart that the factory has
    made (the resolver's own client has serial 0). *)
Record clusterClient : Type := { context : string; namespace : string; serial : nat }.

Record project : Type := {
  declarations : list latest.DependencyConfig;
  images : list (string * string)
}.

Record files : Type := {
  projects : list (string * project);
  workingDirectory : string;
  brokenConfigs : list string;
  brokenCommands : list string;
  saveFails : bool;
  clientFails : bool;
  nextAddress : loc;
  clientsMade : nat
}.

#[export] Instance opaque : Opaque := {|
  DevConfig := list string;
  DevConfig_zero := [];
  ImageConfig := string;
  CommandConfig := string;
  CacheConfig := unit;
  OtherOptions := unit;
  Client := clusterClient;
  KubeLoader := unit;
  DockerClient := unit;
  RegistryClient := unit;
  BuildController := unit;
  DeployController := unit;
  Ext := files
|}.

Fixpoint assoc {A : Type} (key : string) (l : list (string * A)) : option A :=
  match l with
  | [] => None
  | (k, a) :: l' => if decide (k = key) then Some a else assoc key l'
  end.

Definition sourceName (source : latest.SourceConfig) : string :=
  if decide (latest.Git source ≠ "") then latest.Git source else latest.Path source.

Definition identity (source : latest.SourceConfig) (profile : string) : string :=
  sourceName source ++ (if decide (profile ≠ "") then " - profile " ++ profile else "").

Definition download (basePath : string) (source : latest.SourceConfig)
    (profile : string) (update : bool) (w : World)
  : reply (string * string) * World :=
  (Return (identity source profile, "/deps/" ++ sourceName source), w).

(** A project is loaded with a dev section of its own. *)
Definition loadProject (options : loader.ConfigOptions) (w : World)
  : reply latest.Config * World :=
  if decide (loader.ConfigPath options ∈ brokenConfigs (ext w))
  then (Fail "yaml: unmarshal errors", w)
  else
    match assoc (loader.ConfigPath options) (projects (ext w)) with
    | Some found =>
        (Return {| latest.Dev := Some ["sync"; "ports"];
                   latest.Images := list_to_map (images found);
                   latest.Dependencies := declarations found |}, w)
    | None => (Fail "open devspace.yaml: no such file or directory", w)
    end.

Definition parseCommands (options : loader.ConfigOptions) (w : World)
  : reply (list string) * World :=
  if decide (loader.ConfigPath options ∈ brokenCommands (ext w))
  then (Fail "commands: unexpected type", w)
  else (Return [], w).

(** A fresh generated cache object for the dependency. *)
Definition loadGenerated (gLoader : generated.ConfigLoader) (path : string) (w : World)
  : reply loc * World :=
  let l := nextAddress (ext w) in
  (Return l,
   {| generatedConfigs :=
        <[l := {| generated.ActiveProfile := ""; generated.Profiles := ∅ |}]>
          (generatedConfigs w);
      ext := {| projects := projects (ext w);
                workingDirectory := workingDirectory (ext w);
                brokenConfigs := brokenConfigs (ext w);
                brokenCommands := brokenCommands (ext w);
                saveFails := saveFails (ext w);
                clientFails := clientFails (ext w);
                nextAddress := Pos.succ l;
                clientsMade := clientsMade (ext w) |} |}).

Definition newClient (ctx ns : string) (switchContext : bool) (kl : unit) (w : World)
  : reply clusterClient * World :=
  if clientFails (ext w)
  then (Fail "kube config is invalid", w)
  else
    (Return {| context := ctx; namespace := ns; serial := S (clientsMade (ext w)) |},
     {| generatedConfigs := generatedConfigs w;
        ext := {| projects := projects (ext w);
                  workingDirectory := workingDirectory (ext w);
                  brokenConfigs := brokenConfigs (ext w);
                  brokenCommands := brokenCommands (ext w);
                  saveFails := saveFails (ext w);
                  clientFails := clientFails (ext w);
                  nextAddress := nextAddress (ext w);
                  clientsMade := S (clientsMade (ext w)) |} |}).

#[export] Instance collaborators : Collaborators := {|
  os_Getwd w := (Return (workingDirectory (ext w)), w);
  util_GetDependencyID basePath source profile w := identity source profile;
  util_DownloadDependency := download;
  ConfigOptions_Clone options := Return options;
  filepath_Join a b := a ++ "/" ++ b;
  filepath_FromSlash p := p;
  constants_DefaultConfigPath := "devspace.yaml";
  generated_ConfigPath := ".devspace/generated.yaml";
  ConfigLoader_ConfigPath options := loader.ConfigPath options;
  ConfigLoader_LoadWithoutProfile := loadProject;
  ConfigLoader_Load := loadProject;
  ConfigLoader_ParseCommands := parseCommands;
  generated_LoadFromPath := loadGenerated;
  generated_InitDevSpaceConfig l p w := w;
  generated_GetActive l w := (tt, w);
  generated_Save saver l w :=
    if saveFails (ext w) then (Fail "write generated.yaml: disk full", w)
    else (Return tt, w);
  kubectl_NewClientFromContext := newClient;
  Client_CurrentContext := context;
  Client_Namespace := namespace;
  docker_NewClient w := (Return tt, w);
  pullsecrets_NewClient _ _ _ := tt;
  build_NewController _ _ _ := tt;
  deploy_NewController _ _ _ := tt
|}.

(** The dependency [name], declared by its remote. *)
Definition declare (name : string) : latest.DependencyConfig :=
  {| latest.Source := {| latest.Git := name; latest.Path := ""; latest.ConfigName := "" |};
     latest.Profile := "";
     latest.SkipBuild := None;
     latest.IgnoreDependencies := None;
     latest.Namespace := "" |}.

(** The project [name] with the dependencies [deps], where a download puts it. *)
Definition projectAt (name : string) (deps : list string) : string * project :=
  ("/deps/" ++ name ++ "/devspace.yaml",
   {| declarations := declare <$> deps; images := [("app", "registry/" ++ name)] |}).

Definition filesOf (ps : list (string * project)) : files :=
  {| projects := ps; workingDirectory := "/work"; brokenConfigs := [];
     brokenCommands := []; saveFails := false; clientFails := false;
     nextAddress := 2%positive; clientsMade := 0 |}.

(** The base cache sits at address 1. *)
Definition worldOf (f : files) : World :=
  {| generatedConfigs :=
       {[ 1%positive := {| generated.ActiveProfile := ""; generated.Profiles := ∅ |} ]};
     ext := f |}.

(** A resolver as [NewResolver] makes it, for a project that declares [deps]. *)
Definition resolverOf (deps : list latest.DependencyConfig) (allowCyclic : bool)
    (c : option clusterClient) : resolver :=
  {| DependencyGraph := newGraph "root" (newNode None);
     BasePath := "";
     BaseConfig := {| latest.Dev := None; latest.Images := ∅; latest.Dependencies := deps |};
     BaseCache := 1%positive;
     ConfigOptions := {| loader.Profile := ""; loader.GeneratedConfig := None;
                         loader.ConfigPath := ""; loader.BasePath := "";
                         loader.Other := tt |};
     AllowCyclic := allowCyclic;
     kubeLoader := tt;
     client := c;
     generatedSaver := generated.NewConfigLoader "" |}.

Definition start (r : resolver) (f : files) : state :=
  {| this := r; world := worldOf f; trace := [] |}.

(** The root declares P and Q; both declare R. *)
Definition diamond : state :=
  start (resolverOf [declare "P"; declare "Q"] false None)
        (filesOf [projectAt "P" ["R"]; projectAt "Q" ["R"]; projectAt "R" []]).

(** The root declares A; A declares B; B declares A. *)
Definition cycle (allowCyclic : bool) : state :=
  start (resolverOf [declare "A"] allowCyclic None)
        (filesOf [projectAt "A" ["B"]; projectAt "B" ["A"]]).

Definition inNamespace (ns : string) (d : latest.DependencyConfig) : latest.DependencyConfig :=
  {| latest.Source := latest.Source d; latest.Profile := latest.Profile d;
     latest.SkipBuild := latest.SkipBuild d;
     latest.IgnoreDependencies := latest.IgnoreDependencies d;
     latest.Namespace := ns |}.

Definition skipBuild (d : latest.DependencyConfig) : latest.DependencyConfig :=
  {| latest.Source := latest.Source d; latest.Profile := latest.Profile d;
     latest.SkipBuild := Some true;
     latest.IgnoreDependencies := latest.IgnoreDependencies d;
     latest.Namespace := latest.Namespace d |}.

Definition breakConfigs (paths : list string) (f : files) : files :=
  {| projects := projects f; workingDirectory := workingDirectory f;
     brokenConfigs := paths; brokenCommands := brokenCommands f;
     saveFails := saveFails f; clientFails := clientFails f;
     nextAddress := nextAddress f; clientsMade := clientsMade f |}.

Definition breakCommands (paths : list string) (f : files) : files :=
  {| projects := projects f; workingDirectory := workingDirectory f;
     brokenConfigs := brokenConfigs f; brokenCommands := paths;
     saveFails := saveFails f; clientFails := clientFails f;
     nextAddress := nextAddress f; clientsMade := clientsMade f |}.

(** The root declares P, which declares nothing. *)
Definition single : state :=
  start (resolverOf [declare "P"] false None) (filesOf [projectAt "P" []]).

(** The same, for a resolver whose client is bound to the namespace
    [team] of the context [kind]. *)
Definition teamClient : clusterClient :=
  {| context := "kind"; namespace := "team"; serial := 0 |}.

Definition withClient : state :=
  start (resolverOf [inNamespace "team" (declare "P")] false (Some teamClient))
        (filesOf [projectAt "P" []]).

Definition unreadableConfig : state :=
  start (resolverOf [declare "P"] false None)
        (breakConfigs ["/deps/P/devspace.yaml"] (filesOf [projectAt "P" []])).

Definition unreadableCommands : state :=
  start (resolverOf [declare "P"] false None)
        (breakCommands ["/deps/P/devspace.yaml"] (filesOf [projectAt "P" []])).

(** The state in which A and its dependency B are resolved, with cycle
    tolerance as given. *)
Definition chained (allowCyclic : bool) : state :=
  (resolveRecursive 3 "/work" "root" [declare "A"] false
     (start (resolverOf [declare "A"] allowCyclic None)
            (filesOf [projectAt "A" ["B"]; projectAt "B" []]))).2.

Definition breakSave (f : files) : files :=
  {| projects := projects f; workingDirectory := workingDirectory f;
     brokenConfigs := brokenConfigs f; brokenCommands := brokenCommands f;
     saveFails := true; clientFails := clientFails f;
     nextAddress := nextAddress f; clientsMade := clientsMade f |}.

(** The root declares P; the base cache cannot be written. *)
Definition unsavable : state :=
  start (resolverOf [declare "P"] false None) (breakSave (filesOf [projectAt "P" []])).

Definition listOf {A : Type} (o : outcome (list A)) : list A :=
  match o with Ok l => l | _ => [] end.
End Scenario.

(** ** Making a resolver *)

(** What [NewResolver] asks of other packages: the loader of the cluster
    configuration (made anew, or the one of the client), the absolute form
    of a path and the remote of the version control checkout at a path. *)
Class Environment `{Opaque} : Type := {
  kubeconfig_NewLoader : KubeLoader;
  Client_KubeConfigLoader : Client → KubeLoader;
  filepath_Abs : string → World → reply string * World;
  git_GetRemote : string → World → reply string * World
}.

Section NewResolver.
Context `{Environment}.

(** resolver.go:48-84.  The field [BasePath] is not set and keeps its zero
    value. *)
Definition NewResolver (baseConfig : latest.Config) (baseCache : loc)
    (client : option Client) (allowCyclic : bool)
    (configOptions : loader.ConfigOptions) (w : World) : outcome resolver * World :=
  let kubeLoader :=
    match client with
    | None => kubeconfig_NewLoader
    | Some client => Client_KubeConfigLoader client
    end in
  match filepath_Abs "." w with
  | (Fail msg, w) => (Err (errorString msg), w)
  | (Return basePath, w) =>
      let id :=
        match (git_GetRemote basePath w).1 with
        | Return remote => remote
        | Fail _ => basePath
        end in
      (Ok {| DependencyGraph := newGraph id (newNode None);
             BasePath := "";
             BaseConfig := baseConfig;
             BaseCache := baseCache;
             ConfigOptions := configOptions;
             AllowCyclic := allowCyclic;
             kubeLoader := kubeLoader;
             client := client;
             generatedSaver := generated.NewConfigLoader "" |},
       (git_GetRemote basePath w).2)
  end.
End NewResolver.

(** A checkout for the statements on concrete projects: the working
    directory is its own absolute form, and it has a remote when it is
    [/work]. *)
Module Checkout.
Import Scenario.

#[export] Instance environment : Environment := {|
  kubeconfig_NewLoader := tt;
  Client_KubeConfigLoader _ := tt;
  filepath_Abs p w := (Return (workingDirectory (ext w)), w);
  git_GetRemote basePath w :=
    (if decide (basePath = "/work")
     then Return "git@example.com:team/root.git"
     else Fail "not a git repository", w)
|}.

(** A project without dependencies, nothing in the graph but the root. *)
Definition alone : state :=
  start (resolverOf [] false None) (filesOf []).

(** The root declares P, which declares R but is not followed. *)
Definition notFollowed : state :=
  start (resolverOf
           [{| latest.Source := latest.Source (declare "P");
               latest.Profile := "";
               latest.SkipBuild := None;
               latest.IgnoreDependencies := Some true;
               latest.Namespace := "" |}] false None)
        (filesOf [projectAt "P" ["R"]; projectAt "R" []]).
End Checkout.

(** ** Package patch: the helpers of the YAML patch operations

    The operations work on [*yaml.Node] trees (gopkg.in/yaml.v3).  A node
    is modelled with its address, and a pointer to a node as the node
    itself: the functions below only read through the pointers they are
    given, and where they compare two pointers, the model compares the
    addresses.  A Go slice is a list, the nil slice the empty one (the
    code takes lengths, ranges and appends, and never tests for nil), and
    an [int] is an integer. *)
Module patch.

(** yaml.Kind; [NoKind] is the zero value. *)
Inductive Kind : Type :=
| NoKind | DocumentNode | SequenceNode | MappingNode | ScalarNode | AliasNode.

(** yaml.Node: the fields the package uses, and the address of the node. *)
#[local] Unset Elimination Schemes.
Inductive Node : Type :=
  mkNode (addr : loc) (kind : Kind) (tag value : string) (content : list Node).
#[local] Set Elimination Schemes.
Arguments mkNode addr%_positive kind tag value content.

Definition addr (n : Node) : loc := let 'mkNode a _ _ _ _ := n in a.
Definition Kind_ (n : Node) : Kind := let 'mkNode _ k _ _ _ := n in k.
Definition Content (n : Node) : list Node := let 'mkNode _ _ _ _ c := n in c.

(** [a == b] on pointers to nodes. *)
Definition same (a b : Node) : bool := bool_decide (addr a = addr b).

(** [s[lo:hi]]; [None] is the run-time panic for bounds out of range.  Go
    checks [hi] against the capacity of a slice; the upper bounds taken
    below are at most the index of an element or the length. *)
Definition slice {A : Type} (s : list A) (lo hi : Z) : option (list A) :=
  if decide (0 ≤ lo ∧ lo ≤ hi ∧ hi ≤ Z.of_nat (length s))%Z
  then Some (take (Z.to_nat (hi - lo)) (drop (Z.to_nat lo) s))
  else None.

(** [s[lo:]] *)
Definition sliceFrom {A : Type} (s : list A) (lo : Z) : option (list A) :=
  slice s lo (Z.of_nat (length s)).

(** part_003:99-111 *)
Fixpoint find (doc : Node) (predicate : Node → bool) : option Node :=
  if predicate doc then Some doc
  else
    let 'mkNode _ _ _ _ content := doc in
    (fix range (l : list Node) : option Node :=
       match l with
       | [] => None
       | content :: rest =>
           match find content predicate with
           | Some found => Some found
           | None => range rest
           end
       end) content.

(** part_003:113-122 *)
Definition containsChild (child : Node) : Node → bool := λ node,
  (fix range (l : list Node) : bool :=
     match l with
     | [] => false
     | c :: rest => if same c child then true else range rest
     end) (Content node).

(** The loop of [childIndex] from the position [p] on. *)
Fixpoint childIndex_from (p : Z) (children : list Node) (child : Node) : Z :=
  match children with
  | [] => -1
  | v :: rest => if same v child then p else childIndex_from (p + 1) rest child
  end.

(** part_003:124-131 *)
Definition childIndex (children : list Node) (child : Node) : Z :=
  childIndex_from 0 children child.

(** part_003:133-136 *)
Definition removeProperty (parent child : Node) : option (list Node) :=
  let childIndex := childIndex (Content parent) child in
  head ← slice (Content parent) 0 (childIndex - 1);
  tail ← sliceFrom (Content parent) (childIndex + 1);
  Some (head ++ tail)%list.

(** part_003:138-147 *)
Definition removeChild (parent child : Node) : list Node :=
  (fix range (remaining l : list Node) : list Node :=
     match l with
     | [] => remaining
     | current :: rest =>
         if same child current then range remaining rest
         else range (remaining ++ [current])%list rest
     end) [] (Content parent).

(** part_003:149-152 *)
Definition addChildAtIndex (parent child value : Node) : option (list Node) :=
  let childIdx := childIndex (Content parent) child in
  head ← slice (Content parent) 0 childIdx;
  tail ← sliceFrom (Content parent) childIdx;
  Some (head ++ (Content value ++ tail))%list.

(** part_003:154-157 *)
Definition replaceChildAtIndex (parent child value : Node) : option (list Node) :=
  let childIdx := childIndex (Content parent) child in
  head ← slice (Content parent) 0 childIdx;
  tail ← sliceFrom (Content parent) (childIdx + 1);
  Some (head ++ (Content value ++ tail))%list.

(** part_003:86-93: the [Content] that [remove] leaves in [parent]. *)
Definition remove (parent match_ : Node) : option (list Node) :=
  match Kind_ parent with
  | MappingNode => removeProperty parent match_
  | SequenceNode => Some (removeChild parent match_)
  | _ => Some (Content parent)
  end.

(** part_003:95-97: the [Content] that [replace] leaves in [parent], for
    the operation's value [value]. *)
Definition replace (value parent match_ : Node) : option (list Node) :=
  replaceChildAtIndex parent match_ value.

(** *** Notions the statements are written with *)

(** The nodes of a tree in document order: a node, then the nodes of its
    children from the first to the last. *)
Fixpoint nodes (doc : Node) : list Node :=
  let 'mkNode _ _ _ _ content := doc in
  doc :: (fix range (l : list Node) : list Node :=
            match l with
            | [] => []
            | c :: rest => (nodes c ++ range rest)%list
            end) content.

(** The first element of a list that satisfies a test. *)
Fixpoint first (p : Node → bool) (l : list Node) : option Node :=
  match l with
  | [] => None
  | n :: rest => if p n then Some n else first p rest
  end.

(** A sequence with the scalars [a], [b], [c] at the addresses 2, 3, 4,
    and a mapping of two properties. *)
Definition scalar (a : loc) (v : string) : Node := mkNode a ScalarNode "!!str" v [].
Arguments scalar a%_positive v.

Definition sequence : Node :=
  mkNode 1 SequenceNode "!!seq" "" [scalar 2 "a"; scalar 3 "b"; scalar 4 "c"].

Definition mapping : Node :=
  mkNode 5 MappingNode "!!map" ""
    [scalar 6 "name"; scalar 7 "app"; scalar 8 "image";
     scalar 9 "nginx"].

Definition document : Node := mkNode 10 DocumentNode "" "" [mapping].

Definition replacement : Node :=
  mkNode 11 DocumentNode "" "" [scalar 12 "x"; scalar 13 "y"].
End patch.

(** ** Package helper: rewriting a Dockerfile
    (pkg/devspace/build/builder/helper/util.go)

    A Go string is a string of bytes.  A [[]string] is [None] for the nil
    slice and a list otherwise: the code tells the two apart.  The file
    system, the regular expressions made from a pattern at run time, the
    JSON decoder and the line scanner are the fields of a class; the three
    regular expressions the package declares with a fixed pattern that has
    no alternatives are written out as functions.  The logger is left out. *)
Module helper.

Definition strings : Type := option (list string).

(** [len(s)] and the elements of [s]. *)
Definition elems (s : strings) : list string := default [] s.
Definition len (s : strings) : nat := length (elems s).

(** The bytes of a line feed, a double quote and an opening bracket. *)
Definition LF : Ascii.ascii := Ascii.ascii_of_nat 10.
Definition DQUOTE : Ascii.ascii := Ascii.ascii_of_nat 34.
Definition LBRACKET : Ascii.ascii := Ascii.ascii_of_nat 91.

Definition newline : string := String LF "".
Definition quote : string := String DQUOTE "".

(** [strings.Join(elems, sep)] *)
Fixpoint Join (elems : list string) (sep : string) : string :=
  match elems with
  | [] => ""
  | [e] => e
  | e :: rest => e ++ sep ++ Join rest sep
  end.

(** [s[i:]] and [s[:i]] on a string; [None] is the run-time panic for an
    index beyond the length. *)
Fixpoint dropBytes (i : nat) (s : string) : string :=
  match i, s with
  | S i', String _ s' => dropBytes i' s'
  | _, _ => s
  end.

Fixpoint takeBytes (i : nat) (s : string) : string :=
  match i, s with
  | S i', String c s' => String c (takeBytes i' s')
  | _, _ => ""
  end.

Definition sliceFrom (s : string) (i : nat) : option string :=
  if decide (i ≤ String.length s)%nat then Some (dropBytes i s) else None.

Definition sliceTo (s : string) (i : nat) : option string :=
  if decide (i ≤ String.length s)%nat then Some (takeBytes i s) else None.

(** util.go:28, with the argument of [fmt.Sprintf] in the place of [%s]. *)
Definition DockerfileTargetRegex (target : string) : string :=
  "(?i)(^|" ++ newline ++ ")\s*FROM\s+(\S+)\s+AS\s+(" ++ target ++ ")\s*($|"
    ++ newline ++ ")".

(** *** The regular expressions with a fixed pattern *)

(** The class [\s] of the regular expressions of Go: tab, line feed, form
    feed, carriage return and space. *)
Definition isSpace (c : Ascii.ascii) : bool :=
  bool_decide (Ascii.nat_of_ascii c ∈ [9; 10; 12; 13; 32]%nat).

Fixpoint skipSpace (s : string) : string :=
  match s with
  | String c s' => if isSpace c then skipSpace s' else s
  | "" => ""
  end.

(** The upper-case form of an ASCII letter; the letters of the keywords
    below have no other case variant. *)
Definition upper (c : Ascii.ascii) : Ascii.ascii :=
  if bool_decide (97 ≤ Ascii.nat_of_ascii c ≤ 122)%nat
  then Ascii.ascii_of_nat (Ascii.nat_of_ascii c - 32)
  else c.

(** What follows the upper-case keyword [kw] at the start of [s], in either
    case of its letters. *)
Fixpoint afterKeyword (kw s : string) : option string :=
  match kw with
  | "" => Some s
  | String k kw' =>
      match s with
      | String c s' => if Ascii.eqb (upper c) k then afterKeyword kw' s' else None
      | "" => None
      end
  end.

(** util.go:214: [nextFromFinder.FindStringIndex(s)] for the pattern
    [(?i)\n\s*FROM]: the bounds of the leftmost match.  A match begins at
    a line feed that is followed, after any white space, by FROM. *)
Fixpoint nextFromFinder_FindStringIndex (s : string) : option (nat * nat) :=
  match s with
  | "" => None
  | String c rest =>
      match (if Ascii.eqb c LF then afterKeyword "FROM" (skipSpace rest) else None) with
      | Some after => Some (0, String.length s - String.length after)%nat
      | None =>
          match nextFromFinder_FindStringIndex rest with
          | Some (lo, hi) => Some (S lo, S hi)
          | None => None
          end
      end
  end.

Fixpoint hasNewline (s : string) : bool :=
  match s with
  | "" => false
  | String c s' => Ascii.eqb c LF || hasNewline s'
  end.

Fixpoint lastByte (s : string) : option Ascii.ascii :=
  match s with
  | "" => None
  | String c "" => Some c
  | String _ s' => lastByte s'
  end.

(** util.go:267-268: the submatch of [FindStringSubmatch(line)] for the
    patterns [(?i)^[\s]*ENTRYPOINT[\s]+(.+)$] and [(?i)^[\s]*CMD[\s]+(.+)$],
    with the keyword [kw]; [None] when the line does not match.  The
    keyword comes after any white space and is followed by white space;
    the submatch is what comes after that white space up to the end of
    the text and holds no line feed.  When only white space follows the
    keyword, the submatch is the last byte of it, the bytes before being
    the white space the pattern asks for. *)
Definition instruction (kw line : string) : option string :=
  match afterKeyword kw (skipSpace line) with
  | None => None
  | Some rest =>
      let args := skipSpace rest in
      let blank := (String.length rest - String.length args)%nat in
      if hasNewline args then None
      else if decide (args ≠ "") then
        if decide (1 ≤ blank)%nat then Some args else None
      else
        match lastByte rest with
        | Some c =>
            if decide (2 ≤ blank)%nat
            then if Ascii.eqb c LF then None else Some (String c "")
            else None
        | None => None
        end
  end.

(** [s[0] == '['] *)
Definition execForm (s : string) : bool :=
  match s with
  | String c _ => Ascii.eqb c LBRACKET
  | "" => false
  end.

(** *** What the package asks of the libraries *)

Class Library : Type := {
  FileSystem : Type;
  Regexp : Type;
  ioutil_ReadFile : string → FileSystem → reply string;
  ioutil_TempDir : string → string → FileSystem → reply string * FileSystem;
  ioutil_WriteFile : string → string → FileSystem → reply unit * FileSystem;
  filepath_Join : string → string → string;
  regexp_Compile : string → reply Regexp;
  (* [re.FindAllStringIndex(s, -1)]: the bounds of the matches *)
  Regexp_FindAllStringIndex : Regexp → string → list (nat * nat);
  (* [json.Unmarshal] of a text into a [[]string] that is empty, not nil *)
  json_Unmarshal : string → reply (list string);
  (* The lines a [bufio.Scanner] yields for a text until [Scan] gives
      false, and the message of [scanner.Err()] *)
  bufio_Scan : string → list string * option string;
  restart_ScriptPath : string
}.

Section helper.
Context `{Library}.

(** util.go:244-265.  [Panic] is a slice of the content out of its
    bounds. *)
Definition splitDockerfileAtTarget (content target : string)
  : outcome (string * string) :=
  (* Find the target *)
  match regexp_Compile (DockerfileTargetRegex target) with
  | Fail msg => Err (errorString msg)
  | Return targetFinder =>
      match Regexp_FindAllStringIndex targetFinder content with
      | [] =>
          Err (errorString ("Coulnd't find target '" ++ target ++ "' in dockerfile"))
      | _ :: _ :: _ =>
          Err (errorString ("Multiple matches for target '" ++ target
                              ++ "' in dockerfile"))
      | [(_, matchEnd)] =>
          (* Find the next FROM statement *)
          match sliceFrom content matchEnd with
          | None => Panic
          | Some rest =>
              match nextFromFinder_FindStringIndex rest with
              | None => Ok (content, "")
              | Some (nextFrom, _) =>
                  match sliceTo content (matchEnd + nextFrom),
                        sliceFrom content (matchEnd + nextFrom) with
                  | Some before, Some after => Ok (before, after)
                  | _, _ => Panic
                  end
              end
          end
      end
  end.

(** util.go:217-230: the text [addNewEntrypoint] puts together. *)
Definition entrypointStr (entrypoint cmd additionalLines : strings) : string :=
  let entrypointStr := "" in
  let entrypointStr :=
    if decide (0 < len additionalLines)%nat
    then entrypointStr ++ newline ++ Join (elems additionalLines) newline
    else entrypointStr in
  let entrypointStr :=
    if decide (0 < len entrypoint)%nat
    then entrypointStr ++ newline ++ newline ++ "ENTRYPOINT [" ++ quote
           ++ Join (elems entrypoint) (quote ++ "," ++ quote)
           ++ quote ++ "]" ++ newline
    else if decide (entrypoint ≠ None)
    then entrypointStr ++ newline ++ newline ++ "ENTRYPOINT []" ++ newline
    else entrypointStr in
  if decide (0 < len cmd)%nat
  then entrypointStr ++ newline ++ newline ++ "CMD [" ++ quote
         ++ Join (elems cmd) (quote ++ "," ++ quote)
         ++ quote ++ "]" ++ newline
  else if decide (cmd ≠ None)
  then entrypointStr ++ newline ++ newline ++ "CMD []" ++ newline
  else entrypointStr.

(** util.go:216-242 *)
Definition addNewEntrypoint (content : string)
    (entrypoint cmd additionalLines : strings) (target : string) : outcome string :=
  let entrypointStr := entrypointStr entrypoint cmd additionalLines in
  if decide (target = "") then Ok (content ++ entrypointStr)
  else
    match splitDockerfileAtTarget content target with
    | Ok (before, after) => Ok (before ++ entrypointStr ++ after)
    | Err err => Err err
    | Panic => Panic
    | Diverge => Diverge
    end.

(** The body of the loop of [parseLastOccurence] (util.go:289-315) for one
    line: the two values it leaves, or the error the function ends with. *)
Definition parseLine (line : string)
    (lastOccurenceEntrypoint lastOccurenceCmd : strings)
  : strings * strings + error :=
  (* is ENTRYPOINT? *)
  match instruction "ENTRYPOINT" line with
  | Some args =>
      (* exec or shell form?  In both, reset CMD *)
      if execForm args then
        match json_Unmarshal args with
        | Return parsed => inl (Some parsed, None)
        | Fail msg => inr (errorString ("error parsing " ++ args ++ ": " ++ msg))
        end
      else inl (Some ["/bin/sh"; "-c"; args], None)
  | None =>
      match instruction "CMD" line with
      | Some args =>
          if execForm args then
            match json_Unmarshal args with
            | Return parsed => inl (lastOccurenceEntrypoint, Some parsed)
            | Fail msg => inr (errorString ("error parsing " ++ args ++ ": " ++ msg))
            end
          else inl (lastOccurenceEntrypoint, Some ["/bin/sh"; "-c"; args])
      | None => inl (lastOccurenceEntrypoint, lastOccurenceCmd)
      end
  end.

(** The line does not end the function with an error. *)
Definition parses (line : string) : Prop :=
  ∃ found, parseLine line None None = inl found.

(** The loop of [parseLastOccurence] over the scanned lines, and what is
    returned when the scanner has ended with [scanErr]. *)
Fixpoint parseLines (scanErr : option string) (lines : list string)
    (lastOccurenceEntrypoint lastOccurenceCmd : strings)
  : strings * strings * option error :=
  match lines with
  | [] => (lastOccurenceEntrypoint, lastOccurenceCmd, errorString <$> scanErr)
  | line :: rest =>
      match parseLine line lastOccurenceEntrypoint lastOccurenceCmd with
      | inl (lastOccurenceEntrypoint, lastOccurenceCmd) =>
          parseLines scanErr rest lastOccurenceEntrypoint lastOccurenceCmd
      | inr err => (None, None, Some err)
      end
  end.

(** util.go:283-320 *)
Definition parseLastOccurence (content : string)
  : strings * strings * option error :=
  parseLines (bufio_Scan content).2 (bufio_Scan content).1 None None.

(** util.go:270-281 *)
Definition getLastestEntrypointAndCmd (content target : string)
  : outcome (strings * strings * option error) :=
  if decide (target = "") then Ok (parseLastOccurence content)
  else
    match splitDockerfileAtTarget content target with
    | Ok (before, _) => Ok (parseLastOccurence before)
    | Err err => Ok (None, None, Some err)
    | Panic => Panic
    | Diverge => Diverge
    end.

(** util.go:155-183 *)
Definition CreateTempDockerfile (dockerfile : string)
    (entrypoint cmd additionalLines : strings) (target : string) (fs : FileSystem)
  : outcome string * FileSystem :=
  if decide (entrypoint = None ∧ cmd = None ∧ len additionalLines = 0%nat)
  then (Err (errorString "entrypoint, cmd & additional lines are empty"), fs)
  else
    match ioutil_ReadFile dockerfile fs with
    | Fail msg => (Err (errorString msg), fs)
    | Return data =>
        (* Overwrite entrypoint and cmd *)
        match ioutil_TempDir "" "example" fs with
        | (Fail msg, fs) => (Err (errorString msg), fs)
        | (Return tmpDir, fs) =>
            (* add the new entrypoint *)
            match addNewEntrypoint data entrypoint cmd additionalLines target with
            | Err err => (Err (withMessage err "add entrypoint"), fs)
            | Panic => (Panic, fs)
            | Diverge => (Diverge, fs)
            | Ok newData =>
                let tmpfn := filepath_Join tmpDir "Dockerfile" in
                match ioutil_WriteFile tmpfn newData fs with
                | (Fail msg, fs) => (Err (errorString msg), fs)
                | (Return _, fs) => (Ok tmpfn, fs)
                end
            end
        end
    end.

Definition noEntrypointOrCmd : string :=
  "cannot inject restart helper into Dockerfile because neither ENTRYPOINT nor CMD was found."
    ++ newline ++ newline ++ "How to fix this:" ++ newline
    ++ "- Option A: Define an ENTRYPOINT (or CMD) in your Dockerfile" ++ newline
    ++ "- Option B: Set `images.*.entrypoint` option in your devspace.yaml" ++ newline
    ++ "- Option C: If you don't want to inject the restart helper, set `images.*.injectRestartHelper` to false".

(** util.go:120-149: the entrypoint, the command and the instructions
    [RewriteDockerfile] goes on with when the restart helper is injected,
    for what the Dockerfile says ([oldEntrypoint], [oldCmd]). *)
Definition withHelper (entrypoint cmd additionalInstructions oldEntrypoint oldCmd : strings)
  : outcome (strings * strings * strings) :=
  match
    (if decide (len entrypoint = 0%nat) then
       if decide (len oldEntrypoint = 0%nat ∧ len cmd = 0%nat ∧ len oldCmd = 0%nat)
       then Err (errorString noEntrypointOrCmd)
       else
         Ok (oldEntrypoint,
             if decide (len cmd = 0%nat ∧ (0 < len oldCmd)%nat) then oldCmd else cmd)
     else
       Ok (entrypoint,
           if decide (len cmd = 0%nat ∧ (0 < len oldCmd)%nat) then oldCmd else cmd))
  with
  | Ok (entrypoint, cmd) =>
      Ok (Some (restart_ScriptPath :: elems entrypoint), cmd,
          Some (elems additionalInstructions ++ ["COPY /.devspace /"])%list)
  | Err err => Err err
  | Panic => Panic
  | Diverge => Diverge
  end.

(** util.go:112-152 *)
Definition RewriteDockerfile (dockerfile : string)
    (entrypoint cmd additionalInstructions : strings) (target : string)
    (injectHelper : bool) (fs : FileSystem) : outcome string * FileSystem :=
  if decide (len entrypoint = 0%nat ∧ len cmd = 0%nat ∧ injectHelper = false ∧
             len additionalInstructions = 0%nat)
  then (Ok "", fs)
  else
    let additionalInstructions :=
      if decide (additionalInstructions = None) then Some [] else additionalInstructions in
    if injectHelper then
      match ioutil_ReadFile dockerfile fs with
      | Fail msg => (Err (errorString msg), fs)
      | Return data =>
          match getLastestEntrypointAndCmd data target with
          | Ok (_, _, Some err) => (Err err, fs)
          | Ok (oldEntrypoint, oldCmd, None) =>
              match withHelper entrypoint cmd additionalInstructions
                      oldEntrypoint oldCmd with
              | Ok (entrypoint, cmd, additionalInstructions) =>
                  CreateTempDockerfile dockerfile entrypoint cmd additionalInstructions
                    target fs
              | Err err => (Err err, fs)
              | Panic => (Panic, fs)
              | Diverge => (Diverge, fs)
              end
          | Err err => (Err err, fs)
          | Panic => (Panic, fs)
          | Diverge => (Diverge, fs)
          end
      end
    else
      CreateTempDockerfile dockerfile entrypoint cmd additionalInstructions target fs.
End helper.
End helper.

(** A workstation for the statements on concrete Dockerfiles: files by
    their path, the names the next temporary directories get, lines cut at
    line feeds, JSON arrays of strings without escapes, and stage headers
    written as [FROM image AS name] on a line of their own. *)
Module Workstation.
Import helper.

Record disk : Type := { files : list (string * string); fresh : list string }.

Fixpoint splitLines (line s : string) : list string :=
  match s with
  | "" => if decide (line = "") then [] else [line]
  | String c s' =>
      if Ascii.eqb c LF then line :: splitLines "" s'
      else splitLines (line ++ String c "") s'
  end.

Inductive mode : Type := First | Next | Item (item : string) | After.

Fixpoint readArray (m : mode) (items : list string) (s : string) : reply (list string) :=
  match s with
  | "" => Fail "unexpected end of JSON input"
  | String c s' =>
      match m with
      | Item item =>
          if Ascii.eqb c DQUOTE then readArray After (items ++ [item])%list s'
          else readArray (Item (item ++ String c "")) items s'
      | First =>
          if isSpace c then readArray First items s'
          else if Ascii.eqb c DQUOTE then readArray (Item "") items s'
          else if Ascii.eqb c (Ascii.ascii_of_nat 93) && bool_decide (s' = "")
          then Return items
          else Fail "invalid character looking for beginning of value"
      | Next =>
          if isSpace c then readArray Next items s'
          else if Ascii.eqb c DQUOTE then readArray (Item "") items s'
          else Fail "invalid character looking for beginning of value"
      | After =>
          if isSpace c then readArray After items s'
          else if Ascii.eqb c (Ascii.ascii_of_nat 44) then readArray Next items s'
          else if Ascii.eqb c (Ascii.ascii_of_nat 93) && bool_decide (s' = "")
          then Return items
          else Fail "invalid character after array element"
      end
  end.

Definition unmarshal (s : string) : reply (list string) :=
  match s with
  | String c s' =>
      if Ascii.eqb c LBRACKET then readArray First [] s'
      else Fail "cannot unmarshal into Go value of type []string"
  | "" => Fail "unexpected end of JSON input"
  end.

Fixpoint skipWord (s : string) : string :=
  match s with
  | String c s' => if isSpace c then s else skipWord s'
  | "" => ""
  end.

(** The name of the stage a line is the header of. *)
Definition stageName (line : string) : option string :=
  rest ← afterKeyword "FROM" (skipSpace line);
  name ← afterKeyword "AS" (skipSpace (skipWord (skipSpace rest)));
  Some (skipSpace name).

(** The bounds of the headers of the stage the pattern [re] is made for:
    from the line feed before the line to the one after it. *)
Fixpoint stageHeaders (re : string) (offset total : nat) (lines : list string)
  : list (nat * nat) :=
  match lines with
  | [] => []
  | line :: rest =>
      let next := (offset + String.length line + 1)%nat in
      match stageName line with
      | Some name =>
          if decide (re = DockerfileTargetRegex name)
          then (Nat.pred offset, next `min` total) :: stageHeaders re next total rest
          else stageHeaders re next total rest
      | None => stageHeaders re next total rest
      end
  end.

#[export] Instance library : Library := {|
  FileSystem := disk;
  Regexp := string;
  ioutil_ReadFile path fs :=
    match Scenario.assoc path (files fs) with
    | Some data => Return data
    | None => Fail ("open " ++ path ++ ": no such file or directory")
    end;
  ioutil_TempDir dir prefix fs :=
    match fresh fs with
    | name :: rest => (Return ("/tmp/" ++ prefix ++ name), {| files := files fs; fresh := rest |})
    | [] => (Fail "mkdir /tmp: no space left on device", fs)
    end;
  ioutil_WriteFile path data fs :=
    (Return tt, {| files := (path, data) :: files fs; fresh := fresh fs |});
  filepath_Join a b := a ++ "/" ++ b;
  regexp_Compile pattern := Return pattern;
  Regexp_FindAllStringIndex re s := stageHeaders re 0 (String.length s) (splitLines "" s);
  json_Unmarshal := unmarshal;
  bufio_Scan s := (splitLines "" s, None);
  restart_ScriptPath := "/.devspace/restart-helper"
|}.

(** A Dockerfile with the stages [build] and [run]. *)
Definition twoStages : string :=
  "FROM golang:1.17 AS build" ++ newline ++
  "CMD go test" ++ newline ++
  "ENTRYPOINT go run main.go" ++ newline ++
  "FROM alpine AS run" ++ newline ++
  "CMD [" ++ quote ++ "/app" ++ quote ++ "," ++ quote ++ "--serve" ++ quote ++ "]".

Definition home : disk :=
  {| files := [("./Dockerfile", twoStages)]; fresh := ["1"; "2"] |}.
End Workstation.

(** ** Package update: the command that updates a plugin
    (the first part of src/unnamed/part_001)

    The plugin manager and the hooks are the fields of a class and work on
    a host they may change.  The calls the command makes, those to the
    logger included, are kept in a trace in the order they are made. *)
Module update.

(** An error: the one the type assertion to the NewestVersionError of the
    plugin package tells apart, with the text of its [Error()], and any
    other. *)
Inductive failure : Type :=
| NewestVersionError (text : string)
| otherError (text : string).

Class Plugins : Type := {
  Host : Type;
  Metadata : Type;
  (* [pluginManager.GetByName(name)]: an error, or the plugin of that
      name, nil when there is none (the path is not used) *)
  Manager_GetByName : string → Host → (failure + option Metadata) * Host;
  (* [pluginManager.Update(name, version)]: an error, or a pointer to the
      updated plugin *)
  Manager_Update : string → string → Host → (failure + option Metadata) * Host;
  plugin_ExecutePluginHookAt : Metadata → string → Host → option failure * Host
}.

Section update.
Context `{Plugins}.

Inductive event : Type :=
| EvGetByName (name : string)
| EvExecutePluginHookAt (plugin : Metadata) (hook : string)
| EvStartWait (message : string)
| EvStopWait
| EvUpdate (name version : string)
| EvInfo (message : string)
| EvDonef (message : string).

(** What the command comes back with: the error it returns (nil for
    none), or a run-time panic. *)
Inductive result : Type :=
| Returned (err : option failure)
| Panicked.

(** part_001:49-72: the command from [pluginManager.Update] on, where the
    deferred [StopWait] is pending. *)
Definition updating (Version name : string) (h : Host) : result * Host * list event :=
  match Manager_Update name Version h with
  | (inl (NewestVersionError text), h) =>
      (Returned None, h, [EvUpdate name Version; EvInfo text])
  | (inl err, h) => (Returned (Some err), h, [EvUpdate name Version])
  | (inr updatedPlugin, h) =>
      let done := [EvUpdate name Version; EvStopWait;
                   EvDonef ("Successfully updated plugin " ++ name)] in
      (* Execute plugin hook *)
      match updatedPlugin with
      | None => (Panicked, h, done)
      | Some updated =>
          let '(err, h) := plugin_ExecutePluginHookAt updated "after_update" h in
          (Returned err, h, (done ++ [EvExecutePluginHookAt updated "after_update"])%list)
      end
  end.

(** part_001:38-73; [Version] is [cmd.Version]. *)
Definition Run (Version : string) (args : list string) (h : Host)
  : result * Host * list event :=
  match args !! 0%nat with
  | None => (Panicked, h, [])
  | Some name =>
      match Manager_GetByName name h with
      | (inl err, h) => (Returned (Some err), h, [EvGetByName name])
      | (inr oldPlugin, h) =>
          let '(err, h, hooked) :=
            match oldPlugin with
            | Some old =>
                (* Execute plugin hook *)
                let '(err, h) := plugin_ExecutePluginHookAt old "before_update" h in
                (err, h, [EvExecutePluginHookAt old "before_update"])
            | None => (None, h, [])
            end in
          match err with
          | Some err => (Returned (Some err), h, EvGetByName name :: hooked)
          | None =>
              let '(res, h, events) := updating Version name h in
              (res, h,
               (EvGetByName name :: hooked ++ [EvStartWait ("Updating plugin " ++ name)]
                  ++ events ++ [EvStopWait])%list)
          end
      end
  end.
End update.

(** Plugins by their name with their version and the version an update
    gives; a hook of a plugin fails when it is listed as broken. *)
Module Registry.
Record registry : Type := {
  installed : list (string * string);
  latest : list (string * string);
  broken : list (string * string)
}.

#[export] Instance plugins : Plugins := {|
  Host := registry;
  Metadata := string * string;
  Manager_GetByName name h :=
    (inr ((λ version, (name, version)) <$> Scenario.assoc name (installed h)), h);
  Manager_Update name version h :=
    match Scenario.assoc name (installed h), Scenario.assoc name (latest h) with
    | Some current, Some newest =>
        if decide (current = newest)
        then (inl (NewestVersionError ("no update for plugin found")), h)
        else (inr (Some (name, newest)),
              {| installed := (name, newest) :: installed h;
                 latest := latest h; broken := broken h |})
    | _, _ => (inl (otherError ("couldn't find plugin " ++ name)), h)
    end;
  plugin_ExecutePluginHookAt plugin hook h :=
    (if decide ((plugin.1, hook) ∈ broken h)
     then Some (otherError ("hook " ++ hook ++ " failed"))
     else None, h)
|}.

Definition outdated : registry :=
  {| installed := [("kubectl", "v1")]; latest := [("kubectl", "v2")]; broken := [] |}.

Definition current : registry :=
  {| installed := [("kubectl", "v2")]; latest := [("kubectl", "v2")]; broken := [] |}.

End Registry.
End update.

(** ** Package services: opening a terminal
    (pkg/devspace/services/terminal.go)

    The target selector, the cluster client and the exec stream are the
    fields of a class and work on the cluster, which they may change.  The
    exec stream runs in a goroutine of its own while [StartTerminal] waits
    for its end or for an interrupt; what the [select] receives is given by
    the class as well.  Writers, readers and the logger are left out. *)
Module services.

(** latest.Terminal, where [serviceClient.config.Config().Dev.Terminal]
    points when none of the three is nil. *)
Record Terminal : Type := { Command : list string; WorkDir : string }.

(** [serviceClient.config] is nil ([None]), or has a [Config()] that is
    nil ([Some None]), or one whose [Dev.Terminal] may be nil. *)
Record client : Type := { config : option (option (option Terminal)) }.

Definition terminalOf (serviceClient : client) : option Terminal :=
  match config serviceClient with
  | Some (Some (Some terminal)) => Some terminal
  | _ => None
  end.

(** The errors [StartTerminal] tells apart by their type, and any other. *)
Inductive error : Type :=
| InterruptError
| CodeExitError (Code : Z)
| otherError (text : string).

(** What the [select] receives: an error (or nil) from the interrupt
    channel, after which the upgrader is closed and the end of the stream
    is awaited, or what the exec stream has ended with; [nothing] when
    neither comes. *)
Inductive received : Type :=
| interrupted (err : option error)
| finished (err : option error)
| nothing.

Class Cluster : Type := {
  Pods : Type;
  Container : Type;
  Transport : Type;
  Filter : Type;
  Waiting : Type;
  OtherOptions : Type;
  strings_TrimSpace : string → string;
  (* [targetselector.NewUntilNewestRunningWaitingStrategy] for a number
      of seconds *)
  NewUntilNewestRunningWaitingStrategy : nat → Waiting
}.

Section services.
Context `{Cluster}.

(** targetselector.Options: the fields [StartTerminal] sets. *)
Record Options : Type := {
  Wait : option bool;
  FilterPod : option Filter;
  FilterContainer : option Filter;
  WaitingStrategy : option Waiting;
  Question : string;
  Other : OtherOptions
}.

Class Streams : Type := {
  SelectSingleContainer : Options → Pods → (error + Container) * Pods;
  GetUpgraderWrapper : Pods → (error + Transport) * Pods;
  (* The exec stream with a terminal for the command in the container
      over the transport, and the [select] on its end and on the
      interrupt channel *)
  ExecStreamWithTransport :
    Container → list string → Transport → Pods → received * Pods
}.

(** terminal.go:107-141 *)
Definition getCommand (serviceClient : client) (args : list string) (workDir : string)
  : list string :=
  let '(args, workDir) :=
    match terminalOf serviceClient with
    | Some terminal =>
        (if decide (length args = 0%nat) then (args ++ Command terminal)%list else args,
         if decide (workDir = "") then WorkDir terminal else workDir)
    | None => (args, workDir)
    end in
  let workDir := strings_TrimSpace workDir in
  if decide (0 < length args)%nat then
    if decide (workDir ≠ "")
    then ["sh"; "-c"; "cd " ++ workDir ++ "; " ++ helper.Join args " "]
    else args
  else
    let execString := "command -v bash >/dev/null 2>&1 && exec bash || exec sh" in
    let execString :=
      if decide (workDir ≠ "") then "cd " ++ workDir ++ "; " ++ execString
      else execString in
    ["sh"; "-c"; execString].

(** What [StartTerminal] comes back with: the exit code and the error, or
    no result (nothing is received, or the restarts go beyond the
    budget). *)
Inductive ended : Type :=
| Returned (code : Z) (err : option error)
| Unfinished.

Context `{!Streams}.

(** terminal.go:24-105.  [fuel] bounds the number of restarts. *)
Fixpoint StartTerminal (fuel : nat) (serviceClient : client) (options : Options)
    (args : list string) (workDir : string) (wait restart : bool) (pods : Pods)
  : ended * Pods :=
  match fuel with
  | O => (Unfinished, pods)
  | S fuel =>
      let command := getCommand serviceClient args workDir in
      let options :=
        if negb wait
        then {| Wait := Some wait; FilterPod := FilterPod options;
                FilterContainer := FilterContainer options;
                WaitingStrategy := WaitingStrategy options;
                Question := Question options; Other := Other options |}
        else {| Wait := Wait options; FilterPod := None; FilterContainer := None;
                WaitingStrategy := Some (NewUntilNewestRunningWaitingStrategy 2);
                Question := Question options; Other := Other options |} in
      let options :=
        {| Wait := Wait options; FilterPod := FilterPod options;
           FilterContainer := FilterContainer options;
           WaitingStrategy := WaitingStrategy options;
           Question := "Which pod do you want to open the terminal for?";
           Other := Other options |} in
      match SelectSingleContainer options pods with
      | (inl err, pods) => (Returned 0 (Some err), pods)
      | (inr container, pods) =>
          match GetUpgraderWrapper pods with
          | (inl err, pods) => (Returned 0 (Some err), pods)
          | (inr transport, pods) =>
              (* wait until either client has finished or we got interrupted *)
              match ExecStreamWithTransport container command transport pods with
              | (nothing, pods) => (Unfinished, pods)
              | (interrupted err, pods) => (Returned 0 err, pods)
              | (finished None, pods) => (Returned 0 None, pods)
              | (finished (Some InterruptError), pods) =>
                  (Returned 0 (Some InterruptError), pods)
              | (finished (Some (CodeExitError Code)), pods) =>
                  if restart && negb (Code =? 0)%Z
                  then StartTerminal fuel serviceClient options args workDir
                         wait restart pods
                  else (Returned Code None, pods)
              | (finished (Some err), pods) =>
                  if restart
                  then StartTerminal fuel serviceClient options args workDir
                         wait restart pods
                  else (Returned 0 (Some err), pods)
              end
          end
      end
  end.
End services.

(** A cluster for the statements on concrete sessions: the pods hold the
    exit codes of the sessions to come. *)
Module Sessions.
#[export] Instance cluster : Cluster := {|
  Pods := list Z;
  Container := string;
  Transport := unit;
  Filter := unit;
  Waiting := nat;
  OtherOptions := unit;
  strings_TrimSpace s :=
    String.rev (helper.skipSpace (String.rev (helper.skipSpace s)));
  NewUntilNewestRunningWaitingStrategy seconds := seconds
|}.

#[export] Instance streams : Streams := {|
  SelectSingleContainer options pods := (inr "app", pods);
  GetUpgraderWrapper pods := (inr tt, pods);
  ExecStreamWithTransport container command transport pods :=
    match pods with
    | [] => (interrupted None, [])
    | code :: rest =>
        (finished (if decide (code = 0%Z) then None else Some (CodeExitError code)), rest)
    end
|}.

Definition ask : Options :=
  {| Wait := None; FilterPod := None; FilterContainer := None; WaitingStrategy := None;
     Question := ""; Other := tt |}.

Definition configured : client :=
  {| config := Some (Some (Some {| Command := ["npm"; "start"]; WorkDir := " /app " |})) |}.
End Sessions.
End services.

(** * Proofs *)

Open Scope list_scope.

(** ** Facts about relations *)

Section Relations.
Context {A : Type} (R R' : relation A).

Lemma tc_subrel a b : (∀ x y, R x y → R' x y) → tc R a b → tc R' a b.
Proof.
  intros Hsub Hab.
  induction Hab as [x y Hxy | x y z Hxy Hyz IH];
    [apply tc_once; auto | eapply tc_l; eauto].
Qed.

(** Adding the edge [(p, n)] towards a node without successors: every new
    path either is an old one or ends in [n]. *)
Lemma tc_extend_leaf (p n : A) :
  (∀ x y, R' x y → R x y ∨ (x = p ∧ y = n)) →
  (∀ y, ¬ R' n y) →
  ∀ a b, tc R' a b → tc R a b ∨ b = n.
Proof.
  intros Hstep Hleaf a b Hab.
  induction Hab as [a b Hab | a c b Hac Hcb IH].
  - destruct (Hstep _ _ Hab) as [? | [_ ->]]; [left; by apply tc_once | by right].
  - destruct IH as [IH | ->]; [| by right].
    destruct (Hstep _ _ Hac) as [? | [_ ->]].
    + left. by eapply tc_l.
    + apply tc_rtc in Hcb. apply rtc_inv in Hcb as [<- | (y & Hy & _)].
      * by right.
      * by destruct (Hleaf y).
Qed.

(** Adding the edge [(p, q)]: a new path to [p] gives an old path to [p],
    from where it starts or from [q]. *)
Lemma rtc_extend_to (p q : A) :
  (∀ x y, R' x y → R x y ∨ (x = p ∧ y = q)) →
  ∀ a, rtc R' a p → rtc R a p ∨ rtc R q p.
Proof.
  intros Hstep a Hap. revert a Hap.
  apply (rtc_ind_l (λ a, rtc R a p ∨ rtc R q p)); [by left |].
  intros a b Hab Hbc IH.
  destruct IH as [IH | IH]; [| by right].
  destruct (Hstep _ _ Hab) as [? | [_ ->]]; [left; by eapply rtc_l | by right].
Qed.

Lemma tc_extend_edge (p q : A) :
  (∀ x y, R' x y → R x y ∨ (x = p ∧ y = q)) →
  ∀ a b, tc R' a b → tc R a b ∨ (rtc R' a p ∧ rtc R' q b).
Proof.
  intros Hstep a b Hab.
  induction Hab as [a b Hab | a c b Hac Hcb IH].
  - destruct (Hstep _ _ Hab) as [? | [-> ->]]; [left; by apply tc_once | by right].
  - destruct (Hstep _ _ Hac) as [? | [-> ->]].
    + destruct IH as [IH | [IH1 IH2]].
      * left. by eapply tc_l.
      * right. split; [| done]. by eapply rtc_l.
    + right. split; [done |]. by apply tc_rtc.
Qed.

(** An edge that closes no cycle keeps the relation acyclic. *)
Lemma acyclic_extend_edge (p q : A) :
  (∀ x y, R' x y → R x y ∨ (x = p ∧ y = q)) →
  (∀ x y, R x y → R' x y) →
  (∀ a, ¬ tc R a a) →
  ¬ rtc R q p →
  ∀ a, ¬ tc R' a a.
Proof.
  intros Hstep Hinc Hacyc Hqp a Haa.
  destruct (tc_extend_edge p q Hstep a a Haa) as [? | [Hap Hqa]]; [by eapply Hacyc |].
  assert (rtc R' q p) as Hqp' by (by etrans).
  destruct (rtc_extend_to p q Hstep q Hqp'); done.
Qed.
End Relations.

(** ** Facts about the graph store *)

Section GraphFacts.
Context {D : Type}.
Implicit Types (g : graph D) (n : node D) (a b c id : string).

Lemma elem_of_addChild c n b :
  b ∈ Childs (addChild c n) ↔ b ∈ Childs n ∨ b = c.
Proof.
  unfold addChild; simpl. case_decide.
  - split; [by left | intros [? | ->]; done].
  - rewrite elem_of_app, list_elem_of_singleton. done.
Qed.

Lemma elem_of_dropChild c n b :
  b ∈ Childs (dropChild c n) ↔ b ∈ Childs n ∧ b ≠ c.
Proof. unfold dropChild; simpl. rewrite list_elem_of_filter. tauto. Qed.

Lemma firstSome_Some {A B : Type} (f : A → option B) (l : list A) (y : B) :
  firstSome f l = Some y → ∃ x, x ∈ l ∧ f x = Some y.
Proof.
  induction l as [| x l IH]; simpl; [done |].
  destruct (f x) as [y' |] eqn:Hx.
  - intros [= <-]. exists x. split; [left | done].
  - intros (x' & ? & ?)%IH. exists x'. split; [by right | done].
Qed.

(** *** Leaves *)

Lemma liveChilds_nil_closed g a n :
  (∀ a b, edge g a b → present g b) →
  Nodes g !! a = Some n → liveChilds g n = [] → Childs n = [].
Proof.
  intros Hclosed Ha Hlive.
  destruct (Childs n) as [| c cs] eqn:Hcs; [done | exfalso].
  assert (c ∈ liveChilds g n) as Hc.
  { unfold liveChilds. apply list_elem_of_filter. split.
    - apply (Hclosed a c). exists n. rewrite Hcs. split; [done | left].
    - rewrite Hcs. left. }
  rewrite Hlive in Hc. by apply not_elem_of_nil in Hc.
Qed.

Lemma liveChilds_nil_no_edge g a n :
  (∀ a b, edge g a b → present g b) →
  Nodes g !! a = Some n → liveChilds g n = [] → ∀ b, ¬ edge g a b.
Proof.
  intros Hclosed Ha Hlive b (n' & Hn' & Hb).
  assert (n' = n) as -> by congruence.
  rewrite (liveChilds_nil_closed g a n) in Hb by done.
  by apply not_elem_of_nil in Hb.
Qed.

(** *** newGraph *)

Lemma newGraph_wf id : wf_graph (newGraph (D := D) id (newNode None)).
Proof.
  assert (∀ a b, ¬ edge (newGraph (D := D) id (newNode None)) a b) as Hnone.
  { intros a b (n & Hn & Hb). unfold newGraph in Hn. simpl in Hn.
    apply lookup_singleton_Some in Hn as [_ <-]. by apply not_elem_of_nil in Hb. }
  split.
  - simpl. unfold present. simpl. rewrite lookup_singleton_eq. by eexists.
  - intros a b Hab. by destruct (Hnone a b).
  - intros a Haa. inversion Haa as [?? Hab | ? b' ? Hab ?]; by eapply Hnone.
  - intros a [n Hn]. simpl in *.
    apply lookup_singleton_Some in Hn as [<- _]. done.
  - intros a [n Hn] Hne. simpl in *.
    by apply lookup_singleton_Some in Hn as [<- _].
Qed.

(** *** insertNodeAt *)

Lemma insertNodeAt_Ok g parentId newId d g' :
  insertNodeAt g parentId newId d = Ok g' →
  ∃ p, Nodes g !! parentId = Some p ∧ Nodes g !! newId = None ∧
       g' = {| Nodes := <[newId := newNode (Some d)]>
                          (<[parentId := addChild newId p]> (Nodes g));
               Root := Root g |}.
Proof.
  unfold insertNodeAt. intros Hg'.
  destruct (Nodes g !! parentId) as [p |]; [| done].
  destruct (Nodes g !! newId); [done |].
  injection Hg' as <-. by exists p.
Qed.

Lemma insertNodeAt_present g parentId newId d g' a :
  insertNodeAt g parentId newId d = Ok g' →
  present g' a ↔ present g a ∨ a = newId.
Proof.
  intros (p & Hp & Hnew & ->)%insertNodeAt_Ok. unfold present; simpl.
  destruct (decide (a = newId)) as [-> | Hnea].
  - rewrite lookup_insert_eq. split; [by right | done].
  - rewrite lookup_insert_ne by done.
    destruct (decide (a = parentId)) as [-> | Hnep].
    + rewrite lookup_insert_eq, Hp. split; [left | ]; done.
    + rewrite lookup_insert_ne by done. split; [by left | by intros [? | ?]].
Qed.

Lemma insertNodeAt_edge g parentId newId d g' a b :
  insertNodeAt g parentId newId d = Ok g' →
  edge g' a b ↔ edge g a b ∨ (a = parentId ∧ b = newId).
Proof.
  intros (p & Hp & Hnew & ->)%insertNodeAt_Ok. unfold edge; simpl.
  assert (parentId ≠ newId) by congruence.
  destruct (decide (a = newId)) as [-> | Hnea].
  { rewrite lookup_insert_eq. split.
    - intros (n & [= <-] & Hb). by apply not_elem_of_nil in Hb.
    - intros [(n & ? & _) | [? _]]; congruence. }
  rewrite lookup_insert_ne by done.
  destruct (decide (a = parentId)) as [-> | Hnep].
  - rewrite lookup_insert_eq. split.
    + intros (n & [= <-] & [Hb | ->]%elem_of_addChild); [left | by right].
      by exists p.
    + intros [(n & Hn & Hb) | [_ ->]].
      * exists (addChild newId p). split; [done |].
        apply elem_of_addChild. left. congruence.
      * exists (addChild newId p). split; [done |].
        apply elem_of_addChild. by right.
  - rewrite lookup_insert_ne by done. split; [by left |].
    by intros [? | [? _]].
Qed.

Lemma insertNodeAt_payload g parentId newId d g' a :
  insertNodeAt g parentId newId d = Ok g' →
  payload g' a = if decide (a = newId) then Some d else payload g a.
Proof.
  intros (p & Hp & Hnew & ->)%insertNodeAt_Ok. unfold payload; simpl.
  case_decide as Ha; [subst; by rewrite lookup_insert_eq |].
  rewrite lookup_insert_ne by done.
  destruct (decide (a = parentId)) as [-> | Hnep].
  - by rewrite lookup_insert_eq, Hp.
  - by rewrite lookup_insert_ne.
Qed.

Lemma insertNodeAt_Root g parentId newId d g' :
  insertNodeAt g parentId newId d = Ok g' → Root g' = Root g.
Proof. by intros (p & Hp & Hnew & ->)%insertNodeAt_Ok. Qed.

Lemma insertNodeAt_wf g parentId newId d g' :
  wf_graph g → insertNodeAt g parentId newId d = Ok g' → wf_graph g'.
Proof.
  intros [Hroot Hclosed Hacyc Hconn Hpay] Hins.
  pose proof (insertNodeAt_Root _ _ _ _ _ Hins) as HR.
  pose proof (insertNodeAt_Ok _ _ _ _ _ Hins) as (p & Hp & Hnew & _).
  assert (∀ y, ¬ edge g' newId y) as Hleaf.
  { intros y [(n & ? & _) | [-> _]]%(insertNodeAt_edge _ _ _ _ _ _ _ Hins); congruence. }
  split.
  - rewrite HR. apply (insertNodeAt_present _ _ _ _ _ _ Hins). by left.
  - intros a b [Hab | [-> ->]]%(insertNodeAt_edge _ _ _ _ _ _ _ Hins);
      apply (insertNodeAt_present _ _ _ _ _ _ Hins); [left; eauto | by right].
  - intros a Haa.
    assert (tc (edge g) a a ∨ a = newId) as [? | ->].
    { apply (tc_extend_leaf (edge g) (edge g') parentId newId); [| done | done].
      intros x y. by rewrite (insertNodeAt_edge _ _ _ _ _ _ _ Hins). }
    + by eapply Hacyc.
    + inversion Haa as [?? Hy | ??? Hy]; by eapply Hleaf.
  - intros a [Ha | ->]%(insertNodeAt_present _ _ _ _ _ _ Hins); rewrite HR.
    + eapply rtc_subrel; [| by apply Hconn].
      intros x y ?. apply (insertNodeAt_edge _ _ _ _ _ _ _ Hins). by left.
    + eapply rtc_r.
      * eapply rtc_subrel; [| apply (Hconn parentId); by eexists].
        intros x y ?. apply (insertNodeAt_edge _ _ _ _ _ _ _ Hins). by left.
      * apply (insertNodeAt_edge _ _ _ _ _ _ _ Hins). by right.
  - intros a Ha Hne. rewrite (insertNodeAt_payload _ _ _ _ _ _ Hins).
    case_decide; [done |]. rewrite HR in Hne.
    apply (insertNodeAt_present _ _ _ _ _ _ Hins) in Ha as [Ha | ?]; [| done].
    by apply Hpay.
Qed.

(** *** The cycle guard *)

(** A set of nodes that all reach [a] cannot fill an acyclic graph. *)
Lemma seen_not_full g a (seen : gset string) :
  (∀ x, ¬ tc (edge g) x x) →
  present g a →
  (∀ s, s ∈ seen → tc (edge g) s a) →
  seen ⊆ dom (Nodes g) →
  (size seen < size (Nodes g))%nat.
Proof.
  intros Hacyc Ha Hseen Hsub.
  assert (a ∉ seen) as Hnotin by (intros ?%Hseen; by eapply Hacyc).
  assert ({[a]} ∪ seen ⊆ dom (Nodes g)) as Hsub'.
  { apply union_subseteq. split; [| done].
    apply singleton_subseteq_l. by apply elem_of_dom. }
  apply subseteq_size in Hsub'.
  rewrite size_union in Hsub' by set_solver.
  rewrite size_singleton, size_dom in Hsub'. lia.
Qed.

Lemma findPath_complete g :
  (∀ a b, edge g a b → present g b) →
  (∀ x, ¬ tc (edge g) x x) →
  ∀ fuel a b (seen : gset string),
    present g a →
    (∀ s, s ∈ seen → tc (edge g) s a) →
    seen ⊆ dom (Nodes g) →
    (size (Nodes g) ≤ size seen + fuel)%nat →
    rtc (edge g) a b →
    findPath fuel g a b = true.
Proof.
  intros Hclosed Hacyc fuel.
  induction fuel as [| fuel IH]; intros a b seen Ha Hseen Hsub Hsize Hab.
  - pose proof (seen_not_full g a seen Hacyc Ha Hseen Hsub). lia.
  - simpl. apply rtc_inv in Hab as [-> | (c & Hac & Hcb)].
    { by rewrite bool_decide_eq_true_2. }
    apply orb_true_intro. right.
    pose proof Hac as (n & Hn & Hc). rewrite Hn.
    apply existsb_exists. exists c. split; [by apply list_elem_of_In |].
    apply (IH c b ({[a]} ∪ seen)).
    + by eapply Hclosed.
    + intros s [->%elem_of_singleton | Hs%Hseen]%elem_of_union.
      * by apply tc_once.
      * by eapply tc_r.
    + apply union_subseteq. split; [| done].
      apply singleton_subseteq_l. by apply elem_of_dom.
    + pose proof (seen_not_full g a seen Hacyc Ha Hseen Hsub).
      assert (a ∉ seen) by (intros ?%Hseen; by eapply Hacyc).
      rewrite size_union by set_solver. rewrite size_singleton. lia.
    + done.
Qed.

(** *** addEdge *)

Lemma addEdge_Ok g fromId toId g' :
  addEdge g fromId toId = Ok g' →
  ∃ f, Nodes g !! fromId = Some f ∧ present g toId ∧
       findPath (size (Nodes g)) g toId fromId = false ∧
       g' = {| Nodes := <[fromId := addChild toId f]> (Nodes g); Root := Root g |}.
Proof.
  unfold addEdge, present. intros Hg'.
  destruct (Nodes g !! fromId) as [f |]; [| done].
  destruct (Nodes g !! toId); [| done].
  destruct (findPath _ _ _ _) eqn:Hpath; [done |].
  injection Hg' as <-. by exists f.
Qed.

(** addEdge fails with the cycle error or with a not-found error. *)
Lemma addEdge_Err g fromId toId e :
  addEdge g fromId toId = Err e →
  (e = cyclicError fromId toId ∧ present g fromId ∧ present g toId) ∨
  (is_cyclicError e = false ∧ ¬ (present g fromId ∧ present g toId)).
Proof.
  unfold addEdge, present. intros He.
  destruct (Nodes g !! fromId) as [f |].
  - destruct (Nodes g !! toId).
    + destruct (findPath _ _ _ _); [| done].
      injection He as <-. left. eauto.
    + injection He as <-. right. split; [done |]. by intros [_ [??]].
  - injection He as <-. right. split; [done |]. by intros [[??] _].
Qed.

Lemma addEdge_total g fromId toId :
  (∃ g', addEdge g fromId toId = Ok g') ∨ (∃ e, addEdge g fromId toId = Err e).
Proof.
  unfold addEdge.
  destruct (Nodes g !! fromId); [| eauto].
  destruct (Nodes g !! toId); [| eauto].
  destruct (findPath _ _ _ _); eauto.
Qed.

Lemma addEdge_present g fromId toId g' a :
  addEdge g fromId toId = Ok g' → present g' a ↔ present g a.
Proof.
  intros (f & Hf & Hto & _ & ->)%addEdge_Ok. unfold present; simpl.
  destruct (decide (a = fromId)) as [-> | Hne].
  - rewrite lookup_insert_eq, Hf. done.
  - by rewrite lookup_insert_ne.
Qed.

Lemma addEdge_edge g fromId toId g' a b :
  addEdge g fromId toId = Ok g' →
  edge g' a b ↔ edge g a b ∨ (a = fromId ∧ b = toId).
Proof.
  intros (f & Hf & Hto & _ & ->)%addEdge_Ok. unfold edge; simpl.
  destruct (decide (a = fromId)) as [-> | Hne].
  - rewrite lookup_insert_eq. split.
    + intros (n & [= <-] & [Hb | ->]%elem_of_addChild); [left | by right].
      by exists f.
    + intros [(n & Hn & Hb) | [_ ->]]; exists (addChild toId f);
        (split; [done |]); apply elem_of_addChild; [left; congruence | by right].
  - rewrite lookup_insert_ne by done. split; [by left |].
    by intros [? | [? _]].
Qed.

Lemma addEdge_payload g fromId toId g' a :
  addEdge g fromId toId = Ok g' → payload g' a = payload g a.
Proof.
  intros (f & Hf & Hto & _ & ->)%addEdge_Ok. unfold payload; simpl.
  destruct (decide (a = fromId)) as [-> | Hne].
  - by rewrite lookup_insert_eq, Hf.
  - by rewrite lookup_insert_ne.
Qed.

Lemma addEdge_Root g fromId toId g' :
  addEdge g fromId toId = Ok g' → Root g' = Root g.
Proof. by intros (f & Hf & Hto & _ & ->)%addEdge_Ok. Qed.

Lemma addEdge_wf g fromId toId g' :
  wf_graph g → addEdge g fromId toId = Ok g' → wf_graph g'.
Proof.
  intros [Hroot Hclosed Hacyc Hconn Hpay] Hadd.
  pose proof (addEdge_Root _ _ _ _ Hadd) as HR.
  pose proof (addEdge_Ok _ _ _ _ Hadd) as (f & Hf & Hto & Hpath & _).
  assert (∀ x y, edge g x y → edge g' x y) as Hinc.
  { intros x y ?. apply (addEdge_edge _ _ _ _ _ _ Hadd). by left. }
  split.
  - rewrite HR. by apply (addEdge_present _ _ _ _ _ Hadd).
  - intros a b [Hab | [-> ->]]%(addEdge_edge _ _ _ _ _ _ Hadd);
      apply (addEdge_present _ _ _ _ _ Hadd); eauto.
  - apply (acyclic_extend_edge (edge g) (edge g') fromId toId); [| done | done |].
    + intros x y. by rewrite (addEdge_edge _ _ _ _ _ _ Hadd).
    + intros Hreach.
      rewrite (findPath_complete g Hclosed Hacyc _ toId fromId ∅) in Hpath;
        [done | done | set_solver | set_solver | | done].
      rewrite size_empty. lia.
  - intros a Ha%(addEdge_present _ _ _ _ _ Hadd). rewrite HR.
    eapply rtc_subrel; [done | by apply Hconn].
  - intros a Ha%(addEdge_present _ _ _ _ _ Hadd) Hne.
    rewrite (addEdge_payload _ _ _ _ _ Hadd). apply Hpay; [done | by rewrite <- HR].
Qed.

(** *** removeNode *)

Lemma removeNode_leaf g id n :
  id ≠ Root g → Nodes g !! id = Some n → liveChilds g n = [] →
  removeNode g id = Ok (without id g).
Proof.
  intros Hne Hn Hlive. unfold removeNode.
  rewrite decide_False by done. by rewrite Hn, Hlive.
Qed.

Section removed.
Context (g : graph D) (id : string).

Lemma removed_present a : present (without id g) a ↔ present g a ∧ a ≠ id.
Proof.
  unfold present; simpl. rewrite lookup_fmap, fmap_is_Some.
  destruct (decide (a = id)) as [-> | Hne].
  - rewrite lookup_delete_eq. split; [by intros [??] | by intros [_ ?]].
  - rewrite lookup_delete_ne by done. tauto.
Qed.

Lemma removed_edge a b : edge (without id g) a b ↔ edge g a b ∧ a ≠ id ∧ b ≠ id.
Proof.
  unfold edge; simpl. rewrite lookup_fmap.
  destruct (decide (a = id)) as [-> | Hne].
  - rewrite lookup_delete_eq. simpl. split; [by intros (? & ? & _) | by intros (_ & ? & _)].
  - rewrite lookup_delete_ne by done. split.
    + intros (n' & Hn' & Hb).
      destruct (Nodes g !! a) as [n |]; [| done]. injection Hn' as <-.
      apply elem_of_dropChild in Hb as [??]. eauto.
    + intros ((n & Hn & Hb) & _ & ?). rewrite Hn. simpl.
      eexists. split; [done |]. by apply elem_of_dropChild.
Qed.

Lemma removed_payload a : a ≠ id → payload (without id g) a = payload g a.
Proof.
  intros Hne. unfold payload; simpl.
  rewrite lookup_fmap, lookup_delete_ne by done.
  by destruct (Nodes g !! a).
Qed.

Lemma removed_size : present g id → S (size (Nodes (without id g))) = size (Nodes g).
Proof.
  intros [n Hn]. simpl. rewrite map_size_fmap.
  rewrite <- (insert_delete_id (Nodes g) id n) at 2 by done.
  by rewrite map_size_insert_None by apply lookup_delete_eq.
Qed.

Lemma removed_wf :
  wf_graph g → id ≠ Root g → (∀ b, ¬ edge g id b) → wf_graph (without id g).
Proof.
  intros [Hroot Hclosed Hacyc Hconn Hpay] Hne Hleaf.
  assert (∀ x y, edge (without id g) x y → edge g x y) as Hsub
    by (by intros x y [? _]%removed_edge).
  split.
  - apply removed_present. split; [done | simpl; congruence].
  - intros a b Hab. pose proof Hab as (Hab' & _ & ?)%removed_edge.
    apply removed_present. split; [by eapply Hclosed | done].
  - intros a Haa. apply (Hacyc a). by eapply tc_subrel.
  - intros a [Ha Hnea]%removed_present. simpl.
    specialize (Hconn a Ha). clear Ha. revert a Hconn Hnea.
    apply (rtc_ind_r (λ a, a ≠ id → rtc (edge (without id g)) (Root g) a)); [done |].
    intros y z Hy Hyz IH Hz. eapply rtc_r.
    + apply IH. intros ->. by eapply Hleaf.
    + apply removed_edge. split_and!; [done | | done].
      intros ->. by eapply Hleaf.
  - intros a [Ha Hnea]%removed_present Hr.
    rewrite removed_payload by done. by apply Hpay.
Qed.
End removed.

(** *** getNextLeaf *)

Lemma wf_no_edge_to_root g x : wf_graph g → ¬ edge g x (Root g).
Proof.
  intros [Hroot Hclosed Hacyc Hconn Hpay] Hx.
  apply (Hacyc (Root g)). eapply tc_rtc_l; [| by apply tc_once].
  apply Hconn. destruct Hx as (n & ? & _). by exists n.
Qed.

Lemma firstLeaf_sound g fuel a l :
  firstLeaf fuel g a = Some l →
  l ≠ Root g ∧ ∃ n, Nodes g !! l = Some n ∧ liveChilds g n = [].
Proof.
  revert a. induction fuel as [| fuel IH]; intros a; simpl; [done |].
  destruct (Nodes g !! a) as [n |] eqn:Hn; [| done].
  destruct (liveChilds g n) as [| c cs] eqn:Hlive.
  - case_decide; [done |]. intros [= <-]. eauto.
  - intros Hfs. change (firstSome (firstLeaf fuel g) (c :: cs) = Some l) in Hfs.
    apply firstSome_Some in Hfs as (x & _ & Hx). by eapply IH.
Qed.

Lemma firstLeaf_complete g :
  (∀ a b, edge g a b → present g b) →
  (∀ x, ¬ tc (edge g) x x) →
  (∀ x, ¬ edge g x (Root g)) →
  ∀ fuel a (seen : gset string),
    present g a →
    (∀ s, s ∈ seen → tc (edge g) s a) →
    seen ⊆ dom (Nodes g) →
    (size (Nodes g) ≤ size seen + fuel)%nat →
    (a = Root g → ∃ b, edge g a b) →
    is_Some (firstLeaf fuel g a).
Proof.
  intros Hclosed Hacyc Hroot fuel.
  induction fuel as [| fuel IH]; intros a seen Ha Hseen Hsub Hsize Hedge.
  - pose proof (seen_not_full g a seen Hacyc Ha Hseen Hsub). lia.
  - simpl. destruct Ha as [n Hn]. rewrite Hn.
    destruct (liveChilds g n) as [| c cs] eqn:Hlive.
    + case_decide as Har; [| done].
      destruct (Hedge Har) as [b Hb].
      by destruct (liveChilds_nil_no_edge g a n Hclosed Hn Hlive b).
    + assert (c ∈ liveChilds g n) as [Hc Hin]%list_elem_of_filter
        by (rewrite Hlive; left).
      assert (edge g a c) as Hac by (by exists n).
      destruct (IH c ({[a]} ∪ seen)) as [l Hl]; [done | | | |  | ].
      * intros s [->%elem_of_singleton | Hs%Hseen]%elem_of_union.
        -- by apply tc_once.
        -- by eapply tc_r.
      * apply union_subseteq. split; [| done].
        apply singleton_subseteq_l. apply elem_of_dom. by exists n.
      * assert (a ∉ seen) by (intros ?%Hseen; by eapply Hacyc).
        rewrite size_union by set_solver. rewrite size_singleton. lia.
      * intros ->. by destruct (Hroot a).
      * simpl. rewrite Hl. done.
Qed.

(** In a well-formed graph, [getNextLeaf] from the root yields the root
    exactly when the root has no children left, and a current leaf
    otherwise. *)
Lemma getNextLeaf_spec g :
  wf_graph g →
  (getNextLeaf g (Root g) = Root g ∧ ∀ b, ¬ edge g (Root g) b) ∨
  (getNextLeaf g (Root g) ≠ Root g ∧
   ∃ n, Nodes g !! getNextLeaf g (Root g) = Some n ∧ liveChilds g n = []).
Proof.
  intros Hwf. pose proof Hwf as [Hroot Hclosed Hacyc Hconn Hpay].
  destruct Hroot as [r Hr]. unfold getNextLeaf.
  destruct (Childs r) as [| c cs] eqn:Hcs.
  - left. split.
    + assert (size (Nodes g) ≠ 0) as Hsize.
      { intros Hz%map_size_empty_inv. by rewrite Hz in Hr. }
      destruct (size (Nodes g)) as [| k]; [done |]. simpl. rewrite Hr.
      unfold liveChilds. rewrite Hcs. simpl. by rewrite decide_True.
    + intros b (n & Hn & Hb). assert (n = r) as -> by congruence.
      rewrite Hcs in Hb. by apply not_elem_of_nil in Hb.
  - right.
    destruct (firstLeaf_complete g Hclosed Hacyc (λ x, wf_no_edge_to_root g x Hwf)
                (size (Nodes g)) (Root g) ∅) as [l Hl].
    + by exists r.
    + set_solver.
    + set_solver.
    + rewrite size_empty. lia.
    + intros _. exists c, r. split; [done |]. rewrite Hcs. left.
    + rewrite Hl. simpl. by eapply firstLeaf_sound.
Qed.
End GraphFacts.

Section DrainFacts.
Context `{Opaque}.
Implicit Types (g : graph Dependency) (a b c id : string).

Lemma two_present g a b :
  present g a → present g b → a ≠ b → (1 < size (Nodes g))%nat.
Proof.
  intros [na Ha] [nb Hb] Hne.
  rewrite <- (insert_delete_id (Nodes g) a na) by done.
  rewrite map_size_insert_None by apply lookup_delete_eq.
  assert (size (delete a (Nodes g)) ≠ 0); [| lia].
  apply map_size_non_empty_iff. intros Hempty.
  assert (delete a (Nodes g) !! b = Some nb) as Hb'
    by (by rewrite lookup_delete_ne).
  by rewrite Hempty in Hb'.
Qed.

Lemma precedes_cons_head x order y :
  y ∈ order → precedes (x :: order) x y.
Proof.
  intros (j & Hj)%list_elem_of_lookup. exists 0, (S j). split_and!; [done | done | lia].
Qed.

Lemma precedes_cons x order a b :
  precedes order a b → precedes (x :: order) a b.
Proof.
  intros (i & j & Hi & Hj & Hij). exists (S i), (S j). split_and!; [done | done | lia].
Qed.

(** The loop of [buildDependencyQueue] empties a well-formed graph: it
    removes every node but the root, each after all of its children. *)
Lemma drain_spec fuel : ∀ g retDependencies,
  wf_graph g →
  (size (Nodes g) ≤ S fuel)%nat →
  ∃ order ds g',
    drain fuel g retDependencies = (Ok (retDependencies ++ ds), g') ∧
    Forall2 (λ id d, payload g id = Some d) order ds ∧
    NoDup order ∧
    (∀ id, id ∈ order ↔ present g id ∧ id ≠ Root g) ∧
    (∀ p c, edge g p c → p ≠ Root g → precedes order c p).
Proof.
  induction fuel as [| fuel IH]; intros g acc Hwf Hsize.
  - exists [], [], g. simpl. rewrite decide_False by lia.
    rewrite app_nil_r. split_and!; [done | constructor | constructor | |].
    + intros id. split; [by intros ?%not_elem_of_nil |].
      intros [Hid Hne]. pose proof (two_present g id (Root g) Hid (wf_root g Hwf) Hne). lia.
    + intros p c (n & Hp & _) Hne.
      assert (present g p) as Hid by (by exists n).
      pose proof (two_present g p (Root g) Hid (wf_root g Hwf) Hne). lia.
  - simpl. case_decide as Hbig.
    2:{ exists [], [], g. rewrite app_nil_r.
        split_and!; [done | constructor | constructor | |].
        + intros id. split; [by intros ?%not_elem_of_nil |].
          intros [Hid Hne].
          pose proof (two_present g id (Root g) Hid (wf_root g Hwf) Hne). lia.
        + intros p c (n & Hp & _) Hne.
          assert (present g p) as Hid by (by exists n).
          pose proof (two_present g p (Root g) Hid (wf_root g Hwf) Hne). lia. }
    destruct (getNextLeaf_spec g Hwf) as [[Hnext Hnone] | [Hnext (n & Hn & Hlive)]].
    { (* the root has no children, yet there is a second node *)
      exfalso.
      assert (∃ a, present g a ∧ a ≠ Root g) as (a & Ha & Hne).
      { destruct (wf_root g Hwf) as [r Hr].
        assert (delete (Root g) (Nodes g) ≠ ∅) as Hne.
        { intros Hempty.
          rewrite <- (insert_delete_id (Nodes g) (Root g) r) in Hbig by done.
          rewrite map_size_insert_None in Hbig by apply lookup_delete_eq.
          rewrite Hempty, map_size_empty in Hbig. lia. }
        apply map_choose in Hne as (a & na & Ha).
        apply lookup_delete_Some in Ha as [? Ha]. exists a. split; [by exists na | done]. }
      apply (wf_connected g Hwf) in Ha.
      apply rtc_inv in Ha as [? | (y & Hy & _)]; [done | by eapply Hnone]. }
    set (next := getNextLeaf g (Root g)) in *.
    rewrite decide_False by done.
    destruct (wf_payload g Hwf next) as [d Hd]; [by exists n | done |].
    rewrite Hd, (removeNode_leaf g next n) by done.
    set (g1 := without next g).
    assert (∀ b, ¬ edge g next b) as Hleaf
      by (by apply (liveChilds_nil_no_edge g next n (wf_closed g Hwf))).
    destruct (IH g1 (acc ++ [d])) as (order & ds & g' & Hrun & Hpay & Hnodup & Hmem & Hord).
    { by apply removed_wf. }
    { pose proof (removed_size g next) as Hs. simpl in Hs. unfold g1. simpl.
      rewrite <- Hs in Hsize by (by exists n). lia. }
    exists (next :: order), (d :: ds), g'. split_and!.
    + rewrite Hrun. by rewrite <- app_assoc.
    + constructor; [done |].
      eapply Forall2_impl; [done |]. simpl. intros id d' Hid.
      destruct (decide (id = next)) as [-> | Hne].
      * unfold payload in Hid. simpl in Hid.
        by rewrite lookup_fmap, lookup_delete_eq in Hid.
      * by rewrite <- (removed_payload g next id).
    + constructor; [| done].
      intros [[_ Hcontra]%removed_present _]%Hmem. done.
    + intros id. rewrite elem_of_cons, Hmem. unfold g1.
      rewrite removed_present. simpl. split.
      * intros [-> | [[? ?] ?]]; [split; [by exists n | done] | done].
      * intros [? ?]. destruct (decide (id = next)); [by left | by right].
    + intros p c Hpc Hne.
      assert (p ≠ next) as Hpn by (intros ->; by eapply Hleaf).
      assert (p ∈ order) as Hp.
      { apply Hmem. split; [| done]. apply removed_present. split; [| done].
        destruct Hpc as (np & ? & _). by exists np. }
      destruct (decide (c = next)) as [-> | Hcn].
      * by apply precedes_cons_head.
      * apply precedes_cons, Hord; [| done]. apply removed_edge. done.
Qed.
End DrainFacts.

(** ** Facts about the resolver *)

Section MonadFacts.
Context `{Collaborators}.

Lemma bind_inv {A B : Type} (m : M A) (k : A → M B) st o st' :
  (m ≫= k) st = (o, st') →
  (∃ a st1, m st = (Ok a, st1) ∧ k a st1 = (o, st')) ∨
  (∃ o1, m st = (o1, st') ∧ stopped o1 o).
Proof.
  unfold mbind, M_bind. destruct (m st) as [[a | e | |] st1]; intros Hrun.
  - left. eauto.
  - right. injection Hrun as <- <-. eexists. split; [done | constructor].
  - right. injection Hrun as <- <-. eexists. split; [done | constructor].
  - right. injection Hrun as <- <-. eexists. split; [done | constructor].
Qed.

Lemma bind_Ok_inv {A B : Type} (m : M A) (k : A → M B) st b st' :
  (m ≫= k) st = (Ok b, st') →
  ∃ a st1, m st = (Ok a, st1) ∧ k a st1 = (Ok b, st').
Proof.
  intros [? | (o1 & _ & Hstop)]%bind_inv; [done | inversion Hstop].
Qed.

Lemma bind_Ok {A B : Type} (m : M A) (k : A → M B) st a st1 :
  m st = (Ok a, st1) → (m ≫= k) st = k a st1.
Proof. unfold mbind, M_bind. by intros ->. Qed.

Lemma bind_Err {A B : Type} (m : M A) (k : A → M B) st e st1 :
  m st = (Err e, st1) → (m ≫= k) st = (Err e, st1).
Proof. unfold mbind, M_bind. by intros ->. Qed.

Lemma call_Ok_inv {A : Type} (f : World → reply A * World) st a st' :
  call f st = (Ok a, st') →
  (f (world st)).1 = Return a ∧ st' = withWorld (f (world st)).2 st.
Proof.
  unfold call. intros Hrun.
  destruct (f (world st)).1 eqn:Hr; simplify_eq. done.
Qed.

Lemma mapErr_Ok_inv {A : Type} (f : error → error) (m : M A) st a st' :
  mapErr f m st = (Ok a, st') → m st = (Ok a, st').
Proof. unfold mapErr. by destruct (m st) as [[] ?]. Qed.

Lemma wrapErr_Ok_inv {A : Type} (m : M A) msg st a st' :
  wrapErr m msg st = (Ok a, st') → m st = (Ok a, st').
Proof. apply mapErr_Ok_inv. Qed.

Lemma invoke_inv {A : Type} (f : World → A * World) st o st' :
  invoke f st = (o, st') →
  o = Ok (f (world st)).1 ∧ st' = withWorld (f (world st)).2 st.
Proof. unfold invoke. by intros [= <- <-]. Qed.

Lemma emit_inv ev st o st' :
  emit ev st = (o, st') → o = Ok tt ∧ st' = withEvent ev st.
Proof. unfold emit. by intros [= <- <-]. Qed.

Lemma getThis_inv st o st' :
  getThis st = (o, st') → o = Ok (this st) ∧ st' = st.
Proof. unfold getThis. by intros [= <- <-]. Qed.

Lemma storeActiveProfile_Ok_inv l p st st' :
  storeActiveProfile l p st = (Ok tt, st') →
  ∃ c, generatedConfigs (world st) !! l = Some c ∧
       st' = withWorld (setGeneratedConfigs
                          (<[l := generated.setActiveProfile p c]>
                             (generatedConfigs (world st))) (world st)) st.
Proof.
  unfold storeActiveProfile. destruct (generatedConfigs (world st) !! l) as [c |]; [| done].
  intros [= <-]. eauto.
Qed.

(** *** What a piece of code leaves of the resolver and adds to the trace *)

Lemma emits_quiet {A : Type} Q (m : M A) st :
  this (m st).2 = this st → trace (m st).2 = trace st → emits_at Q m st.
Proof. intros ? Htr. split; [done |]. exists []. by rewrite app_nil_r. Qed.

Lemma emits_bind {A B : Type} Q (m : M A) (k : A → M B) st :
  emits_at Q m st →
  (∀ a st1, this st1 = this st → emits_at Q (k a) st1) →
  emits_at Q (m ≫= k) st.
Proof.
  intros [Hthis (evs & Htr & Hevs)] Hk. unfold emits_at, mbind, M_bind.
  destruct (m st) as [[a | e | |] st1]; simpl in *;
    [| split; [done | by exists evs] ..].
  destruct (Hk a st1 Hthis) as [Hthis' (evs' & Htr' & Hevs')].
  split; [congruence |]. exists (evs ++ evs'). split.
  - by rewrite Htr', Htr, app_assoc.
  - apply Forall_app. split; [done |]. by rewrite <- Hthis.
Qed.

Lemma emits_getThis_bind {B : Type} Q (k : resolver → M B) st :
  emits_at Q (k (this st)) st → emits_at Q (getThis ≫= k) st.
Proof. done. Qed.

Lemma emits_mapErr {A : Type} Q f (m : M A) st :
  emits_at Q m st → emits_at Q (mapErr f m) st.
Proof. unfold emits_at, mapErr. by destruct (m st) as [[] ?]. Qed.

Lemma emits_ret {A : Type} Q (a : A) st : emits_at Q (mret a) st.
Proof. by apply emits_quiet. Qed.

Lemma emits_fail {A : Type} Q e st : emits_at Q (fail (A := A) e) st.
Proof. by apply emits_quiet. Qed.

Lemma emits_call {A : Type} Q (f : World → reply A * World) st : emits_at Q (call f) st.
Proof. by apply emits_quiet. Qed.

Lemma emits_invoke {A : Type} Q (f : World → A * World) st : emits_at Q (invoke f) st.
Proof. by apply emits_quiet. Qed.

Lemma emits_inspect {A : Type} Q (f : World → A) st : emits_at Q (inspect f) st.
Proof. by apply emits_quiet. Qed.

Lemma emits_storeActiveProfile Q l p st : emits_at Q (storeActiveProfile l p) st.
Proof.
  apply emits_quiet; unfold storeActiveProfile;
    by destruct (generatedConfigs (world st) !! l).
Qed.

Lemma emits_emit Q ev st : Q (this st) ev → emits_at Q (emit ev) st.
Proof. intros HQ. split; [done |]. exists [ev]. split; [done | by constructor]. Qed.

(** Takes [emits_at] apart along the structure of the code. *)
Ltac emits_step :=
  lazymatch goal with
  | |- emits_at _ (getThis ≫= _) _ => apply emits_getThis_bind; cbv beta zeta
  | |- emits_at _ (_ ≫= _) _ =>
      apply emits_bind; [| let Hthis := fresh "Hthis" in intros ? ? Hthis; cbv beta zeta]
  | |- emits_at _ (wrapErr _ _) _ => apply emits_mapErr
  | |- emits_at _ (mapErr _ _) _ => apply emits_mapErr
  | |- emits_at _ (liftReply _) _ => apply emits_call
  | |- emits_at _ (call _) _ => apply emits_call
  | |- emits_at _ (invoke _) _ => apply emits_invoke
  | |- emits_at _ (inspect _) _ => apply emits_inspect
  | |- emits_at _ (storeActiveProfile _ _) _ => apply emits_storeActiveProfile
  | |- emits_at _ (mret _) _ => apply emits_ret
  | |- emits_at _ (fail _) _ => apply emits_fail
  | |- emits_at _ (if decide _ then _ else _) _ => case_decide
  | |- emits_at _ (match ?x with _ => _ end) _ => destruct x
  end.

Lemma resolveDependency_emits basePath dependency update st :
  emits_at loads_with_BaseCache (resolveDependency basePath dependency update) st.
Proof.
  unfold resolveDependency.
  repeat emits_step.
  apply emits_emit. rewrite Hthis0, Hthis. done.
Qed.
End MonadFacts.

Section ResolveDependencyFacts.
Context `{Collaborators}.

Lemma call_Ok_eq {A : Type} (f : World → reply A * World) st a st' :
  call f st = (Ok a, st') →
  f (world st) = (Return a, world st') ∧ this st' = this st ∧ trace st' = trace st.
Proof.
  intros [Hr ->]%call_Ok_inv. simpl. split; [| done].
  destruct (f (world st)) as [r w]. simpl in *. by subst.
Qed.

Lemma call_Fail {A : Type} (f : World → reply A * World) st msg w :
  f (world st) = (Fail msg, w) → call f st = (Err (errorString msg), withWorld w st).
Proof. unfold call. by intros ->. Qed.

Lemma call_Return {A : Type} (f : World → reply A * World) st a w :
  f (world st) = (Return a, w) → call f st = (Ok a, withWorld w st).
Proof. unfold call. by intros ->. Qed.

Lemma mapErr_Err {A : Type} (f : error → error) (m : M A) st e st' :
  m st = (Err e, st') → mapErr f m st = (Err (f e), st').
Proof. unfold mapErr. by intros ->. Qed.

Lemma mapErr_Ok {A : Type} (f : error → error) (m : M A) st a st' :
  m st = (Ok a, st') → mapErr f m st = (Ok a, st').
Proof. unfold mapErr. by intros ->. Qed.

Lemma wrapErr_Err {A : Type} (m : M A) msg st e st' :
  m st = (Err e, st') → wrapErr m msg st = (Err (withMessage e msg), st').
Proof. unfold wrapErr, mapErr. by intros ->. Qed.

Lemma wrapErr_Ok {A : Type} (m : M A) msg st a st' :
  m st = (Ok a, st') → wrapErr m msg st = (Ok a, st').
Proof. unfold wrapErr, mapErr. by intros ->. Qed.

(** A successful [resolveDependency], step by step. *)
Lemma resolveDependency_Ok_inv basePath dependency update st dep st' :
  resolveDependency basePath dependency update st = (Ok dep, st') →
  ∃ id localPath w1 cloned loaded w2 commands w3,
    util_DownloadDependency basePath (latest.Source dependency)
      (latest.Profile dependency) update (world st) = (Return (id, localPath), w1) ∧
    ConfigOptions_Clone (ConfigOptions (this st)) = Return cloned ∧
    loadConfig (dependencyOptions (this st) dependency localPath cloned) w1
      = (Return loaded, w2) ∧
    ConfigLoader_ParseCommands (dependencyOptions (this st) dependency localPath cloned) w2
      = (Return commands, w3) ∧
    ID dep = id ∧ LocalPath dep = localPath ∧
    Config dep = overrideConfig dependency loaded ∧
    Commands dep = commands ∧
    DependencyConfig dep = dependency ∧
    DependencyCache dep = BaseCache (this st) ∧
    (if decide (latest.Namespace dependency ≠ "")
     then ∃ created w w',
         kubectl_NewClientFromContext
           (match client (this st) with
            | Some current => Client_CurrentContext current
            | None => ""
            end)
           (latest.Namespace dependency) false (kubeLoader (this st)) w
         = (Return created, w') ∧
         kubeClient dep = Some created
     else kubeClient dep = client (this st)) ∧
    this st' = this st ∧
    trace st' = trace st ++
      [EvNewConfigLoader (dependencyOptions (this st) dependency localPath cloned)].
Proof.
  unfold resolveDependency. intros Hrun.
  apply bind_Ok_inv in Hrun as ([id localPath] & st1 & H1 & Hrun).
  apply call_Ok_eq in H1 as (Hdl & Hthis1 & Htr1).
  apply bind_Ok_inv in Hrun as (r & st2 & H2 & Hrun).
  apply getThis_inv in H2 as [[= ->] ->].
  apply bind_Ok_inv in Hrun as (cloned & st3 & H3 & Hrun).
  apply wrapErr_Ok_inv, call_Ok_eq in H3 as (Hclone & Hthis3 & Htr3).
  injection Hclone as Hclone Hw3.
  cbv zeta in Hrun.
  change (loader.setBasePath _ _) with (dependencyOptions (this st1) dependency localPath cloned)
    in Hrun.
  set (options := dependencyOptions (this st1) dependency localPath cloned) in *.
  apply bind_Ok_inv in Hrun as ([] & st4 & H4 & Hrun).
  apply emit_inv in H4 as [_ ->].
  apply bind_Ok_inv in Hrun as (loaded & st5 & H5 & Hrun).
  apply wrapErr_Ok_inv in H5.
  assert (call (loadConfig options) (withEvent (EvNewConfigLoader options) st3)
          = (Ok loaded, st5)) as H5'.
  { unfold loadConfig. by destruct (decide (loader.Profile options = "")). }
  apply call_Ok_eq in H5' as (Hload & Hthis5 & Htr5). clear H5.
  apply bind_Ok_inv in Hrun as (commands & st6 & H6 & Hrun).
  apply wrapErr_Ok_inv, call_Ok_eq in H6 as (Hparse & Hthis6 & Htr6).
  change (if decide (latest.SkipBuild dependency = Some true) then _ else _)
    with (overrideConfig dependency loaded) in Hrun.
  set (dConfig := overrideConfig dependency loaded) in *.
  apply bind_Ok_inv in Hrun as (dGeneratedConfig & st7 & H7 & Hrun).
  apply mapErr_Ok_inv, call_Ok_eq in H7 as (Hgen & Hthis7 & Htr7).
  apply bind_Ok_inv in Hrun as ([] & st8 & H8 & Hrun).
  apply storeActiveProfile_Ok_inv in H8 as (c & Hc & ->).
  apply bind_Ok_inv in Hrun as ([] & st9 & H9 & Hrun).
  apply invoke_inv in H9 as [_ ->].
  apply bind_Ok_inv in Hrun as (cl & st10 & H10 & Hrun).
  apply bind_Ok_inv in Hrun as (dockerClient & st11 & H11 & Hrun).
  apply wrapErr_Ok_inv, call_Ok_eq in H11 as (Hdocker & Hthis11 & Htr11).
  apply bind_Ok_inv in Hrun as (buildActive & st12 & H12 & Hrun).
  apply invoke_inv in H12 as [[= ->] ->].
  apply bind_Ok_inv in Hrun as (deployActive & st13 & H13 & Hrun).
  apply invoke_inv in H13 as [[= ->] ->].
  injection Hrun as <- <-. simpl in *.
  assert (this st10 = this st1 ∧ trace st10 = trace st ++ [EvNewConfigLoader options] ∧
          if decide (latest.Namespace dependency ≠ "")
          then ∃ created w w',
              kubectl_NewClientFromContext
                (match client (this st1) with
                 | Some current => Client_CurrentContext current
                 | None => ""
                 end)
                (latest.Namespace dependency) false (kubeLoader (this st1)) w
              = (Return created, w') ∧ cl = Some created
          else cl = client (this st1)) as (Hthis10 & Htr10 & Hclient).
  { case_decide.
    - destruct (client (this st1)) as [current |];
        apply bind_Ok_inv in H10 as (created & st10' & H10 & [= <- <-]);
        apply wrapErr_Ok_inv, call_Ok_eq in H10 as (Hnew & Hthis10 & Htr10);
        simpl in *; (split_and!; [congruence | congruence | eauto]).
    - injection H10 as <- <-. simpl. split_and!; congruence. }
  rewrite Hthis1 in *. subst options dConfig.
  exists id, localPath, (world st1), cloned, loaded, (world st5), commands, (world st6).
  split_and!; try done.
  - rewrite <- Hthis1, Hw3. done.
  - by rewrite <- Hthis1.
  - congruence.
  - rewrite <- Hthis1. congruence.
Qed.
End ResolveDependencyFacts.

Section ResolveRecursiveFacts.
Context `{Collaborators}.

Lemma onGraph_run (f : graph Dependency → outcome (graph Dependency)) st :
  onGraph f st =
  match f (DependencyGraph (this st)) with
  | Ok g' => (Ok tt, withGraph g' st)
  | Err e => (Err e, st)
  | Panic => (Panic, st)
  | Diverge => (Diverge, st)
  end.
Proof.
  unfold onGraph, mbind, M_bind, getGraph.
  by destruct (f (DependencyGraph (this st))).
Qed.

(** The ways through the body of the loop of [resolveRecursive]. *)
Lemma resolveRecursive_body_elim (P : outcome unit * state → Prop)
    recurse basePath parentID dependencyConfig update st :
  let id := util_GetDependencyID basePath (latest.Source dependencyConfig)
              (latest.Profile dependencyConfig) (world st) in
  let g := DependencyGraph (this st) in
  let st0 := withEvent (EvResolveDependency id) st in
  (∀ g', present g id → addEdge g parentID id = Ok g' →
     P (Ok tt, withEvent (EvAddEdge parentID id None) (withGraph g' st))) →
  (∀ e, present g id → addEdge g parentID id = Err e →
     is_cyclicError e = true → AllowCyclic (this st) = true →
     P (Ok tt, withEvent (EvAddEdge parentID id (Some e)) st)) →
  (∀ e, present g id → addEdge g parentID id = Err e →
     is_cyclicError e = false ∨ AllowCyclic (this st) = false →
     P (Err e, withEvent (EvAddEdge parentID id (Some e)) st)) →
  (∀ o o' st1, ¬ present g id →
     resolveDependency basePath dependencyConfig update st0 = (o, st1) →
     stopped o o' → P (o', st1)) →
  (∀ dependency st1 e, ¬ present g id →
     resolveDependency basePath dependencyConfig update st0 = (Ok dependency, st1) →
     insertNodeAt (DependencyGraph (this st1)) parentID id dependency = Err e →
     P (Err (withMessage e "insert node"), st1)) →
  (∀ dependency st1 g', ¬ present g id →
     resolveDependency basePath dependencyConfig update st0 = (Ok dependency, st1) →
     insertNodeAt (DependencyGraph (this st1)) parentID id dependency = Ok g' →
     ¬ descends dependencyConfig dependency →
     P (Ok tt, withGraph g' st1)) →
  (∀ dependency st1 g', ¬ present g id →
     resolveDependency basePath dependencyConfig update st0 = (Ok dependency, st1) →
     insertNodeAt (DependencyGraph (this st1)) parentID id dependency = Ok g' →
     descends dependencyConfig dependency →
     P (recurse (LocalPath dependency) id
          (latest.Dependencies (Config dependency)) update (withGraph g' st1))) →
  P (resolveRecursive_body recurse basePath parentID dependencyConfig update st).
Proof.
  intros id g st0 HedgeOk Hswallow HedgeErr Hstop HinsErr Hleaf Hrec.
  unfold resolveRecursive_body.
  erewrite bind_Ok by reflexivity. erewrite bind_Ok by reflexivity.
  fold id g. destruct (Nodes g !! id) as [n |] eqn:Hid.
  - assert (present g id) as Hpres by (by exists n).
    destruct (addEdge_total g parentID id) as [[g' Hadd] | [e Hadd]].
    + erewrite bind_Ok; [| unfold attempt; rewrite onGraph_run; fold g; by rewrite Hadd].
      erewrite bind_Ok by reflexivity. by apply HedgeOk.
    + erewrite bind_Ok; [| unfold attempt; rewrite onGraph_run; fold g; by rewrite Hadd].
      erewrite bind_Ok by reflexivity.
      destruct (is_cyclicError e) eqn:Hcyc.
      * erewrite bind_Ok by reflexivity. simpl.
        destruct (AllowCyclic (this st)) eqn:Hallow; simpl.
        -- by apply Hswallow.
        -- apply HedgeErr; auto.
      * apply HedgeErr; auto.
  - assert (¬ present g id) as Hpres by (intros [??]; congruence).
    erewrite bind_Ok by reflexivity. fold st0.
    destruct (resolveDependency basePath dependencyConfig update st0)
      as [o st1] eqn:Hrd.
    destruct o as [dependency | e | |];
      [| unfold mbind, M_bind; rewrite Hrd; eapply Hstop; [done | done | constructor] ..].
    erewrite bind_Ok by done.
    destruct (insertNodeAt (DependencyGraph (this st1)) parentID id dependency)
      as [g' | e | |] eqn:Hins.
    + erewrite bind_Ok;
        [| unfold wrapErr; apply mapErr_Ok; rewrite onGraph_run; by rewrite Hins].
      case_decide as Hignore.
      * destruct (latest.Dependencies (Config dependency)) as [| d ds] eqn:Hdeps.
        -- apply (Hleaf dependency); [done .. |]. intros [_ ?]. done.
        -- rewrite <- Hdeps. apply Hrec; [done .. |]. split; [done |]. by rewrite Hdeps.
      * apply (Hleaf dependency); [done .. |]. intros [? _]. done.
    + erewrite bind_Err;
        [| unfold wrapErr; apply mapErr_Err; rewrite onGraph_run; by rewrite Hins].
      by eapply HinsErr.
    + unfold insertNodeAt in Hins. repeat case_match; done.
    + unfold insertNodeAt in Hins. repeat case_match; done.
Qed.

Lemma resolveRecursive_zero basePath parentID dependencies update st :
  resolveRecursive 0 basePath parentID dependencies update st = (Diverge, st).
Proof. done. Qed.

Lemma resolveRecursive_nil fuel basePath parentID update st :
  resolveRecursive (S fuel) basePath parentID [] update st = (Ok tt, st).
Proof. done. Qed.

Lemma resolveRecursive_cons fuel basePath parentID d ds update :
  resolveRecursive (S fuel) basePath parentID (d :: ds) update =
  (resolveRecursive_body (resolveRecursive fuel) basePath parentID d update;;
   resolveRecursive (S fuel) basePath parentID ds update).
Proof. done. Qed.
End ResolveRecursiveFacts.

Section DescentFacts.
Context `{Collaborators}.

Lemma setDependencyGraph_idemp g g' (r : resolver) :
  setDependencyGraph g (setDependencyGraph g' r) = setDependencyGraph g r.
Proof. done. Qed.

Lemma setDependencyGraph_id (r : resolver) :
  r = setDependencyGraph (DependencyGraph r) r.
Proof. by destruct r. Qed.

Lemma materialized_app t1 t2 : materialized (t1 ++ t2) = materialized t1 ++ materialized t2.
Proof. apply omap_app. Qed.

Lemma saved_app t1 t2 : saved (t1 ++ t2) = saved t1 ++ saved t2.
Proof. apply omap_app. Qed.

Lemma edgeErrors_app t1 t2 : edgeErrors (t1 ++ t2) = edgeErrors t1 ++ edgeErrors t2.
Proof. apply omap_app. Qed.

Lemma loaderOptions_app t1 t2 :
  loaderOptions (t1 ++ t2) = loaderOptions t1 ++ loaderOptions t2.
Proof. apply omap_app. Qed.

(** The events of [resolveDependency] are configuration loaders only. *)
Lemma loads_only r evs :
  Forall (loads_with_BaseCache r) evs →
  materialized evs = [] ∧ saved evs = [] ∧ edgeErrors evs = [] ∧
  ∀ options, options ∈ loaderOptions evs →
             loader.GeneratedConfig options = Some (BaseCache r).
Proof.
  induction 1 as [| ev evs Hev _ (IH1 & IH2 & IH3 & IH4)].
  - split_and!; [done .. |]. by intros ? ?%not_elem_of_nil.
  - destruct ev; simpl in Hev; try done.
    split_and!; [done .. |]. simpl.
    intros options' [-> | ?]%elem_of_cons; auto.
Qed.

Lemma descent_refl st : descent st [] (Ok tt) st.
Proof.
  split; simpl; try done; try (by intros ? ?%not_elem_of_nil); auto.
  - apply setDependencyGraph_id.
  - by rewrite app_nil_r.
  - constructor.
  - by intros _ ? ?%not_elem_of_nil.
Qed.

Lemma descent_Diverge st : descent st [] Diverge st.
Proof.
  split; simpl; try done; try (by intros ? ?%not_elem_of_nil); auto.
  - apply setDependencyGraph_id.
  - by rewrite app_nil_r.
  - constructor.
Qed.

Lemma descent_trans st evs1 st1 evs2 o st2 :
  descent st evs1 (Ok tt) st1 → descent st1 evs2 o st2 →
  descent st (evs1 ++ evs2) o st2.
Proof.
  intros H1 H2.
  assert (BaseCache (this st1) = BaseCache (this st)) as Hcache
    by (by rewrite (d_this _ _ _ _ H1)).
  assert (AllowCyclic (this st1) = AllowCyclic (this st)) as Hallow
    by (by rewrite (d_this _ _ _ _ H1)).
  split.
  - pose proof (d_this _ _ _ _ H1) as E1. pose proof (d_this _ _ _ _ H2) as E2.
    destruct (this st), (this st1), (this st2).
    unfold setDependencyGraph in *; simpl in *. congruence.
  - by rewrite (d_trace _ _ _ _ H2), (d_trace _ _ _ _ H1), app_assoc.
  - by rewrite saved_app, (d_saved _ _ _ _ H1), (d_saved _ _ _ _ H2).
  - rewrite materialized_app. apply NoDup_app. split_and!.
    + apply (d_nodup _ _ _ _ H1).
    + intros id Hin1 Hin2.
      apply (d_fresh _ _ _ _ H2 id Hin2). by apply (d_inserted _ _ _ _ H1).
    + apply (d_nodup _ _ _ _ H2).
  - intros id. rewrite materialized_app. intros [Hin | Hin]%elem_of_app.
    + by apply (d_fresh _ _ _ _ H1).
    + intros Hp. apply (d_fresh _ _ _ _ H2 id Hin). by apply (d_present _ _ _ _ H1).
  - intros Ho id. rewrite materialized_app. intros [Hin | Hin]%elem_of_app.
    + apply (d_present _ _ _ _ H2). by apply (d_inserted _ _ _ _ H1).
    + by apply (d_inserted _ _ _ _ H2).
  - intros options. rewrite loaderOptions_app. intros [Hin | Hin]%elem_of_app.
    + by apply (d_options _ _ _ _ H1).
    + rewrite <- Hcache. by apply (d_options _ _ _ _ H2).
  - intros e. rewrite edgeErrors_app. intros [Hin | Hin]%elem_of_app.
    + destruct (d_edgeErrors _ _ _ _ H1 e Hin) as [? | ?]; [by left | done].
    + rewrite <- Hallow. by apply (d_edgeErrors _ _ _ _ H2).
  - intros id Hp. by apply (d_present _ _ _ _ H2), (d_present _ _ _ _ H1).
  - intros a b Hab. by apply (d_edge _ _ _ _ H2), (d_edge _ _ _ _ H1).
  - intros Hwf. by apply (d_wf _ _ _ _ H2), (d_wf _ _ _ _ H1).
  - intros id d Hd. destruct (d_payload _ _ _ _ H2 id d Hd) as [Hd1 | Hd1].
    + by apply (d_payload _ _ _ _ H1).
    + right. congruence.
  - by rewrite (d_root _ _ _ _ H2), (d_root _ _ _ _ H1).
Qed.

(** The Materializer, called for the identity [id] that the graph does not
    have yet. *)
Lemma resolveDependency_prefix basePath dependencyConfig update id st o st1 :
  resolveDependency basePath dependencyConfig update
    (withEvent (EvResolveDependency id) st) = (o, st1) →
  ∃ evs, this st1 = this st ∧
         trace st1 = trace st ++ EvResolveDependency id :: evs ∧
         Forall (loads_with_BaseCache (this st)) evs.
Proof.
  intros Hrun.
  destruct (resolveDependency_emits basePath dependencyConfig update
              (withEvent (EvResolveDependency id) st)) as [Hthis (evs & Htr & Hevs)].
  rewrite Hrun in Hthis, Htr. simpl in *.
  exists evs. split_and!; [done | | done]. by rewrite Htr, <- app_assoc.
Qed.

Lemma descent_edge_added st parentID id g' :
  addEdge (DependencyGraph (this st)) parentID id = Ok g' →
  descent st [EvAddEdge parentID id None] (Ok tt)
    (withEvent (EvAddEdge parentID id None) (withGraph g' st)).
Proof.
  intros Hadd. split; simpl; try done; try (by intros ? ?%not_elem_of_nil).
  - constructor.
  - by intros _ ? ?%not_elem_of_nil.
  - intros a Ha. by apply (addEdge_present _ _ _ _ _ Hadd).
  - intros a b Hab. apply (addEdge_edge _ _ _ _ _ _ Hadd). by left.
  - intros Hwf. by eapply addEdge_wf.
  - intros a d Hd. left. by rewrite <- (addEdge_payload _ _ _ _ a Hadd).
  - by eapply addEdge_Root.
Qed.

Lemma descent_edge_failed st parentID id e o :
  (is_cyclicError e = true ∧ AllowCyclic (this st) = true) ∨ o = Err e →
  o ≠ Ok tt ∨ (is_cyclicError e = true ∧ AllowCyclic (this st) = true) →
  descent st [EvAddEdge parentID id (Some e)] o
    (withEvent (EvAddEdge parentID id (Some e)) st).
Proof.
  intros He Ho. split; simpl; try done; try (by intros ? ?%not_elem_of_nil); auto.
  - apply setDependencyGraph_id.
  - constructor.
  - by intros _ ? ?%not_elem_of_nil.
  - by intros e' ->%list_elem_of_singleton.
Qed.

Lemma descent_materialize_failed st id evs o st1 :
  ¬ present (DependencyGraph (this st)) id →
  this st1 = this st →
  trace st1 = trace st ++ EvResolveDependency id :: evs →
  Forall (loads_with_BaseCache (this st)) evs →
  o ≠ Ok tt →
  descent st (EvResolveDependency id :: evs) o st1.
Proof.
  intros Hfresh Hthis Htr (Hmat & Hsaved & Herrs & Hopts)%loads_only Ho.
  split; simpl; rewrite ?Hthis, ?Hmat, ?Hsaved, ?Herrs; try done;
    try (by intros ? ?%not_elem_of_nil); auto.
  - apply setDependencyGraph_id.
  - apply NoDup_singleton.
  - by intros ? ->%list_elem_of_singleton.
Qed.

Lemma descent_materialized st parentID id evs st1 dependency g' :
  ¬ present (DependencyGraph (this st)) id →
  this st1 = this st →
  trace st1 = trace st ++ EvResolveDependency id :: evs →
  Forall (loads_with_BaseCache (this st)) evs →
  DependencyCache dependency = BaseCache (this st) →
  insertNodeAt (DependencyGraph (this st1)) parentID id dependency = Ok g' →
  descent st (EvResolveDependency id :: evs) (Ok tt) (withGraph g' st1).
Proof.
  intros Hfresh Hthis Htr (Hmat & Hsaved & Herrs & Hopts)%loads_only Hcache Hins.
  rewrite Hthis in Hins.
  split; simpl; rewrite ?Hthis, ?Hmat, ?Hsaved, ?Herrs; try done;
    try (by intros ? ?%not_elem_of_nil); auto.
  - apply NoDup_singleton.
  - by intros ? ->%list_elem_of_singleton.
  - intros _ ? ->%list_elem_of_singleton.
    apply (insertNodeAt_present _ _ _ _ _ _ Hins). by right.
  - intros a Ha. apply (insertNodeAt_present _ _ _ _ _ _ Hins). by left.
  - intros a b Hab. apply (insertNodeAt_edge _ _ _ _ _ _ _ Hins). by left.
  - intros Hwf. by eapply insertNodeAt_wf.
  - intros a d. rewrite (insertNodeAt_payload _ _ _ _ _ _ Hins).
    case_decide; [intros [= <-]; by right | by left].
  - by eapply insertNodeAt_Root.
Qed.

(** Every run of [resolveRecursive] is a descent. *)
Lemma resolveRecursive_descent fuel : ∀ basePath parentID dependencies update st,
  ∃ evs, descent st evs
           (resolveRecursive fuel basePath parentID dependencies update st).1
           (resolveRecursive fuel basePath parentID dependencies update st).2.
Proof.
  induction fuel as [| fuel IHfuel]; intros basePath parentID dependencies update.
  { intros st. exists []. apply descent_Diverge. }
  induction dependencies as [| d ds IHds]; intros st.
  { exists []. apply descent_refl. }
  rewrite resolveRecursive_cons.
  assert (∃ evs, descent st evs
            (resolveRecursive_body (resolveRecursive fuel) basePath parentID d update st).1
            (resolveRecursive_body (resolveRecursive fuel) basePath parentID d update st).2)
    as (evs1 & Hbody).
  { apply (resolveRecursive_body_elim (λ r, ∃ evs, descent st evs r.1 r.2)); simpl.
    - intros g' _ Hadd. eexists. by apply descent_edge_added.
    - intros e _ _ Hcyc Hallow. eexists. apply descent_edge_failed; auto.
    - intros e _ _ Hfatal. eexists. apply descent_edge_failed; auto.
    - intros o o' st1 Hfresh (evs & Hthis & Htr & Hevs)%resolveDependency_prefix Hstop.
      eexists. apply descent_materialize_failed; [done .. |]. by inversion Hstop.
    - intros dependency st1 e Hfresh
        (evs & Hthis & Htr & Hevs)%resolveDependency_prefix _.
      eexists. by apply descent_materialize_failed.
    - intros dependency st1 g' Hfresh Hrd Hins _.
      pose proof Hrd as (evs & Hthis & Htr & Hevs)%resolveDependency_prefix.
      apply resolveDependency_Ok_inv in Hrd
        as (? & ? & ? & ? & ? & ? & ? & ? & _ & _ & _ & _ & _ & _ & _ & _ & _ & Hc & _).
      eexists. by eapply descent_materialized.
    - intros dependency st1 g' Hfresh Hrd Hins _.
      pose proof Hrd as (evs & Hthis & Htr & Hevs)%resolveDependency_prefix.
      apply resolveDependency_Ok_inv in Hrd
        as (? & ? & ? & ? & ? & ? & ? & ? & _ & _ & _ & _ & _ & _ & _ & _ & _ & Hc & _).
      destruct (IHfuel (LocalPath dependency)
                  (util_GetDependencyID basePath (latest.Source d) (latest.Profile d)
                     (world st))
                  (latest.Dependencies (Config dependency)) update (withGraph g' st1))
        as (evs2 & Hnested).
      eexists. eapply descent_trans; [| exact Hnested].
      by eapply descent_materialized. }
  unfold mbind, M_bind.
  destruct (resolveRecursive_body (resolveRecursive fuel) basePath parentID d update st)
    as [[[] | e | |] st1]; simpl in *; [| by exists evs1 ..].
  destruct (IHds st1) as (evs2 & Hrest).
  eexists. by eapply descent_trans.
Qed.
End DescentFacts.

Section ResolveFacts.
Context `{Collaborators}.

(** The ways through [Resolve]. *)
Lemma Resolve_elim (P : outcome (list Dependency) * state → Prop) fuel update st :
  let descend cwd w :=
    resolveRecursive fuel cwd (Root (DependencyGraph (this st)))
      (latest.Dependencies (BaseConfig (this st))) update (withWorld w st) in
  let save st2 := generated_Save (generatedSaver (this st)) (BaseCache (this st)) (world st2) in
  (∀ msg w, os_Getwd (world st) = (Fail msg, w) →
     P (Err (withMessage (errorString msg) "get current working directory"),
        withWorld w st)) →
  (∀ cwd w o o' st2, os_Getwd (world st) = (Return cwd, w) →
     descend cwd w = (o, st2) →
     stopped (match o with Err e => Err (surfaced e) | other => other end) o' →
     P (o', st2)) →
  (∀ cwd w st2 msg w', os_Getwd (world st) = (Return cwd, w) →
     descend cwd w = (Ok tt, st2) →
     save st2 = (Fail msg, w') →
     P (Err (errorString msg),
        withWorld w' (withEvent (EvSave (BaseCache (this st))) st2))) →
  (∀ cwd w st2 w', os_Getwd (world st) = (Return cwd, w) →
     descend cwd w = (Ok tt, st2) →
     save st2 = (Return tt, w') →
     P (buildDependencyQueue
          (withWorld w' (withEvent (EvSave (BaseCache (this st))) st2)))) →
  P (Resolve fuel update st).
Proof.
  intros descend save Hwd Hstop Hsave Hqueue. unfold Resolve.
  destruct (os_Getwd (world st)) as [[cwd | msg] w] eqn:Hgetwd.
  2:{ erewrite bind_Err;
        [| unfold wrapErr; apply mapErr_Err; by apply call_Fail].
      by apply Hwd. }
  erewrite bind_Ok; [| unfold wrapErr; apply mapErr_Ok; by apply call_Return].
  erewrite bind_Ok by reflexivity.
  change (this (withWorld w st)) with (this st).
  destruct (descend cwd w) as [o st2] eqn:Hdescend. unfold descend in Hdescend.
  destruct o as [[] | e | |].
  - erewrite bind_Ok; [| by apply mapErr_Ok].
    erewrite bind_Ok by reflexivity.
    destruct (save st2) as [[[] | msg] w'] eqn:Hsaved; unfold save in Hsaved.
    + erewrite bind_Ok; [| by apply call_Return]. by eapply Hqueue.
    + erewrite bind_Err; [| by apply call_Fail]. by eapply Hsave.
  - erewrite bind_Err; [| by apply mapErr_Err].
    eapply (Hstop cwd w (Err e)); [done | done | constructor].
  - unfold mbind, M_bind, mapErr. rewrite Hdescend.
    eapply (Hstop cwd w Panic); [done | done | constructor].
  - unfold mbind, M_bind, mapErr. rewrite Hdescend.
    eapply (Hstop cwd w Diverge); [done | done | constructor].
Qed.
End ResolveFacts.

Section FuelFacts.
Context `{Collaborators}.

(** The body of the loop with a deeper recursion: same result, unless the
    shallower one ran out of fuel. *)
Lemma resolveRecursive_body_mono recurse1 recurse2 basePath parentID dependencyConfig
    update st :
  (∀ basePath' parentID' dependencies st0,
     (recurse1 basePath' parentID' dependencies update st0).1 ≠ Diverge →
     recurse2 basePath' parentID' dependencies update st0
     = recurse1 basePath' parentID' dependencies update st0) →
  (resolveRecursive_body recurse1 basePath parentID dependencyConfig update st).1
    ≠ Diverge →
  resolveRecursive_body recurse2 basePath parentID dependencyConfig update st
  = resolveRecursive_body recurse1 basePath parentID dependencyConfig update st.
Proof.
  intros Hrec.
  apply (resolveRecursive_body_elim
           (λ r, r.1 ≠ Diverge →
                 resolveRecursive_body recurse2 basePath parentID dependencyConfig
                   update st = r)); simpl.
  - intros g' Hpresent Hadd _.
    apply (resolveRecursive_body_elim (λ r, r = _)); simpl;
      try (intros; done); try (intros; congruence).
  - intros e Hpresent Hadd Hcyc Hallow _.
    apply (resolveRecursive_body_elim (λ r, r = _)); simpl;
      try (intros; done); try (intros; congruence).
    intros e' _ He' [? | ?]; congruence.
  - intros e Hpresent Hadd Hfatal _.
    apply (resolveRecursive_body_elim (λ r, r = _)); simpl;
      try (intros; done); try (intros; congruence).
    intros e' _ He' ? ?. destruct Hfatal; congruence.
  - intros o o' st1 Hfresh Hrd Hstop _.
    apply (resolveRecursive_body_elim (λ r, r = _)); simpl; try (intros; done).
    + intros o2 o2' st2 _ Hrd2 Hstop2. rewrite Hrd in Hrd2. injection Hrd2 as <- <-.
      by destruct Hstop; inversion Hstop2.
    + intros d2 st2 e2 _ Hrd2 _. rewrite Hrd in Hrd2. injection Hrd2 as -> _.
      inversion Hstop.
    + intros d2 st2 g2 _ Hrd2 _ _. rewrite Hrd in Hrd2. injection Hrd2 as -> _.
      inversion Hstop.
    + intros d2 st2 g2 _ Hrd2 _ _. rewrite Hrd in Hrd2. injection Hrd2 as -> _.
      inversion Hstop.
  - intros dependency st1 e Hfresh Hrd Hins _.
    apply (resolveRecursive_body_elim (λ r, r = _)); simpl; try (intros; done).
    + intros o2 o2' st2 _ Hrd2 Hstop2. rewrite Hrd in Hrd2. injection Hrd2 as <- <-.
      inversion Hstop2.
    + intros d2 st2 e2 _ Hrd2 Hins2. rewrite Hrd in Hrd2. injection Hrd2 as <- <-.
      congruence.
    + intros d2 st2 g2 _ Hrd2 Hins2 _. rewrite Hrd in Hrd2. injection Hrd2 as <- <-.
      congruence.
    + intros d2 st2 g2 _ Hrd2 Hins2 _. rewrite Hrd in Hrd2. injection Hrd2 as <- <-.
      congruence.
  - intros dependency st1 g' Hfresh Hrd Hins Hleaf _.
    apply (resolveRecursive_body_elim (λ r, r = _)); simpl; try (intros; done).
    + intros o2 o2' st2 _ Hrd2 Hstop2. rewrite Hrd in Hrd2. injection Hrd2 as <- <-.
      inversion Hstop2.
    + intros d2 st2 e2 _ Hrd2 Hins2. rewrite Hrd in Hrd2. injection Hrd2 as <- <-.
      congruence.
    + intros d2 st2 g2 _ Hrd2 Hins2 _. rewrite Hrd in Hrd2. injection Hrd2 as <- <-.
      congruence.
    + intros d2 st2 g2 _ Hrd2 Hins2 Hdesc. rewrite Hrd in Hrd2.
      injection Hrd2 as <- <-. done.
  - intros dependency st1 g' Hfresh Hrd Hins Hdesc Hfinite.
    apply (resolveRecursive_body_elim (λ r, r = _)); simpl; try (intros; done).
    + intros o2 o2' st2 _ Hrd2 Hstop2. rewrite Hrd in Hrd2. injection Hrd2 as <- <-.
      inversion Hstop2.
    + intros d2 st2 e2 _ Hrd2 Hins2. rewrite Hrd in Hrd2. injection Hrd2 as <- <-.
      congruence.
    + intros d2 st2 g2 _ Hrd2 Hins2 Hleaf. rewrite Hrd in Hrd2.
      injection Hrd2 as <- <-. done.
    + intros d2 st2 g2 _ Hrd2 Hins2 _. rewrite Hrd in Hrd2. injection Hrd2 as <- <-.
      assert (g2 = g') as -> by congruence. by apply Hrec.
Qed.

(** The recursion budget is no part of the result: a run that comes back
    with a value or an error does the same with any larger budget. *)
Lemma resolveRecursive_fuel_mono fuel : ∀ fuel' basePath parentID dependencies update st,
  (fuel ≤ fuel')%nat →
  (resolveRecursive fuel basePath parentID dependencies update st).1 ≠ Diverge →
  resolveRecursive fuel' basePath parentID dependencies update st
  = resolveRecursive fuel basePath parentID dependencies update st.
Proof.
  induction fuel as [| fuel IHfuel];
    intros fuel' basePath parentID dependencies update; [by intros st _ ? |].
  destruct fuel' as [| fuel']; [intros st ?; lia |].
  induction dependencies as [| d ds IHds]; intros st Hle Hfinite; [done |].
  rewrite !resolveRecursive_cons in *.
  assert (resolveRecursive_body (resolveRecursive fuel') basePath parentID d update st
          = resolveRecursive_body (resolveRecursive fuel) basePath parentID d update st)
    as Hbody.
  { apply resolveRecursive_body_mono.
    - intros basePath' parentID' dependencies' st0 ?. apply IHfuel; [lia | done].
    - intros Hdiv. apply Hfinite. unfold mbind, M_bind.
      destruct (resolveRecursive_body _ _ _ _ _ _) as [[] ?]; done. }
  unfold mbind, M_bind in *. rewrite Hbody.
  destruct (resolveRecursive_body (resolveRecursive fuel) basePath parentID d update st)
    as [[[] | | |] st1]; try done.
  by apply IHds.
Qed.

Lemma Resolve_fuel_mono fuel fuel' update st :
  (fuel ≤ fuel')%nat →
  (Resolve fuel update st).1 ≠ Diverge →
  Resolve fuel' update st = Resolve fuel update st.
Proof.
  intros Hle.
  apply (Resolve_elim (λ r, r.1 ≠ Diverge → Resolve fuel' update st = r)); simpl.
  - intros msg w Hwd _.
    apply (Resolve_elim (λ r, r = _)); simpl; intros; congruence.
  - intros cwd w o o' st2 Hwd Hrun Hstop Hfinite.
    assert (o ≠ Diverge) as Ho by (intros ->; by inversion Hstop).
    apply (Resolve_elim (λ r, r = _)); simpl; [intros; congruence | | |].
    + intros cwd0 w0 o0 o0' st0 Hwd0 Hrun0 Hstop0.
      rewrite Hwd in Hwd0. injection Hwd0 as <- <-.
      rewrite (resolveRecursive_fuel_mono fuel fuel') in Hrun0 by (by rewrite ?Hrun).
      rewrite Hrun in Hrun0. injection Hrun0 as <- <-.
      by destruct Hstop; inversion Hstop0.
    + intros cwd0 w0 st0 msg w' Hwd0 Hrun0 _.
      rewrite Hwd in Hwd0. injection Hwd0 as <- <-.
      rewrite (resolveRecursive_fuel_mono fuel fuel') in Hrun0 by (by rewrite ?Hrun).
      rewrite Hrun in Hrun0. injection Hrun0 as -> _. inversion Hstop.
    + intros cwd0 w0 st0 w' Hwd0 Hrun0 _.
      rewrite Hwd in Hwd0. injection Hwd0 as <- <-.
      rewrite (resolveRecursive_fuel_mono fuel fuel') in Hrun0 by (by rewrite ?Hrun).
      rewrite Hrun in Hrun0. injection Hrun0 as -> _. inversion Hstop.
  - intros cwd w st2 msg w' Hwd Hrun Hsave _.
    apply (Resolve_elim (λ r, r = _)); simpl; [intros; congruence | | |].
    + intros cwd0 w0 o0 o0' st0 Hwd0 Hrun0 Hstop0.
      rewrite Hwd in Hwd0. injection Hwd0 as <- <-.
      rewrite (resolveRecursive_fuel_mono fuel fuel') in Hrun0 by (by rewrite ?Hrun).
      rewrite Hrun in Hrun0. injection Hrun0 as <- <-. inversion Hstop0.
    + intros cwd0 w0 st0 msg0 w0' Hwd0 Hrun0 Hsave0.
      rewrite Hwd in Hwd0. injection Hwd0 as <- <-.
      rewrite (resolveRecursive_fuel_mono fuel fuel') in Hrun0 by (by rewrite ?Hrun).
      rewrite Hrun in Hrun0. injection Hrun0 as <-. congruence.
    + intros cwd0 w0 st0 w0' Hwd0 Hrun0 Hsave0.
      rewrite Hwd in Hwd0. injection Hwd0 as <- <-.
      rewrite (resolveRecursive_fuel_mono fuel fuel') in Hrun0 by (by rewrite ?Hrun).
      rewrite Hrun in Hrun0. injection Hrun0 as <-. congruence.
  - intros cwd w st2 w' Hwd Hrun Hsave _.
    apply (Resolve_elim (λ r, r = _)); simpl; [intros; congruence | | |].
    + intros cwd0 w0 o0 o0' st0 Hwd0 Hrun0 Hstop0.
      rewrite Hwd in Hwd0. injection Hwd0 as <- <-.
      rewrite (resolveRecursive_fuel_mono fuel fuel') in Hrun0 by (by rewrite ?Hrun).
      rewrite Hrun in Hrun0. injection Hrun0 as <- <-. inversion Hstop0.
    + intros cwd0 w0 st0 msg0 w0' Hwd0 Hrun0 Hsave0.
      rewrite Hwd in Hwd0. injection Hwd0 as <- <-.
      rewrite (resolveRecursive_fuel_mono fuel fuel') in Hrun0 by (by rewrite ?Hrun).
      rewrite Hrun in Hrun0. injection Hrun0 as <-. congruence.
    + intros cwd0 w0 st0 w0' Hwd0 Hrun0 Hsave0.
      rewrite Hwd in Hwd0. injection Hwd0 as <- <-.
      rewrite (resolveRecursive_fuel_mono fuel fuel') in Hrun0 by (by rewrite ?Hrun).
      rewrite Hrun in Hrun0. injection Hrun0 as <-. congruence.
Qed.
End FuelFacts.

Section ResolveFacts.
Context `{Collaborators}.

(** What [Resolve] adds to the trace: the events of the descent, and the
    save if the descent has come back without an error. *)
Lemma Resolve_events fuel update st :
  (∃ msg w, os_Getwd (world st) = (Fail msg, w) ∧
     trace (Resolve fuel update st).2 = trace st ∧
     (Resolve fuel update st).1 =
       Err (withMessage (errorString msg) "get current working directory")) ∨
  (∃ cwd w o st2 evs,
     os_Getwd (world st) = (Return cwd, w) ∧
     resolveRecursive fuel cwd (Root (DependencyGraph (this st)))
       (latest.Dependencies (BaseConfig (this st))) update (withWorld w st) = (o, st2) ∧
     descent (withWorld w st) evs o st2 ∧
     ((stopped (match o with Err e => Err (surfaced e) | other => other end)
               (Resolve fuel update st).1 ∧
       (Resolve fuel update st).2 = st2) ∨
      (o = Ok tt ∧
       trace (Resolve fuel update st).2
         = trace st ++ evs ++ [EvSave (BaseCache (this st))] ∧
       match generated_Save (generatedSaver (this st)) (BaseCache (this st)) (world st2) with
       | (Fail msg, w') =>
           (Resolve fuel update st).1 = Err (errorString msg) ∧
           DependencyGraph (this (Resolve fuel update st).2) = DependencyGraph (this st2)
       | (Return _, w') =>
           Resolve fuel update st =
           buildDependencyQueue
             (withWorld w' (withEvent (EvSave (BaseCache (this st))) st2))
       end))).
Proof.
  apply (Resolve_elim (λ r,
    (∃ msg w, os_Getwd (world st) = (Fail msg, w) ∧ trace r.2 = trace st ∧
       r.1 = Err (withMessage (errorString msg) "get current working directory")) ∨
    (∃ cwd w o st2 evs,
       os_Getwd (world st) = (Return cwd, w) ∧
       resolveRecursive fuel cwd (Root (DependencyGraph (this st)))
         (latest.Dependencies (BaseConfig (this st))) update (withWorld w st) = (o, st2) ∧
       descent (withWorld w st) evs o st2 ∧
       ((stopped (match o with Err e => Err (surfaced e) | other => other end) r.1 ∧
         r.2 = st2) ∨
        (o = Ok tt ∧
         trace r.2 = trace st ++ evs ++ [EvSave (BaseCache (this st))] ∧
         match generated_Save (generatedSaver (this st)) (BaseCache (this st)) (world st2) with
         | (Fail msg, w') =>
             r.1 = Err (errorString msg) ∧
             DependencyGraph (this r.2) = DependencyGraph (this st2)
         | (Return _, w') =>
             r = buildDependencyQueue
                   (withWorld w' (withEvent (EvSave (BaseCache (this st))) st2))
         end))))); simpl.
  - intros msg w Hwd. left. eauto.
  - intros cwd w o o' st2 Hwd Hrun Hstop. right.
    destruct (resolveRecursive_descent fuel cwd (Root (DependencyGraph (this st)))
                (latest.Dependencies (BaseConfig (this st))) update (withWorld w st))
      as [evs Hd].
    rewrite Hrun in Hd. simpl in Hd. exists cwd, w, o, st2, evs. split_and!; [done .. |]. by left.
  - intros cwd w st2 msg w' Hwd Hrun Hsave. right.
    destruct (resolveRecursive_descent fuel cwd (Root (DependencyGraph (this st)))
                (latest.Dependencies (BaseConfig (this st))) update (withWorld w st))
      as [evs Hd].
    rewrite Hrun in Hd. simpl in Hd. exists cwd, w, (Ok tt), st2, evs. split_and!; [done .. |].
    right. rewrite Hsave. split_and!; [done | | done | done].
    simpl. rewrite (d_trace _ _ _ _ Hd). simpl. by rewrite <- app_assoc.
  - intros cwd w st2 w' Hwd Hrun Hsave. right.
    destruct (resolveRecursive_descent fuel cwd (Root (DependencyGraph (this st)))
                (latest.Dependencies (BaseConfig (this st))) update (withWorld w st))
      as [evs Hd].
    rewrite Hrun in Hd. simpl in Hd. exists cwd, w, (Ok tt), st2, evs. split_and!; [done .. |].
    right. rewrite Hsave. split_and!; [done | | done].
    simpl. rewrite (d_trace _ _ _ _ Hd). simpl. by rewrite <- app_assoc.
Qed.

(** An error of addEdge during [Resolve] is a tolerated cycle error, or it
    is what the descent and, surfaced, [Resolve] return. *)
Lemma Resolve_edge_errors fuel update st evs e :
  trace (Resolve fuel update st).2 = trace st ++ evs →
  e ∈ edgeErrors evs →
  (is_cyclicError e = true ∧ AllowCyclic (this st) = true) ∨
  ((Resolve fuel update st).1 = Err (surfaced e) ∧
   ∃ cwd w, os_Getwd (world st) = (Return cwd, w) ∧
            (resolveRecursive fuel cwd (Root (DependencyGraph (this st)))
               (latest.Dependencies (BaseConfig (this st))) update (withWorld w st)).1
            = Err e).
Proof.
  intros Htrace Hin.
  destruct (Resolve_events fuel update st)
    as [(msg & w & _ & Htr & _) |
        (cwd & w & o & st2 & evs0 & Hwd & Hrun & Hd & [[Hstop Hst2] | (Ho & Htr & _)])].
  - rewrite Htr in Htrace. rewrite <- (app_nil_r (trace st)) in Htrace at 1.
    apply app_inv_head in Htrace as <-. by apply not_elem_of_nil in Hin.
  - rewrite Hst2, (d_trace _ _ _ _ Hd) in Htrace. simpl in Htrace.
    apply app_inv_head in Htrace as <-.
    destruct (d_edgeErrors _ _ _ _ Hd e Hin) as [Hallowed | ->]; [by left | right].
    split; [| exists cwd, w; by rewrite Hrun].
    by inversion Hstop.
  - rewrite Htr in Htrace. apply app_inv_head in Htrace as <-.
    rewrite edgeErrors_app in Hin. simpl in Hin. rewrite app_nil_r in Hin.
    destruct (d_edgeErrors _ _ _ _ Hd e Hin) as [Hallowed | ->]; [by left | done].
Qed.

Lemma stopped_not_Ok {A B : Type} (o : outcome A) (o' : outcome B) b :
  stopped o o' → o' ≠ Ok b.
Proof. by inversion 1. Qed.

(** On a well-formed graph [buildDependencyQueue] comes back with a list:
    the loop neither fails nor runs out of its budget. *)
Lemma buildDependencyQueue_succeeds st :
  wf_graph (DependencyGraph (this st)) →
  ∃ l, (buildDependencyQueue st).1 = Ok l.
Proof.
  intros Hwf. unfold buildDependencyQueue. simpl.
  destruct (drain_spec (size (Nodes (DependencyGraph (this st))))
              (DependencyGraph (this st)) [] Hwf) as (order & ds & g' & Hrun & _); [lia |].
  rewrite Hrun. by exists ds.
Qed.

(** [Resolve] returns a list whenever the descent and the save succeed. *)
Lemma Resolve_succeeds fuel update st cwd w st2 w' :
  wf_graph (DependencyGraph (this st)) →
  os_Getwd (world st) = (Return cwd, w) →
  resolveRecursive fuel cwd (Root (DependencyGraph (this st)))
    (latest.Dependencies (BaseConfig (this st))) update (withWorld w st) = (Ok tt, st2) →
  generated_Save (generatedSaver (this st)) (BaseCache (this st)) (world st2)
  = (Return tt, w') →
  ∃ l, (Resolve fuel update st).1 = Ok l.
Proof.
  intros Hwf Hwd Hdescent Hsave.
  destruct (Resolve_events fuel update st)
    as [(msg & w0 & Hwd0 & _) |
        (cwd0 & w0 & o & st0 & evs & Hwd0 & Hrun & Hd & Hcases)]; [congruence |].
  rewrite Hwd in Hwd0. injection Hwd0 as <- <-.
  rewrite Hdescent in Hrun. injection Hrun as <- <-.
  destruct Hcases as [[Hstop _] | (_ & _ & Hqueue)]; [inversion Hstop |].
  rewrite Hsave in Hqueue. rewrite Hqueue.
  apply buildDependencyQueue_succeeds. simpl. by apply (d_wf _ _ _ _ Hd).
Qed.

Lemma drain_payloads fuel : ∀ (g : graph Dependency) acc l g',
  drain fuel g acc = (Ok l, g') →
  ∀ d, d ∈ l → d ∈ acc ∨ ∃ id, payload g id = Some d.
Proof.
  induction fuel as [| fuel IH]; intros g acc l g'; simpl.
  - case_decide; [done |]. intros [= <- <-]. auto.
  - case_decide; [| intros [= <- <-]; auto].
    case_decide; [intros [= <- <-]; auto |].
    destruct (payload g (getNextLeaf g (Root g))) as [dependency |] eqn:Hd; [| done].
    destruct (removeNode g (getNextLeaf g (Root g))) as [g1 | | |] eqn:Hrm; try done.
    intros Hrun d Hin.
    destruct (IH _ _ _ _ Hrun d Hin) as [[? | ->%list_elem_of_singleton]%elem_of_app
                                         | (id & Hid)]; [auto | eauto |].
    right. exists id. unfold removeNode in Hrm.
    case_decide; [done |].
    destruct (Nodes g !! getNextLeaf g (Root g)) as [n |]; [| by simplify_eq].
    destruct (liveChilds g n); [| done]. injection Hrm as <-.
    destruct (decide (id = getNextLeaf g (Root g))) as [-> | Hne].
    + unfold payload, without in Hid. simpl in Hid.
      by rewrite lookup_fmap, lookup_delete_eq in Hid.
    + by rewrite <- (removed_payload g (getNextLeaf g (Root g)) id).
Qed.
End ResolveFacts.

Section Claims.
Context `{Collaborators}.


(** C2.  With cycle tolerance disabled, a cycle error that addEdge comes
    back with during a run of Resolve is what Resolve returns, as the same
    value: no dependency list, no wrapping, so that the type assertion on
    the result succeeds; and it is what resolveRecursive has returned to
    Resolve. *)
Theorem Resolve_cycle_error_verbatim fuel update st evs e :
  AllowCyclic (this st) = false →
  trace (Resolve fuel update st).2 = trace st ++ evs →
  e ∈ edgeErrors evs →
  is_cyclicError e = true →
  (Resolve fuel update st).1 = Err e ∧
  ∃ cwd w, os_Getwd (world st) = (Return cwd, w) ∧
           (resolveRecursive fuel cwd (Root (DependencyGraph (this st)))
              (latest.Dependencies (BaseConfig (this st))) update (withWorld w st)).1
           = Err e.
Proof.
  intros Hallow Htrace Hin Hcyc.
  destruct (Resolve_edge_errors fuel update st evs e Htrace Hin)
    as [[_ Hallowed] | [Herr Hdescent]]; [congruence |].
  split; [| done]. rewrite Herr. unfold surfaced. by rewrite Hcyc.
Qed.

(** C3.  A declaration whose identity is a node of the graph and for which
    addEdge fails: with cycle tolerance enabled and the cycle error,
    resolveRecursive goes on with the remaining declarations from the same
    state (the graph as it was, the edge not added); with any other error
    it returns that error, whatever the tolerance flag says, and so does
    every level above it: in a run of Resolve, an error of addEdge that is
    not the cycle error is what Resolve returns, wrapped once. *)
Theorem resolveRecursive_addEdge_failure fuel basePath parentID dependencyConfig rest
    update st e :
  let id := util_GetDependencyID basePath (latest.Source dependencyConfig)
              (latest.Profile dependencyConfig) (world st) in
  present (DependencyGraph (this st)) id →
  addEdge (DependencyGraph (this st)) parentID id = Err e →
  (is_cyclicError e = true → AllowCyclic (this st) = true →
   resolveRecursive (S fuel) basePath parentID (dependencyConfig :: rest) update st =
   resolveRecursive (S fuel) basePath parentID rest update
     (withEvent (EvAddEdge parentID id (Some e)) st)) ∧
  (is_cyclicError e = false →
   resolveRecursive (S fuel) basePath parentID (dependencyConfig :: rest) update st =
   (Err e, withEvent (EvAddEdge parentID id (Some e)) st)) ∧
  (∀ fuel0 st0 evs e0,
     trace (Resolve fuel0 update st0).2 = trace st0 ++ evs →
     e0 ∈ edgeErrors evs →
     is_cyclicError e0 = false →
     (Resolve fuel0 update st0).1
     = Err (withMessage e0 "resolve dependencies recursive")).
Proof.
  intros id Hpresent Hadd. rewrite resolveRecursive_cons. split_and!.
  3:{ intros fuel0 st0 evs e0 Htrace Hin Hfatal.
      destruct (Resolve_edge_errors fuel0 update st0 evs e0 Htrace Hin)
        as [[? _] | [Herr _]]; [congruence |].
      rewrite Herr. unfold surfaced. by rewrite Hfatal. }
  - intros Hcyc Hallow.
    assert (resolveRecursive_body (resolveRecursive fuel) basePath parentID
              dependencyConfig update st
            = (Ok tt, withEvent (EvAddEdge parentID id (Some e)) st)) as Hbody.
    { apply (resolveRecursive_body_elim
               (λ r, r = (Ok tt, withEvent (EvAddEdge parentID id (Some e)) st)));
        fold id; simpl; try (intros; done); try (intros; congruence).
      intros e' _ He' Hfatal. assert (e' = e) as -> by congruence.
      destruct Hfatal; congruence. }
    by rewrite (bind_Ok _ _ _ _ _ Hbody).
  - intros Hcyc.
    assert (resolveRecursive_body (resolveRecursive fuel) basePath parentID
              dependencyConfig update st
            = (Err e, withEvent (EvAddEdge parentID id (Some e)) st)) as Hbody.
    { apply (resolveRecursive_body_elim
               (λ r, r = (Err e, withEvent (EvAddEdge parentID id (Some e)) st)));
        fold id; simpl; try (intros; done); try (intros; congruence). }
    by rewrite (bind_Err _ _ _ _ _ Hbody).
Qed.

(** C4.  The list of a successful Resolve is leaf before parent.  With [g]
    the graph as the descent has left it (well formed, if it was so at the
    start), the list holds the payloads of the nodes of [g] other than the
    root, each once, in the order in which the loop of buildDependencyQueue
    has taken them with getNextLeaf and removed them; for every edge from a
    parent other than the root to a child, the child comes strictly before
    the parent; the root is not in the list, and every child of the root
    is. *)
Theorem Resolve_leaf_before_parent fuel update st l st' :
  wf_graph (DependencyGraph (this st)) →
  Resolve fuel update st = (Ok l, st') →
  ∃ cwd w st2 order,
    os_Getwd (world st) = (Return cwd, w) ∧
    resolveRecursive fuel cwd (Root (DependencyGraph (this st)))
      (latest.Dependencies (BaseConfig (this st))) update (withWorld w st)
    = (Ok tt, st2) ∧
    let g := DependencyGraph (this st2) in
    (drain (size (Nodes g)) g []).1 = Ok l ∧
    Forall2 (λ id d, payload g id = Some d) order l ∧
    NoDup order ∧
    (∀ id, id ∈ order ↔ present g id ∧ id ≠ Root g) ∧
    (∀ p c, edge g p c → p ≠ Root g → precedes order c p) ∧
    (∀ c, edge g (Root g) c → c ∈ order).
Proof.
  intros Hwf Hrun.
  destruct (Resolve_events fuel update st)
    as [(msg & w & _ & _ & Herr) |
        (cwd & w & o & st2 & evs0 & Hwd & Hdesc & Hd & [[Hstop _] | (-> & _ & Hsave)])].
  - rewrite Hrun in Herr. done.
  - rewrite Hrun in Hstop. simpl in Hstop. inversion Hstop.
  - destruct (generated_Save _ _ _) as [[[] | msg] w'].
    2:{ destruct Hsave as [Herr _]. by rewrite Hrun in Herr. }
    rewrite Hrun in Hsave. unfold buildDependencyQueue in Hsave. simpl in Hsave.
    set (g := DependencyGraph (this st2)) in *.
    assert (wf_graph g) as Hwfg by (by apply (d_wf _ _ _ _ Hd)).
    destruct (drain_spec (size (Nodes g)) g [] Hwfg)
      as (order & ds & g' & Hdrain & Hpay & Hnodup & Hmem & Hord); [lia |].
    rewrite Hdrain in Hsave. simpl in Hsave. injection Hsave as -> _.
    exists cwd, w, st2, order. cbv zeta. fold g. rewrite Hdrain.
    split_and!; [done .. |].
    intros c Hc. apply Hmem. split; [by eapply wf_closed |].
    intros ->. by eapply wf_no_edge_to_root.
Qed.

(** C5.  The base cache is saved exactly once by a run of Resolve whose
    descent has come back without an error, as the last thing the run adds
    to the trace, and not at all by any other run: when the working
    directory cannot be read or resolveRecursive does not return
    successfully, nothing is saved and Resolve does not return a list; when
    the save fails, Resolve returns its error and the graph is left as the
    descent has built it (no list is built). *)
Theorem Resolve_saves_once fuel update st :
  let out := Resolve fuel update st in
  let added := drop (length (trace st)) (trace out.2) in
  match os_Getwd (world st) with
  | (Fail _, _) => saved added = [] ∧ ∀ l, out.1 ≠ Ok l
  | (Return cwd, w) =>
      let d := resolveRecursive fuel cwd (Root (DependencyGraph (this st)))
                 (latest.Dependencies (BaseConfig (this st))) update (withWorld w st) in
      ∃ evs, trace d.2 = trace st ++ evs ∧ saved evs = [] ∧
        match d.1 with
        | Ok _ =>
            added = evs ++ [EvSave (BaseCache (this st))] ∧
            saved added = [BaseCache (this st)] ∧
            match generated_Save (generatedSaver (this st)) (BaseCache (this st))
                    (world d.2) with
            | (Fail msg, _) =>
                out.1 = Err (errorString msg) ∧
                DependencyGraph (this out.2) = DependencyGraph (this d.2)
            | (Return _, w') =>
                out = buildDependencyQueue
                        (withWorld w' (withEvent (EvSave (BaseCache (this st))) d.2))
            end
        | _ => added = evs ∧ ∀ l, out.1 ≠ Ok l
        end
  end.
Proof.
  intros out added.
  destruct (Resolve_events fuel update st)
    as [(msg & w & Hwd & Htr & Herr) |
        (cwd & w & o & st2 & evs & Hwd & Hrun & Hd & Hcases)];
    rewrite Hwd.
  - unfold added, out. rewrite Htr, drop_ge by done. split; [done |].
    intros l. by rewrite Herr.
  - simpl. rewrite Hrun. simpl. exists evs.
    split_and!; [apply (d_trace _ _ _ _ Hd) | apply (d_saved _ _ _ _ Hd) |].
    destruct Hcases as [[Hstop Hst2] | (-> & Htr & Hsave)].
    + assert (added = evs) as Hadded.
      { unfold added, out. rewrite Hst2, (d_trace _ _ _ _ Hd). simpl.
        by rewrite drop_app_length. }
      assert (∀ l, out.1 ≠ Ok l) as Hout
        by (intros l; by eapply stopped_not_Ok).
      destruct o; [by inversion Hstop | done ..].
    + assert (added = evs ++ [EvSave (BaseCache (this st))]) as Hadded.
      { unfold added, out. rewrite Htr. by rewrite drop_app_length. }
      split_and!; [done | | done].
      by rewrite Hadded, saved_app, (d_saved _ _ _ _ Hd).
Qed.
End Claims.

(** ** Facts about strings *)

Lemma prefix_append (s t : string) : String.prefix s (s ++ t)%string = true.
Proof.
  induction s as [| a s IH]; simpl; [by destruct t |].
  by destruct (Ascii.ascii_dec a a).
Qed.

Lemma Contains_prefix (s sub : string) : String.prefix sub s = true → Contains s sub = true.
Proof. intros Hp. destruct s; simpl in *; by rewrite Hp. Qed.

Lemma Contains_append_r (a s sub : string) :
  Contains s sub = true → Contains (a ++ s)%string sub = true.
Proof.
  intros Hs. induction a as [| x a IH]; simpl; [done |].
  rewrite IH. apply orb_true_r.
Qed.

Lemma Contains_middle (a b c : string) : Contains (a ++ b ++ c)%string b = true.
Proof. apply Contains_append_r, Contains_prefix, prefix_append. Qed.

Section Claims.
Context `{Collaborators}.

(** C7.  A Dependency that resolveDependency returns has the loaded
    configuration in which the Dev section is replaced by an empty dev
    config, whatever it was; its Images are the empty map when the
    declaration sets SkipBuild to true and the loaded Images otherwise. *)
Theorem resolveDependency_overrides_config basePath dependency update st dep st' :
  resolveDependency basePath dependency update st = (Ok dep, st') →
  latest.Dev (Config dep) = Some DevConfig_zero ∧
  (latest.SkipBuild dependency = Some true → latest.Images (Config dep) = ∅) ∧
  ∃ id localPath w1 cloned loaded w2,
    util_DownloadDependency basePath (latest.Source dependency)
      (latest.Profile dependency) update (world st) = (Return (id, localPath), w1) ∧
    ConfigOptions_Clone (ConfigOptions (this st)) = Return cloned ∧
    loadConfig (dependencyOptions (this st) dependency localPath cloned) w1
      = (Return loaded, w2) ∧
    (latest.SkipBuild dependency ≠ Some true →
     latest.Images (Config dep) = latest.Images loaded) ∧
    latest.Dependencies (Config dep) = latest.Dependencies loaded.
Proof.
  intros (id & localPath & w1 & cloned & loaded & w2 & commands & w3 &
          Hdl & Hclone & Hload & _ & _ & _ & Hconfig & _)%resolveDependency_Ok_inv.
  rewrite Hconfig. unfold overrideConfig. split_and!.
  - by case_decide.
  - intros Hskip. by rewrite decide_True.
  - exists id, localPath, w1, cloned, loaded, w2. split_and!; [done .. | |].
    + intros Hskip. by rewrite decide_False.
    + by case_decide.
Qed.

(** C8, as the code has it.  resolveDependency never changes the
    resolver's own client.  A declaration with an empty namespace gets the
    resolver's client; a declaration with a namespace, be it the current
    client's or another, gets a client that the client factory has made
    for that namespace under the context of the resolver's client (the
    empty context when the resolver has none). *)
Theorem resolveDependency_client basePath dependency update st :
  client (this (resolveDependency basePath dependency update st).2) = client (this st) ∧
  ∀ dep st', resolveDependency basePath dependency update st = (Ok dep, st') →
    (latest.Namespace dependency = "" → kubeClient dep = client (this st)) ∧
    (latest.Namespace dependency ≠ "" →
     ∃ created w w',
       kubectl_NewClientFromContext
         (match client (this st) with
          | Some current => Client_CurrentContext current
          | None => ""
          end)
         (latest.Namespace dependency) false (kubeLoader (this st)) w
       = (Return created, w') ∧
       kubeClient dep = Some created).
Proof.
  split.
  - by destruct (resolveDependency_emits basePath dependency update st) as [-> _].
  - intros dep st'
      (id & localPath & w1 & cloned & loaded & w2 & commands & w3 &
       _ & _ & _ & _ & _ & _ & _ & _ & _ & _ & Hclient & _)%resolveDependency_Ok_inv.
    case_decide; split; done.
Qed.

(** C9, as the code has it.  Once the source is acquired and the options
    are cloned: a failure to load the configuration makes resolveDependency
    return that error wrapped with a message that names the dependency's
    identity; a failure to parse the commands makes it return that error
    wrapped with the words "parse dependency commands"; either way it
    returns an error and no Dependency. *)
Theorem resolveDependency_config_failure basePath dependency update st
    id localPath w1 cloned :
  util_DownloadDependency basePath (latest.Source dependency)
    (latest.Profile dependency) update (world st) = (Return (id, localPath), w1) →
  ConfigOptions_Clone (ConfigOptions (this st)) = Return cloned →
  let options := dependencyOptions (this st) dependency localPath cloned in
  (∀ msg w2, loadConfig options w1 = (Fail msg, w2) →
     (resolveDependency basePath dependency update st).1
     = Err (withMessage (errorString msg) ("loading config for dependency " ++ id)) ∧
     Contains (Error (withMessage (errorString msg)
                        ("loading config for dependency " ++ id))) id = true) ∧
  (∀ loaded w2 msg w3, loadConfig options w1 = (Return loaded, w2) →
     ConfigLoader_ParseCommands options w2 = (Fail msg, w3) →
     (resolveDependency basePath dependency update st).1
     = Err (withMessage (errorString msg) "parse dependency commands")).
Proof.
  intros Hdl Hclone options.
  assert (∀ (k : loader.ConfigOptions → M Dependency),
            (wrapErr (liftReply (ConfigOptions_Clone (ConfigOptions (this st))))
               "clone config options" ≫= k) (withWorld w1 st)
            = k cloned (withWorld w1 st)) as Hcloned.
  { intros k. apply bind_Ok. apply wrapErr_Ok.
    unfold liftReply, call. simpl. by rewrite Hclone. }
  assert (∀ st0, (if decide (loader.Profile options = "")
                  then call (ConfigLoader_LoadWithoutProfile options)
                  else call (ConfigLoader_Load options)) st0
                 = call (loadConfig options) st0) as Hloading.
  { intros st0. unfold loadConfig. by case_decide. }
  split.
  - intros msg w2 Hload.
    split; [| apply Contains_middle with (a := "loading config for dependency ")].
    unfold resolveDependency.
    erewrite bind_Ok by (by apply call_Return). cbv beta iota.
    erewrite bind_Ok by reflexivity.
    change (this (withWorld w1 st)) with (this st).
    rewrite Hcloned. cbv zeta. fold options.
    erewrite bind_Ok by reflexivity.
    erewrite bind_Err; [done |].
    apply wrapErr_Err. rewrite Hloading. by apply call_Fail.
  - intros loaded w2 msg w3 Hload Hparse.
    unfold resolveDependency.
    erewrite bind_Ok by (by apply call_Return). cbv beta iota.
    erewrite bind_Ok by reflexivity.
    change (this (withWorld w1 st)) with (this st).
    rewrite Hcloned. cbv zeta. fold options.
    erewrite bind_Ok by reflexivity.
    erewrite bind_Ok;
      [| apply wrapErr_Ok; rewrite Hloading; by apply call_Return].
    erewrite bind_Err; [done |].
    apply wrapErr_Err. by apply call_Fail.
Qed.

(** C10.  A Dependency that resolveDependency returns holds the address of
    the resolver's base cache in DependencyCache, not a copy; the
    configuration it holds was loaded by the one configuration loader of
    the call, whose options point at that same address; the resolver's
    BaseCache is the same afterwards.  Hence, after resolveRecursive, every
    payload that the graph did not have before has the resolver's base
    cache as its DependencyCache. *)
Theorem resolveDependency_shares_BaseCache basePath dependency update st dep st' :
  resolveDependency basePath dependency update st = (Ok dep, st') →
  DependencyCache dep = BaseCache (this st) ∧
  BaseCache (this st') = BaseCache (this st) ∧
  (∃ options w1 loaded w2,
     loaderOptions (drop (length (trace st)) (trace st')) = [options] ∧
     loader.GeneratedConfig options = Some (BaseCache (this st)) ∧
     loadConfig options w1 = (Return loaded, w2) ∧
     Config dep = overrideConfig dependency loaded) ∧
  (∀ fuel basePath' parentID dependencies st0 id d,
     payload (DependencyGraph
                (this (resolveRecursive fuel basePath' parentID dependencies
                         update st0).2)) id = Some d →
     payload (DependencyGraph (this st0)) id = Some d ∨
     DependencyCache d = BaseCache (this st0)).
Proof.
  intros (id & localPath & w1 & cloned & loaded & w2 & commands & w3 &
          _ & _ & Hload & _ & _ & _ & Hconfig & _ & _ & Hcache & _ & Hthis & Htrace)
         %resolveDependency_Ok_inv.
  split_and!; [done | by rewrite Hthis | |].
  - exists (dependencyOptions (this st) dependency localPath cloned), w1, loaded, w2.
    rewrite Htrace, drop_app_length. done.
  - intros fuel basePath' parentID dependencies st0 id' d.
    destruct (resolveRecursive_descent fuel basePath' parentID dependencies update st0)
      as [evs Hd].
    apply (d_payload _ _ _ _ Hd).
Qed.
End Claims.

(** ** The statements on concrete projects *)

Import Scenario.

Lemma from_empty_trace `{Collaborators} (st : state) (t : list event) :
  trace st = [] → t = trace st ++ t.
Proof. by intros ->. Qed.


(** The diamond of section 8 of the specification: R is materialized once,
    P and Q both point to the one node R, and the order is R, P, Q. *)
Example diamond_shares_R :
  let descended := (resolveRecursive 3 "/work" "root"
                      [declare "P"; declare "Q"] false diamond).2 in
  materialized (trace descended) = ["P"; "R"; "Q"] ∧
  Childs <$> (Nodes (DependencyGraph (this descended)) !! "P") = Some ["R"] ∧
  Childs <$> (Nodes (DependencyGraph (this descended)) !! "Q") = Some ["R"] ∧
  ID <$> listOf (Resolve 3 false diamond).1 = ["R"; "P"; "Q"].
Proof. vm_compute. done. Qed.

Lemma Resolve_cycle_error_verbatim_witness :
  AllowCyclic (this (cycle false)) = false ∧
  cyclicError "B" "A" ∈ edgeErrors (trace (Resolve 3 false (cycle false)).2) ∧
  (Resolve 3 false (cycle false)).1 = Err (cyclicError "B" "A").
Proof.
  assert (cyclicError "B" "A" ∈ edgeErrors (trace (Resolve 3 false (cycle false)).2)) as Hin
    by (vm_compute; left).
  split; [reflexivity |]. split; [exact Hin |].
  apply (Resolve_cycle_error_verbatim 3 false (cycle false) _ (cyclicError "B" "A")
           eq_refl (from_empty_trace (cycle false) _ eq_refl) Hin eq_refl).
Defined.

Lemma resolveRecursive_addEdge_failure_witness :
  (let id := util_GetDependencyID "/deps/B" (latest.Source (declare "A"))
               (latest.Profile (declare "A")) (world (chained true)) in
   present (DependencyGraph (this (chained true))) id ∧
   addEdge (DependencyGraph (this (chained true))) "B" id = Err (cyclicError "B" "A") ∧
   resolveRecursive 1 "/deps/B" "B" [declare "A"] false (chained true) =
   resolveRecursive 1 "/deps/B" "B" [] false
     (withEvent (EvAddEdge "B" id (Some (cyclicError "B" "A"))) (chained true))) ∧
  (let id := util_GetDependencyID "/deps/C" (latest.Source (declare "A"))
               (latest.Profile (declare "A")) (world (chained false)) in
   present (DependencyGraph (this (chained false))) id ∧
   addEdge (DependencyGraph (this (chained false))) "C" id
   = Err (errorString "fromID C does not exist") ∧
   resolveRecursive 1 "/deps/C" "C" [declare "A"] false (chained false) =
   (Err (errorString "fromID C does not exist"),
    withEvent (EvAddEdge "C" id (Some (errorString "fromID C does not exist")))
      (chained false))).
Proof.
  split; intros id.
  - assert (present (DependencyGraph (this (chained true))) id) as Hpresent
      by (vm_compute; eauto).
    assert (addEdge (DependencyGraph (this (chained true))) "B" id
            = Err (cyclicError "B" "A")) as Hcycle by (vm_compute; reflexivity).
    split; [exact Hpresent |]. split; [exact Hcycle |].
    apply (proj1 (resolveRecursive_addEdge_failure 0 "/deps/B" "B" (declare "A") []
                    false (chained true) _ Hpresent Hcycle));
      vm_compute; reflexivity.
  - assert (present (DependencyGraph (this (chained false))) id) as Hpresent
      by (vm_compute; eauto).
    assert (addEdge (DependencyGraph (this (chained false))) "C" id
            = Err (errorString "fromID C does not exist")) as Habsent
      by (vm_compute; reflexivity).
    split; [exact Hpresent |]. split; [exact Habsent |].
    apply (proj1 (proj2 (resolveRecursive_addEdge_failure 0 "/deps/C" "C" (declare "A") []
                           false (chained false) _ Hpresent Habsent)));
      vm_compute; reflexivity.
Defined.

Lemma Resolve_leaf_before_parent_witness :
  wf_graph (DependencyGraph (this diamond)) ∧
  Resolve 3 false diamond
  = (Ok (listOf (Resolve 3 false diamond).1), (Resolve 3 false diamond).2) ∧
  ID <$> listOf (Resolve 3 false diamond).1 = ["R"; "P"; "Q"] ∧
  ∃ st2 order,
    Forall2 (λ id d, payload (DependencyGraph (this st2)) id = Some d)
      order (listOf (Resolve 3 false diamond).1) ∧
    NoDup order ∧
    ∀ p c, edge (DependencyGraph (this st2)) p c →
           p ≠ Root (DependencyGraph (this st2)) → precedes order c p.
Proof.
  assert (Resolve 3 false diamond
          = (Ok (listOf (Resolve 3 false diamond).1), (Resolve 3 false diamond).2)) as Hrun
    by (vm_compute; reflexivity).
  split; [apply newGraph_wf |]. split; [exact Hrun |]. split; [vm_compute; reflexivity |].
  destruct (Resolve_leaf_before_parent 3 false diamond _ _ (newGraph_wf "root") Hrun)
    as (cwd & w & st2 & order & _ & _ & _ & Hpay & Hnodup & _ & Hord & _).
  exists st2, order. split; [exact Hpay |]. split; [exact Hnodup | exact Hord].
Defined.

Lemma resolveDependency_overrides_config_witness :
  ∃ dep st',
    resolveDependency "/work" (skipBuild (declare "P")) false single = (Ok dep, st') ∧
    latest.Dev (Config dep) = Some DevConfig_zero ∧
    latest.Images (Config dep) = ∅.
Proof.
  destruct (resolveDependency "/work" (skipBuild (declare "P")) false single)
    as [[dep | e | |] st'] eqn:Hrun; [| vm_compute in Hrun; discriminate Hrun ..].
  exists dep, st'. split; [reflexivity |].
  destruct (resolveDependency_overrides_config _ _ _ _ _ _ Hrun) as (Hdev & Himages & _).
  split; [exact Hdev | apply Himages; reflexivity].
Defined.

(** A declaration that names the namespace of the resolver's own client
    still gets a client of its own from the factory. *)
Lemma resolveDependency_client_counterexample :
  client (this withClient) = Some teamClient ∧
  latest.Namespace (inNamespace "team" (declare "P")) = Client_Namespace teamClient ∧
  ∃ dep st',
    resolveDependency "/work" (inNamespace "team" (declare "P")) false withClient
    = (Ok dep, st') ∧
    kubeClient dep ≠ client (this withClient).
Proof.
  split; [reflexivity |]. split; [reflexivity |].
  destruct (resolveDependency "/work" (inNamespace "team" (declare "P")) false withClient)
    as [[dep | e | |] st'] eqn:Hrun; [| vm_compute in Hrun; discriminate Hrun ..].
  exists dep, st'. split; [reflexivity |].
  vm_compute in Hrun. injection Hrun as <- _. vm_compute. discriminate.
Qed.

Lemma resolveDependency_client_witness :
  ∃ dep st',
    resolveDependency "/work" (inNamespace "team" (declare "P")) false withClient
    = (Ok dep, st') ∧
    ∃ created w w',
      kubectl_NewClientFromContext "kind" "team" false tt w = (Return created, w') ∧
      kubeClient dep = Some created.
Proof.
  destruct (resolveDependency "/work" (inNamespace "team" (declare "P")) false withClient)
    as [[dep | e | |] st'] eqn:Hrun; [| vm_compute in Hrun; discriminate Hrun ..].
  exists dep, st'. split; [reflexivity |].
  destruct (resolveDependency_client "/work" (inNamespace "team" (declare "P")) false
              withClient) as [_ Hok].
  destruct (Hok dep st' Hrun) as [_ Hmade].
  apply Hmade. discriminate.
Defined.

(** A failure to parse the commands comes back without the identity. *)
Lemma resolveDependency_config_failure_counterexample :
  util_DownloadDependency "/work" (latest.Source (declare "P")) "" false
    (world unreadableCommands) = (Return ("P", "/deps/P"), world unreadableCommands) ∧
  ∃ e st',
    resolveDependency "/work" (declare "P") false unreadableCommands = (Err e, st') ∧
    Error e = "parse dependency commands: commands: unexpected type" ∧
    Contains (Error e) "P" = false.
Proof.
  split; [reflexivity |].
  destruct (resolveDependency "/work" (declare "P") false unreadableCommands)
    as [[dep | e | |] st'] eqn:Hrun; [vm_compute in Hrun; discriminate Hrun | |
                                      vm_compute in Hrun; discriminate Hrun ..].
  exists e, st'. split; [reflexivity |].
  vm_compute in Hrun. injection Hrun as <- _. split; vm_compute; reflexivity.
Qed.

Lemma resolveDependency_config_failure_witness :
  (util_DownloadDependency "/work" (latest.Source (declare "P")) (latest.Profile (declare "P"))
     false (world unreadableConfig) = (Return ("P", "/deps/P"), world unreadableConfig) ∧
   ConfigOptions_Clone (ConfigOptions (this unreadableConfig))
   = Return (ConfigOptions (this unreadableConfig)) ∧
   (resolveDependency "/work" (declare "P") false unreadableConfig).1
   = Err (withMessage (errorString "yaml: unmarshal errors")
            ("loading config for dependency " ++ "P"))) ∧
  (util_DownloadDependency "/work" (latest.Source (declare "P")) (latest.Profile (declare "P"))
     false (world unreadableCommands) = (Return ("P", "/deps/P"), world unreadableCommands) ∧
   ConfigOptions_Clone (ConfigOptions (this unreadableCommands))
   = Return (ConfigOptions (this unreadableCommands)) ∧
   (resolveDependency "/work" (declare "P") false unreadableCommands).1
   = Err (withMessage (errorString "commands: unexpected type")
            "parse dependency commands")).
Proof.
  split.
  - assert (util_DownloadDependency "/work" (latest.Source (declare "P"))
              (latest.Profile (declare "P")) false (world unreadableConfig)
            = (Return ("P", "/deps/P"), world unreadableConfig)) as Hdl by reflexivity.
    assert (ConfigOptions_Clone (ConfigOptions (this unreadableConfig))
            = Return (ConfigOptions (this unreadableConfig))) as Hclone by reflexivity.
    split; [exact Hdl |]. split; [exact Hclone |].
    apply (proj1 (resolveDependency_config_failure "/work" (declare "P") false
                    unreadableConfig "P" "/deps/P" _ _ Hdl Hclone)
             "yaml: unmarshal errors" (world unreadableConfig)).
    vm_compute. reflexivity.
  - assert (util_DownloadDependency "/work" (latest.Source (declare "P"))
              (latest.Profile (declare "P")) false (world unreadableCommands)
            = (Return ("P", "/deps/P"), world unreadableCommands)) as Hdl by reflexivity.
    assert (ConfigOptions_Clone (ConfigOptions (this unreadableCommands))
            = Return (ConfigOptions (this unreadableCommands))) as Hclone by reflexivity.
    split; [exact Hdl |]. split; [exact Hclone |].
    eapply (proj2 (resolveDependency_config_failure "/work" (declare "P") false
                     unreadableCommands "P" "/deps/P" _ _ Hdl Hclone)).
    + vm_compute. reflexivity.
    + vm_compute. reflexivity.
Defined.

Lemma resolveDependency_shares_BaseCache_witness :
  ∃ dep st',
    resolveDependency "/work" (declare "P") false single = (Ok dep, st') ∧
    DependencyCache dep = BaseCache (this single) ∧
    BaseCache (this st') = BaseCache (this single).
Proof.
  destruct (resolveDependency "/work" (declare "P") false single)
    as [[dep | e | |] st'] eqn:Hrun; [| vm_compute in Hrun; discriminate Hrun ..].
  exists dep, st'. split; [reflexivity |].
  destruct (resolveDependency_shares_BaseCache _ _ _ _ _ _ Hrun) as (Hcache & Hsame & _).
  split; [exact Hcache | exact Hsame].
Defined.

(** A save that fails: it was tried once, after P had been resolved; Resolve
    returns its error and P is still in the graph. *)
Example Resolve_save_fails :
  (Resolve 3 false unsavable).1 = Err (errorString "write generated.yaml: disk full") ∧
  trace (Resolve 3 false unsavable).2
  = trace (resolveRecursive 3 "/work" "root" [declare "P"] false unsavable).2
    ++ [EvSave 1%positive] ∧
  Childs <$> (Nodes (DependencyGraph (this (Resolve 3 false unsavable).2)) !! "root")
  = Some ["P"].
Proof. vm_compute. done. Qed.

(** A descent that fails: nothing is saved. *)
Example Resolve_cycle_saves_nothing :
  (Resolve 3 false (cycle false)).1 = Err (cyclicError "B" "A") ∧
  saved (trace (Resolve 3 false (cycle false)).2) = [].
Proof. vm_compute. done. Qed.

(** The cycle of section 8 of the specification with cycle tolerance: B and
    A once each, B first. *)
Example Resolve_cycle_tolerated :
  ID <$> listOf (Resolve 3 false (cycle true)).1 = ["B"; "A"] ∧
  materialized (trace (Resolve 3 false (cycle true)).2) = ["A"; "B"] ∧
  edgeErrors (trace (Resolve 3 false (cycle true)).2) = [cyclicError "B" "A"].
Proof. vm_compute. done. Qed.

(** ** More on the resolver *)

Section ErrorFacts.
Context `{Collaborators}.

Lemma bind_Err_inv {A B : Type} (m : M A) (k : A → M B) st e st' :
  (m ≫= k) st = (Err e, st') →
  m st = (Err e, st') ∨ ∃ a st1, m st = (Ok a, st1) ∧ k a st1 = (Err e, st').
Proof.
  intros [(a & st1 & ? & ?) | (o1 & Hm & Hstop)]%bind_inv; [right; eauto |].
  left. by inversion Hstop; subst.
Qed.

Lemma call_Err_inv {A : Type} (f : World → reply A * World) st e st' :
  call f st = (Err e, st') →
  ∃ msg, e = errorString msg ∧ (f (world st)).1 = Fail msg.
Proof.
  unfold call. destruct (f (world st)).1 as [a | msg]; [done |].
  intros [= <- <-]. eauto.
Qed.

Lemma mapErr_Err_inv {A : Type} (f : error → error) (m : M A) st e st' :
  mapErr f m st = (Err e, st') → ∃ e0, m st = (Err e0, st') ∧ e = f e0.
Proof.
  unfold mapErr. destruct (m st) as [[a | e0 | |] st1]; try done.
  intros [= <- <-]. eauto.
Qed.

Lemma wrapErr_call_Err_inv {A : Type} (f : World → reply A * World) msg st e st' :
  wrapErr (call f) msg st = (Err e, st') →
  ∃ cause, e = withMessage (errorString cause) msg ∧ (f (world st)).1 = Fail cause.
Proof.
  intros (e0 & (cause & -> & Hf)%call_Err_inv & ->)%mapErr_Err_inv. eauto.
Qed.

(** The errors of [resolveDependency], by the collaborator that failed. *)
Lemma resolveDependency_Err_inv basePath dependency update st e st' :
  resolveDependency basePath dependency update st = (Err e, st') →
  (∃ msg,
     (util_DownloadDependency basePath (latest.Source dependency)
        (latest.Profile dependency) update (world st)).1 = Fail msg ∧
     e = errorString msg) ∨
  (∃ id localPath msg,
     (util_DownloadDependency basePath (latest.Source dependency)
        (latest.Profile dependency) update (world st)).1 = Return (id, localPath) ∧
     ((ConfigOptions_Clone (ConfigOptions (this st)) = Fail msg ∧
       e = withMessage (errorString msg) "clone config options") ∨
      e = withMessage (errorString msg) ("loading config for dependency " ++ id) ∨
      e = withMessage (errorString msg) "parse dependency commands" ∨
      e = errorString ("Error loading generated config for dependency "
                         ++ id ++ ": " ++ msg) ∨
      (latest.Namespace dependency ≠ "" ∧
       e = withMessage (errorString msg) "create new client") ∨
      e = withMessage (errorString msg) "create docker client")).
Proof.
  unfold resolveDependency. intros Hrun.
  apply bind_Err_inv in Hrun as [(msg & -> & Hdl)%call_Err_inv
                                 | ([id localPath] & st1 & H1 & Hrun)];
    [left; eauto |].
  right. exists id, localPath.
  apply call_Ok_inv in H1 as [Hdl ->].
  apply bind_Err_inv in Hrun as [Hrun | (r & st2 & H2 & Hrun)]; [done |].
  apply getThis_inv in H2 as [[= ->] ->].
  apply bind_Err_inv in Hrun as [(msg & -> & Hclone)%wrapErr_call_Err_inv
                                 | (cloned & st3 & H3 & Hrun)].
  { exists msg. split; [done |]. left. split; [| done].
    simpl in Hclone. by destruct (ConfigOptions_Clone _); simplify_eq. }
  cbv zeta in Hrun.
  apply bind_Err_inv in Hrun as [Hrun | ([] & st4 & H4 & Hrun)]; [done |].
  apply bind_Err_inv in Hrun as [Hload | (loaded & st5 & H5 & Hrun)].
  { case_decide; apply wrapErr_call_Err_inv in Hload as (msg & -> & _);
      exists msg; auto. }
  apply bind_Err_inv in Hrun as [(msg & -> & _)%wrapErr_call_Err_inv
                                 | (commands & st6 & H6 & Hrun)].
  { exists msg. auto. }
  apply bind_Err_inv in Hrun as [(e0 & (msg & -> & _)%call_Err_inv & ->)%mapErr_Err_inv
                                 | (dGeneratedConfig & st7 & H7 & Hrun)].
  { exists msg. simpl. auto 6. }
  apply bind_Err_inv in Hrun as [Hstore | ([] & st8 & H8 & Hrun)].
  { unfold storeActiveProfile in Hstore. by case_match. }
  apply bind_Err_inv in Hrun as [Hrun | ([] & st9 & H9 & Hrun)]; [done |].
  apply bind_Err_inv in Hrun as [Hclient | (cl & st10 & H10 & Hrun)].
  { case_decide; [| done].
    destruct (client _);
      (apply bind_Err_inv in Hclient as [(msg & -> & _)%wrapErr_call_Err_inv
                                         | (? & ? & _ & ?)]; [| done]);
      exists msg; auto 8. }
  apply bind_Err_inv in Hrun as [(msg & -> & _)%wrapErr_call_Err_inv
                                 | (dockerClient & st11 & H11 & Hrun)].
  { exists msg. auto 8. }
  apply bind_Err_inv in Hrun as [Hrun | (? & ? & _ & Hrun)]; [done |].
  apply bind_Err_inv in Hrun as [Hrun | (? & ? & _ & Hrun)]; done.
Qed.

(** An error of [resolveDependency] is never a cycle error. *)
Lemma resolveDependency_Err_not_cyclic basePath dependency update st e st' :
  resolveDependency basePath dependency update st = (Err e, st') →
  is_cyclicError e = false.
Proof.
  intros [(msg & _ & ->) | (id & localPath & msg & _ & Hforms)]%resolveDependency_Err_inv;
    [done |].
  destruct Hforms as [[_ ->] | [-> | [-> | [-> | [[_ ->] | ->]]]]]; done.
Qed.

(** [resolveRecursive] keeps the flag, and gives back a cycle error only
    when cycles are not tolerated. *)
Lemma resolveRecursive_cyclic_error fuel : ∀ basePath parentID dependencies update st,
  AllowCyclic (this (resolveRecursive fuel basePath parentID dependencies update st).2)
  = AllowCyclic (this st) ∧
  ∀ e, (resolveRecursive fuel basePath parentID dependencies update st).1 = Err e →
       is_cyclicError e = true → AllowCyclic (this st) = false.
Proof.
  induction fuel as [| fuel IHfuel]; intros basePath parentID dependencies; [done |].
  induction dependencies as [| d ds IHds]; intros update st; [done |].
  rewrite resolveRecursive_cons.
  assert (AllowCyclic
            (this (resolveRecursive_body (resolveRecursive fuel) basePath parentID d
                     update st).2) = AllowCyclic (this st) ∧
          ∀ e, (resolveRecursive_body (resolveRecursive fuel) basePath parentID d
                  update st).1 = Err e →
               is_cyclicError e = true → AllowCyclic (this st) = false) as [Hflag Hbody].
  { apply (resolveRecursive_body_elim (λ r,
      AllowCyclic (this r.2) = AllowCyclic (this st) ∧
      ∀ e, r.1 = Err e → is_cyclicError e = true → AllowCyclic (this st) = false));
      simpl.
    - done.
    - done.
    - intros e _ _ [Hno | Hno]; (split; [done |]); intros ? [= <-] ?; congruence.
    - intros o o' st1 _ Hrd Hstop.
      pose proof (resolveDependency_emits basePath d update
                    (withEvent (EvResolveDependency
                                  (util_GetDependencyID basePath (latest.Source d)
                                     (latest.Profile d) (world st))) st)) as [Hthis _].
      rewrite Hrd in Hthis. simpl in Hthis. rewrite Hthis. split; [done |].
      intros e -> Hcyc. inversion Hstop; subst.
      apply resolveDependency_Err_not_cyclic in Hrd. congruence.
    - intros dependency st1 e _ Hrd _.
      pose proof (resolveDependency_emits basePath d update
                    (withEvent (EvResolveDependency
                                  (util_GetDependencyID basePath (latest.Source d)
                                     (latest.Profile d) (world st))) st)) as [Hthis _].
      rewrite Hrd in Hthis. simpl in Hthis. rewrite Hthis. split; [done |].
      by intros ? [= <-] ?.
    - intros dependency st1 g' _ Hrd _ _.
      pose proof (resolveDependency_emits basePath d update
                    (withEvent (EvResolveDependency
                                  (util_GetDependencyID basePath (latest.Source d)
                                     (latest.Profile d) (world st))) st)) as [Hthis _].
      rewrite Hrd in Hthis. simpl in Hthis. by rewrite Hthis.
    - intros dependency st1 g' _ Hrd _ _.
      pose proof (resolveDependency_emits basePath d update
                    (withEvent (EvResolveDependency
                                  (util_GetDependencyID basePath (latest.Source d)
                                     (latest.Profile d) (world st))) st)) as [Hthis _].
      rewrite Hrd in Hthis. simpl in Hthis.
      destruct (IHfuel (LocalPath dependency)
                  (util_GetDependencyID basePath (latest.Source d) (latest.Profile d)
                     (world st))
                  (latest.Dependencies (Config dependency)) update (withGraph g' st1))
        as [Hflag Herr].
      simpl in Hflag, Herr. rewrite Hthis in Hflag, Herr. done. }
  destruct (resolveRecursive_body (resolveRecursive fuel) basePath parentID d update st)
    as [o st1] eqn:Hrun.
  simpl in Hflag, Hbody.
  destruct o as [[] | e | |].
  - erewrite bind_Ok by done.
    destruct (IHds update st1) as [Hflag' Hrest]. rewrite Hflag in Hflag', Hrest. done.
  - erewrite bind_Err by done. simpl. split; [done |]. intros ? [= <-]. by apply Hbody.
  - unfold mbind, M_bind. rewrite Hrun. done.
  - unfold mbind, M_bind. rewrite Hrun. done.
Qed.
End ErrorFacts.

Section GrowthFacts.
Context `{Collaborators}.

(** What the loop of [buildDependencyQueue] leaves of a well-formed graph:
    the root. *)
Lemma drain_leaves_root fuel : ∀ (g : graph Dependency) acc l g',
  wf_graph g →
  (size (Nodes g) ≤ S fuel)%nat →
  drain fuel g acc = (Ok l, g') →
  Root g' = Root g ∧ ∀ id, present g' id ↔ id = Root g.
Proof.
  assert (∀ g : graph Dependency, wf_graph g → ¬ (1 < size (Nodes g))%nat →
            ∀ id, present g id ↔ id = Root g) as Hsmall.
  { intros g Hwf Hsize id. split; [| intros ->; apply (wf_root g Hwf)].
    intros Hid. destruct (decide (id = Root g)) as [| Hne]; [done |].
    pose proof (two_present g id (Root g) Hid (wf_root g Hwf) Hne). lia. }
  induction fuel as [| fuel IH]; intros g acc l g' Hwf Hsize; simpl.
  - case_decide; [done |]. intros [= <- <-]. split; [done |]. by apply Hsmall.
  - case_decide as Hbig; [| intros [= <- <-]; split; [done |]; by apply Hsmall].
    destruct (getNextLeaf_spec g Hwf) as [[Hnext Hnone] | [Hnext (n & Hn & Hlive)]].
    { exfalso.
      assert (∃ a, present g a ∧ a ≠ Root g) as (a & Ha & Hne).
      { destruct (wf_root g Hwf) as [r Hr].
        assert (delete (Root g) (Nodes g) ≠ ∅) as Hne.
        { intros Hempty.
          rewrite <- (insert_delete_id (Nodes g) (Root g) r) in Hbig by done.
          rewrite map_size_insert_None in Hbig by apply lookup_delete_eq.
          rewrite Hempty, map_size_empty in Hbig. lia. }
        apply map_choose in Hne as (a & na & Ha).
        apply lookup_delete_Some in Ha as [? Ha]. exists a. split; [by exists na | done]. }
      apply (wf_connected g Hwf) in Ha.
      apply rtc_inv in Ha as [? | (y & Hy & _)]; [done | by eapply Hnone]. }
    rewrite decide_False by done.
    destruct (wf_payload g Hwf (getNextLeaf g (Root g))) as [d Hd]; [by exists n | done |].
    rewrite Hd, (removeNode_leaf g _ n) by done.
    intros Hrun. apply IH in Hrun; [done | |].
    + apply removed_wf; [done | done |].
      by apply (liveChilds_nil_no_edge g _ n (wf_closed g Hwf)).
    + pose proof (removed_size g (getNextLeaf g (Root g))) as Hs. simpl in Hs. simpl.
      rewrite <- Hs in Hsize by (by exists n). lia.
Qed.

(** [resolveRecursive] leaves the payload of a node as it is. *)
Lemma resolveRecursive_keeps_payload fuel : ∀ basePath parentID dependencies update st id d,
  payload (DependencyGraph (this st)) id = Some d →
  payload (DependencyGraph
             (this (resolveRecursive fuel basePath parentID dependencies update st).2)) id
  = Some d.
Proof.
  induction fuel as [| fuel IHfuel]; intros basePath parentID dependencies; [done |].
  induction dependencies as [| dc ds IHds]; intros update st id d Hpay; [done |].
  rewrite resolveRecursive_cons.
  assert (payload (DependencyGraph
                     (this (resolveRecursive_body (resolveRecursive fuel) basePath
                              parentID dc update st).2)) id = Some d) as Hbody.
  { pose proof (λ st1 (Hrd : (resolveDependency basePath dc update
                    (withEvent (EvResolveDependency
                                  (util_GetDependencyID basePath (latest.Source dc)
                                     (latest.Profile dc) (world st))) st)).2 = st1),
                  eq_trans (f_equal this (eq_sym Hrd))
                    (proj1 (resolveDependency_emits basePath dc update
                      (withEvent (EvResolveDependency
                                    (util_GetDependencyID basePath (latest.Source dc)
                                       (latest.Profile dc) (world st))) st)))) as Hkeep.
    simpl in Hkeep.
    apply (resolveRecursive_body_elim (λ r,
      payload (DependencyGraph (this r.2)) id = Some d)); simpl.
    - intros g' _ Hadd. by rewrite (addEdge_payload _ _ _ _ _ Hadd).
    - done.
    - done.
    - intros o o' st1 _ Hrd _. rewrite (Hkeep st1) by (by rewrite Hrd). done.
    - intros dependency st1 e _ Hrd _. rewrite (Hkeep st1) by (by rewrite Hrd). done.
    - intros dependency st1 g' _ Hrd Hins _.
      rewrite (insertNodeAt_payload _ _ _ _ _ id Hins), (Hkeep st1) by (by rewrite Hrd).
      case_decide as Hid; [| done]. subst id.
      apply insertNodeAt_Ok in Hins as (p & _ & Hnew & _).
      rewrite (Hkeep st1) in Hnew by (by rewrite Hrd).
      unfold payload in Hpay. by rewrite Hnew in Hpay.
    - intros dependency st1 g' _ Hrd Hins _. apply IHfuel. simpl.
      rewrite (insertNodeAt_payload _ _ _ _ _ id Hins), (Hkeep st1) by (by rewrite Hrd).
      case_decide as Hid; [| done]. subst id.
      apply insertNodeAt_Ok in Hins as (p & _ & Hnew & _).
      rewrite (Hkeep st1) in Hnew by (by rewrite Hrd).
      unfold payload in Hpay. by rewrite Hnew in Hpay. }
  destruct (resolveRecursive_body (resolveRecursive fuel) basePath parentID dc update st)
    as [o st1] eqn:Hrun.
  simpl in Hbody.
  destruct o as [[] | e | |].
  - erewrite bind_Ok by done. by apply IHds.
  - erewrite bind_Err by done. done.
  - unfold mbind, M_bind. rewrite Hrun. done.
  - unfold mbind, M_bind. rewrite Hrun. done.
Qed.
End GrowthFacts.

Import Checkout.

Section ResolverProperties.
Context `{Collaborators}.

(** X3.  A declaration whose IgnoreDependencies is true is never followed
    into the declarations of the dependency it names: whatever the resolver
    would do one level further down, the body of the loop of
    resolveRecursive does the same for it (resolver.go:160). *)
Theorem resolveRecursive_body_ignores_nested recurse1 recurse2
    basePath parentID dependencyConfig update st :
  latest.IgnoreDependencies dependencyConfig = Some true →
  resolveRecursive_body recurse1 basePath parentID dependencyConfig update st =
  resolveRecursive_body recurse2 basePath parentID dependencyConfig update st.
Proof.
  intros Hignore. unfold resolveRecursive_body, mbind, M_bind, inspect, getGraph, emit.
  destruct (Nodes (DependencyGraph (this st)) !! _); [done |].
  destruct (resolveDependency basePath dependencyConfig update _)
    as [[dependency | e | |] st1]; [| done ..].
  destruct (wrapErr _ "insert node" st1) as [[[] | e | |] st2]; [| done ..].
  case_decide as Hc; [| done]. rewrite Hignore in Hc. by destruct Hc.
Qed.

(** X4.  The errors of Resolve on a well-formed graph: the wrapped error of
    the working directory, a cycle error as it is (only when cycles are not
    tolerated), any other error of the descent wrapped once with
    "resolve dependencies recursive", or the error of the save as it is.
    So with AllowCyclic set, Resolve never returns a cycle error. *)
Theorem Resolve_error_forms fuel update st e :
  wf_graph (DependencyGraph (this st)) →
  (Resolve fuel update st).1 = Err e →
  ((∃ msg, e = withMessage (errorString msg) "get current working directory") ∨
   (is_cyclicError e = true ∧ AllowCyclic (this st) = false) ∨
   (∃ cause, e = withMessage cause "resolve dependencies recursive" ∧
             is_cyclicError cause = false) ∨
   (∃ msg w w', generated_Save (generatedSaver (this st)) (BaseCache (this st)) w
                = (Fail msg, w') ∧ e = errorString msg)) ∧
  (AllowCyclic (this st) = true → is_cyclicError e = false).
Proof.
  intros Hwf Herr.
  assert ((∃ msg, e = withMessage (errorString msg) "get current working directory") ∨
          (is_cyclicError e = true ∧ AllowCyclic (this st) = false) ∨
          (∃ cause, e = withMessage cause "resolve dependencies recursive" ∧
                    is_cyclicError cause = false) ∨
          (∃ msg w w', generated_Save (generatedSaver (this st)) (BaseCache (this st)) w
                       = (Fail msg, w') ∧ e = errorString msg)) as Hforms.
  { destruct (Resolve_events fuel update st)
      as [(msg & w & _ & _ & Hres) |
          (cwd & w & o & st2 & evs & Hwd & Hrun & Hd & [[Hstop Hst2] | (Ho & _ & Hsave)])].
    - left. exists msg. congruence.
    - rewrite Herr in Hstop. destruct o as [[] | e0 | |]; inversion Hstop; subst.
      unfold surfaced. destruct (is_cyclicError e0) eqn:Hcyc.
      + right; left. split; [done |].
        destruct (resolveRecursive_cyclic_error fuel cwd (Root (DependencyGraph (this st)))
                    (latest.Dependencies (BaseConfig (this st))) update (withWorld w st))
          as [_ Hflag].
        rewrite Hrun in Hflag. by apply (Hflag e0).
      + right; right; left. eauto.
    - destruct (generated_Save (generatedSaver (this st)) (BaseCache (this st)) (world st2))
        as [[[] | msg] w'] eqn:Hsaved.
      + exfalso. rewrite Hsave in Herr.
        destruct (buildDependencyQueue_succeeds
                    (withWorld w' (withEvent (EvSave (BaseCache (this st))) st2)))
          as [l Hl]; [| congruence].
        simpl. by apply (d_wf _ _ _ _ Hd).
      + right; right; right. destruct Hsave as [Hres _].
        exists msg, (world st2), w'. split; [done | congruence]. }
  split; [done |]. intros Hallow.
  destruct Hforms as [(msg & ->) | [[_ Hno] | [(cause & -> & _) | (msg & w & w' & _ & ->)]]];
    [done | congruence | done | done].
Qed.


(** X6.  Resolve consumes the graph: when it returns the list, every node
    but the root has been removed from the resolver's graph, and the root is
    the one it was. *)
Theorem Resolve_empties_graph fuel update st l st' :
  wf_graph (DependencyGraph (this st)) →
  Resolve fuel update st = (Ok l, st') →
  Root (DependencyGraph (this st')) = Root (DependencyGraph (this st)) ∧
  ∀ id, present (DependencyGraph (this st')) id ↔ id = Root (DependencyGraph (this st)).
Proof.
  intros Hwf Hrun.
  destruct (Resolve_events fuel update st)
    as [(msg & w & _ & _ & Hres) |
        (cwd & w & o & st2 & evs & Hwd & Hdesc & Hd & [[Hstop _] | (Ho & _ & Hsave)])].
  - rewrite Hrun in Hres. done.
  - rewrite Hrun in Hstop. inversion Hstop.
  - destruct (generated_Save (generatedSaver (this st)) (BaseCache (this st)) (world st2))
      as [[[] | msg] w'] eqn:Hsaved.
    2:{ destruct Hsave as [Hres _]. rewrite Hrun in Hres. done. }
    rewrite Hrun in Hsave. unfold buildDependencyQueue in Hsave. simpl in Hsave.
    injection Hsave as Hl ->. simpl.
    assert (wf_graph (DependencyGraph (this st2))) as Hwf2 by (by apply (d_wf _ _ _ _ Hd)).
    destruct (drain (size (Nodes (DependencyGraph (this st2)))) (DependencyGraph (this st2)) [])
      as [o' g'] eqn:Hdrain.
    simpl in Hl. subst o'.
    apply drain_leaves_root in Hdrain as [Hroot Hpresent]; [| done | lia].
    pose proof (d_root _ _ _ _ Hd) as Hr. simpl in Hr. simpl. rewrite <- Hr. done.
Qed.

(** X7.  resolveRecursive only adds to the graph, whatever its outcome, an
    error included: the root stays, the nodes stay with their payloads, the
    edges stay, a well-formed graph stays well formed, and nothing else of
    the resolver changes.  What was added before a failure is not taken
    back. *)
Theorem resolveRecursive_only_grows fuel basePath parentID dependencies update st :
  let g := DependencyGraph (this st) in
  let st' := (resolveRecursive fuel basePath parentID dependencies update st).2 in
  let g' := DependencyGraph (this st') in
  this st' = setDependencyGraph g' (this st) ∧
  Root g' = Root g ∧
  (∀ id, present g id → present g' id) ∧
  (∀ id d, payload g id = Some d → payload g' id = Some d) ∧
  (∀ a b, edge g a b → edge g' a b) ∧
  (wf_graph g → wf_graph g').
Proof.
  intros g st' g'.
  destruct (resolveRecursive_descent fuel basePath parentID dependencies update st)
    as [evs Hd].
  split_and!.
  - apply (d_this _ _ _ _ Hd).
  - apply (d_root _ _ _ _ Hd).
  - apply (d_present _ _ _ _ Hd).
  - intros id d. apply resolveRecursive_keeps_payload.
  - apply (d_edge _ _ _ _ Hd).
  - apply (d_wf _ _ _ _ Hd).
Qed.
End ResolverProperties.

Section NewResolverProperties.
Context `{Collaborators} `{!Environment}.

(** X1.  NewResolver fails only when the absolute path of the working
    directory cannot be had, with that error as it is.  Otherwise the
    resolver it makes has a well-formed graph with the root as its only
    node; the identity of the root is the remote of the checkout, and the
    absolute path when no remote can be had; the arguments are stored as
    they are and BasePath is left empty. *)
Theorem NewResolver_root_only baseConfig baseCache c allowCyclic configOptions w :
  match filepath_Abs "." w with
  | (Fail msg, w1) =>
      NewResolver baseConfig baseCache c allowCyclic configOptions w
      = (Err (errorString msg), w1)
  | (Return basePath, w1) =>
      ∃ r, NewResolver baseConfig baseCache c allowCyclic configOptions w
           = (Ok r, (git_GetRemote basePath w1).2) ∧
           Root (DependencyGraph r)
           = match (git_GetRemote basePath w1).1 with
             | Return remote => remote
             | Fail _ => basePath
             end ∧
           (∀ id, present (DependencyGraph r) id ↔ id = Root (DependencyGraph r)) ∧
           payload (DependencyGraph r) (Root (DependencyGraph r)) = None ∧
           wf_graph (DependencyGraph r) ∧
           BaseConfig r = baseConfig ∧ BaseCache r = baseCache ∧
           ConfigOptions r = configOptions ∧ AllowCyclic r = allowCyclic ∧
           client r = c ∧ BasePath r = ""
  end.
Proof.
  unfold NewResolver.
  destruct (filepath_Abs "." w) as [[basePath | msg] w1]; [| done].
  eexists. split; [reflexivity |]. simpl. split_and!; try done.
  - intros id. unfold present. simpl. rewrite lookup_singleton_is_Some. naive_solver.
  - unfold payload. simpl. by rewrite lookup_singleton_eq.
  - apply newGraph_wf.
Qed.

(** X2.  A project without dependencies: on the resolver NewResolver makes
    for it, Resolve returns the empty list, and all it does is to save the
    base cache once. *)
Theorem Resolve_new_without_dependencies baseConfig baseCache c allowCyclic
    configOptions w r w0 cwd w1 w2 fuel update :
  latest.Dependencies baseConfig = [] →
  NewResolver baseConfig baseCache c allowCyclic configOptions w = (Ok r, w0) →
  os_Getwd w0 = (Return cwd, w1) →
  generated_Save (generated.NewConfigLoader "") baseCache w1 = (Return tt, w2) →
  Resolve (S fuel) update {| this := r; world := w0; trace := [] |}
  = (Ok [], {| this := r; world := w2; trace := [EvSave baseCache] |}).
Proof.
  intros Hnone Hnew Hwd Hsave. unfold NewResolver in Hnew.
  destruct (filepath_Abs "." w) as [[basePath | msg] w'] eqn:Habs; [| done].
  injection Hnew as <- <-.
  unfold Resolve.
  erewrite bind_Ok; [| apply wrapErr_Ok, call_Return; exact Hwd].
  erewrite bind_Ok by reflexivity. simpl.
  rewrite Hnone.
  erewrite bind_Ok; [| apply mapErr_Ok; reflexivity].
  erewrite bind_Ok by reflexivity.
  erewrite bind_Ok; [| apply call_Return; exact Hsave].
  unfold buildDependencyQueue. simpl.
  rewrite !map_size_singleton. simpl. rewrite !map_size_singleton.
  rewrite decide_False by lia. done.
Qed.
End NewResolverProperties.

(** ** The further statements on concrete projects *)

Lemma resolveRecursive_body_ignores_nested_witness :
  let d := {| latest.Source := latest.Source (declare "P");
              latest.Profile := "";
              latest.SkipBuild := None;
              latest.IgnoreDependencies := Some true;
              latest.Namespace := "" |} in
  latest.IgnoreDependencies d = Some true ∧
  resolveRecursive_body (resolveRecursive 2) "/work" "root" d false notFollowed =
  resolveRecursive_body (λ _ _ _ _, panic) "/work" "root" d false notFollowed.
Proof.
  intros d. split; [reflexivity |].
  apply (resolveRecursive_body_ignores_nested (resolveRecursive 2) (λ _ _ _ _, panic)
           "/work" "root" d false notFollowed eq_refl).
Defined.

(** P declares R, but the declaration of P says not to follow: R is not
    materialized. *)
Example notFollowed_stops_at_P :
  materialized (trace (Resolve 3 false notFollowed).2) = ["P"] ∧
  ID <$> listOf (Resolve 3 false notFollowed).1 = ["P"].
Proof. vm_compute. done. Qed.

Lemma Resolve_error_forms_witness :
  wf_graph (DependencyGraph (this (cycle false))) ∧
  (Resolve 3 false (cycle false)).1 = Err (cyclicError "B" "A") ∧
  (AllowCyclic (this (cycle false)) = true → is_cyclicError (cyclicError "B" "A") = false).
Proof.
  assert ((Resolve 3 false (cycle false)).1 = Err (cyclicError "B" "A")) as Hrun
    by (vm_compute; reflexivity).
  split; [apply newGraph_wf |]. split; [exact Hrun |].
  exact (proj2 (Resolve_error_forms 3 false (cycle false) (cyclicError "B" "A")
                  (newGraph_wf "root") Hrun)).
Defined.


Lemma Resolve_empties_graph_witness :
  wf_graph (DependencyGraph (this diamond)) ∧
  Resolve 3 false diamond
  = (Ok (listOf (Resolve 3 false diamond).1), (Resolve 3 false diamond).2) ∧
  ∀ id, present (DependencyGraph (this (Resolve 3 false diamond).2)) id ↔ id = "root".
Proof.
  assert (Resolve 3 false diamond
          = (Ok (listOf (Resolve 3 false diamond).1), (Resolve 3 false diamond).2)) as Hrun
    by (vm_compute; reflexivity).
  split; [apply newGraph_wf |]. split; [exact Hrun |].
  exact (proj2 (Resolve_empties_graph 3 false diamond _ _ (newGraph_wf "root") Hrun)).
Defined.

Lemma Resolve_new_without_dependencies_witness :
  let baseConfig := BaseConfig (this alone) in
  let options := ConfigOptions (this alone) in
  let r := setDependencyGraph
             (newGraph "git@example.com:team/root.git" (newNode None)) (this alone) in
  latest.Dependencies baseConfig = [] ∧
  NewResolver baseConfig 1%positive None false options (world alone)
  = (Ok r, world alone) ∧
  Resolve 1 false {| this := r; world := world alone; trace := [] |}
  = (Ok [], {| this := r; world := world alone; trace := [EvSave 1%positive] |}).
Proof.
  intros baseConfig options r.
  assert (NewResolver baseConfig 1%positive None false options (world alone)
          = (Ok r, world alone)) as Hnew by reflexivity.
  assert (os_Getwd (world alone) = (Return "/work", world alone)) as Hwd by reflexivity.
  assert (generated_Save (generated.NewConfigLoader "") 1%positive (world alone)
          = (Return tt, world alone)) as Hsave by reflexivity.
  split; [reflexivity |]. split; [exact Hnew |].
  apply (Resolve_new_without_dependencies baseConfig 1%positive None false options
           (world alone) r (world alone) "/work" (world alone) (world alone) 0 false
           eq_refl Hnew Hwd Hsave).
Defined.

(** ** Package patch *)

Section PatchFacts.
Import patch.

Lemma Node_induction (P : Node → Prop) :
  (∀ a k t v content, Forall P content → P (mkNode a k t v content)) →
  ∀ n, P n.
Proof.
  intros Hstep. fix IH 1. intros [a k t v content]. apply Hstep.
  induction content as [| c rest IHrest]; constructor; [apply IH | apply IHrest].
Qed.

Lemma same_true a b : same a b = true ↔ addr a = addr b.
Proof. unfold same. by rewrite bool_decide_eq_true. Qed.

Lemma same_false a b : same a b = false ↔ addr a ≠ addr b.
Proof. unfold same. by rewrite bool_decide_eq_false. Qed.

Lemma slice_prefix {A : Type} (s : list A) (i : nat) :
  (i ≤ length s)%nat → slice s 0 (Z.of_nat i) = Some (take i s).
Proof.
  intros Hi. unfold slice. rewrite decide_True by lia.
  by rewrite Z.sub_0_r, Nat2Z.id.
Qed.

Lemma sliceFrom_suffix {A : Type} (s : list A) (i : nat) :
  (i ≤ length s)%nat → sliceFrom s (Z.of_nat i) = Some (drop i s).
Proof.
  intros Hi. unfold sliceFrom, slice. rewrite decide_True by lia.
  rewrite Nat2Z.id. f_equal. apply take_ge. rewrite length_drop. lia.
Qed.

Lemma slice_negative {A : Type} (s : list A) (lo hi : Z) :
  (hi < 0)%Z → slice s lo hi = None.
Proof. intros Hhi. unfold slice. rewrite decide_False; [done | lia]. Qed.

(** The index [childIndex] gives from the position [p] on. *)
Lemma childIndex_from_absent p children child :
  Forall (λ v, addr v ≠ addr child) children →
  childIndex_from p children child = (-1)%Z.
Proof.
  intros Hall. revert p. induction Hall as [| v rest Hv _ IH]; intros p; [done |].
  simpl. apply same_false in Hv. by rewrite Hv.
Qed.

Lemma childIndex_from_found p before c after child :
  Forall (λ v, addr v ≠ addr child) before →
  addr c = addr child →
  childIndex_from p (before ++ c :: after) child = (p + Z.of_nat (length before))%Z.
Proof.
  intros Hall Hc. revert p. induction Hall as [| v rest Hv _ IH]; intros p; simpl.
  - apply same_true in Hc. rewrite Hc. lia.
  - apply same_false in Hv. rewrite Hv, IH. lia.
Qed.

(** A list of nodes, cut at the first one with the address of [child]. *)
Lemma first_occurrence children child :
  Forall (λ v, addr v ≠ addr child) children ∨
  ∃ before c after,
    children = before ++ c :: after ∧
    Forall (λ v, addr v ≠ addr child) before ∧ addr c = addr child.
Proof.
  induction children as [| v rest IH]; [by left |].
  destruct (decide (addr v = addr child)) as [Hv | Hv].
  - right. by exists [], v, rest.
  - destruct IH as [Hall | (before & c & after & -> & Hall & Hc)].
    + left. by constructor.
    + right. exists (v :: before), c, after. split; [done |]. split; [by constructor | done].
Qed.

Lemma removeChild_range child remaining l :
  (fix range (remaining l : list Node) : list Node :=
     match l with
     | [] => remaining
     | current :: rest =>
         if same child current then range remaining rest
         else range (remaining ++ [current]) rest
     end) remaining l
  = remaining ++ filter (λ c, addr c ≠ addr child) l.
Proof.
  revert remaining. induction l as [| current rest IH]; intros remaining.
  - by rewrite app_nil_r.
  - destruct (same child current) eqn:Hsame.
    + rewrite IH. apply same_true in Hsame.
      rewrite filter_cons_False by naive_solver. done.
    + rewrite IH. apply same_false in Hsame.
      rewrite filter_cons_True by naive_solver. by rewrite <- app_assoc.
Qed.

Lemma removeChild_eq parent child :
  removeChild parent child = filter (λ c, addr c ≠ addr child) (Content parent).
Proof. unfold removeChild. by rewrite removeChild_range. Qed.

Lemma find_range_first predicate (l : list Node) :
  Forall (λ c, find c predicate = first predicate (nodes c)) l →
  (fix range (l : list Node) : option Node :=
     match l with
     | [] => None
     | content :: rest =>
         match find content predicate with
         | Some found => Some found
         | None => range rest
         end
     end) l
  = first predicate
      ((fix range (l : list Node) : list Node :=
          match l with
          | [] => []
          | c :: rest => nodes c ++ range rest
          end) l).
Proof.
  assert (∀ l1 l2, first predicate (l1 ++ l2) =
                   match first predicate l1 with
                   | Some found => Some found
                   | None => first predicate l2
                   end) as Happ.
  { induction l1 as [| n l1 IH]; intros l2; [done |]. simpl.
    destruct (predicate n); [done | apply IH]. }
  induction 1 as [| c rest Hc _ IH]; [done |].
  rewrite Happ, <- Hc. destruct (find c predicate); [done | apply IH].
Qed.

Lemma find_first doc predicate : find doc predicate = first predicate (nodes doc).
Proof.
  induction doc as [a k t v content IH] using Node_induction.
  simpl. destruct (predicate (mkNode a k t v content)); [done |].
  by apply find_range_first.
Qed.

Lemma first_Some p l n :
  first p l = Some n → n ∈ l ∧ p n = true.
Proof.
  induction l as [| m rest IH]; [done |]. simpl.
  destruct (p m) eqn:Hm.
  - intros [= <-]. split; [left | done].
  - intros [? ?]%IH. split; [by right | done].
Qed.

Lemma first_None p l : first p l = None → ∀ n, n ∈ l → p n = false.
Proof.
  induction l as [| m rest IH]; [by intros _ n ?%not_elem_of_nil |]. simpl.
  destruct (p m) eqn:Hm; [done |].
  intros Hrest n [-> | Hn]%elem_of_cons; [done | by apply IH].
Qed.

Lemma containsChild_spec child node :
  containsChild child node = true ↔ ∃ c, c ∈ Content node ∧ addr c = addr child.
Proof.
  unfold containsChild. induction (Content node) as [| c rest IH].
  - split; [done | by intros (c & ?%not_elem_of_nil & _)].
  - destruct (same c child) eqn:Hsame.
    + apply same_true in Hsame. split; [| done]. intros _. exists c. split; [left | done].
    + apply same_false in Hsame. rewrite IH. split.
      * intros (c' & ? & ?). exists c'. split; [by right | done].
      * intros (c' & [-> | ?]%elem_of_cons & ?); [done | eauto].
Qed.

Lemma addChildAtIndex_found parent child value before c after :
  Content parent = before ++ c :: after →
  Forall (λ v, addr v ≠ addr child) before →
  addr c = addr child →
  addChildAtIndex parent child value = Some (before ++ Content value ++ c :: after) ∧
  replaceChildAtIndex parent child value = Some (before ++ Content value ++ after).
Proof.
  intros Hcontent Hbefore Hc.
  unfold addChildAtIndex, replaceChildAtIndex, childIndex.
  rewrite Hcontent, childIndex_from_found by done.
  rewrite Z.add_0_l, slice_prefix by (rewrite length_app; lia).
  rewrite sliceFrom_suffix by (rewrite length_app; lia).
  replace (Z.of_nat (length before) + 1)%Z with (Z.of_nat (S (length before))) by lia.
  rewrite sliceFrom_suffix by (rewrite length_app; simpl; lia).
  simpl. rewrite take_app_length, drop_app_length.
  assert (drop (S (length before)) (before ++ c :: after) = after) as ->; [| done].
  rewrite drop_app_ge by lia.
  by replace (S (length before) - length before)%nat with 1%nat by lia.
Qed.
End PatchFacts.

Section PatchProperties.
Import patch.

(** X8.  childIndex gives the position of the first element of the slice
    that is the given pointer, counted from 0, and -1 exactly when no
    element is. *)
Theorem childIndex_first children child :
  (childIndex children child = (-1)%Z ∧ ∀ v, v ∈ children → addr v ≠ addr child) ∨
  (∃ i c, childIndex children child = Z.of_nat i ∧
          children !! i = Some c ∧ addr c = addr child ∧
          ∀ j v, (j < i)%nat → children !! j = Some v → addr v ≠ addr child).
Proof.
  unfold childIndex.
  destruct (first_occurrence children child)
    as [Hall | (before & c & after & -> & Hall & Hc)].
  - left. split; [by apply childIndex_from_absent |]. by apply Forall_forall.
  - right. exists (length before), c. split_and!.
    + rewrite childIndex_from_found by done. lia.
    + by rewrite lookup_app_r, Nat.sub_diag.
    + done.
    + intros j v Hj Hv. rewrite lookup_app_l in Hv by done.
      rewrite Forall_forall in Hall. eapply Hall. by eapply list_elem_of_lookup_2.
Qed.

(** X9.  removeChild keeps, in their order, exactly the elements of the
    parent's Content that are not the given pointer: every occurrence of the
    child goes, nothing else does. *)
Theorem removeChild_removes_all parent child :
  removeChild parent child = filter (λ c, addr c ≠ addr child) (Content parent) ∧
  (∀ c, c ∈ removeChild parent child ↔ c ∈ Content parent ∧ addr c ≠ addr child) ∧
  ((∀ c, c ∈ Content parent → addr c ≠ addr child) →
   removeChild parent child = Content parent).
Proof.
  rewrite removeChild_eq. split; [done |]. split.
  - intros c. by rewrite list_elem_of_filter, (comm and).
  - intros Hnone. induction (Content parent) as [| c rest IH]; [done |].
    rewrite filter_cons_True by (apply Hnone; left).
    f_equal. apply IH. intros c' ?. apply Hnone. by right.
Qed.

(** X10.  addChildAtIndex puts the Content of the value right before the
    first occurrence of the child and keeps everything else;
    replaceChildAtIndex puts it in the place of that occurrence.  With a
    child that is not in the parent's Content both panic (slice bounds out of
    range). *)
Theorem addChildAtIndex_inserts_before parent child value :
  ((∀ v, v ∈ Content parent → addr v ≠ addr child) →
   addChildAtIndex parent child value = None ∧
   replaceChildAtIndex parent child value = None) ∧
  (∀ before c after,
     Content parent = before ++ c :: after →
     (∀ v, v ∈ before → addr v ≠ addr child) →
     addr c = addr child →
     addChildAtIndex parent child value = Some (before ++ Content value ++ c :: after) ∧
     replaceChildAtIndex parent child value = Some (before ++ Content value ++ after)).
Proof.
  split.
  - intros Hnone%Forall_forall. unfold addChildAtIndex, replaceChildAtIndex, childIndex.
    rewrite childIndex_from_absent by done.
    rewrite slice_negative by lia. done.
  - intros before c after Hcontent Hbefore%Forall_forall Hc.
    by apply addChildAtIndex_found.
Qed.


(** X12.  On a mapping, remove takes out the matched node together with
    the element right before it (the key of a matched value) and keeps the
    rest in order; it panics when the match is the first element of the
    parent's Content or is not in it.  On a sequence it takes out every
    occurrence of the match; on a parent of any other kind it changes
    nothing. *)
Theorem remove_by_kind parent match_ :
  (Kind_ parent = MappingNode →
   ((∀ v, v ∈ Content parent → addr v ≠ addr match_) → remove parent match_ = None) ∧
   (∀ c after, Content parent = c :: after → addr c = addr match_ →
               remove parent match_ = None) ∧
   (∀ before key c after,
      Content parent = before ++ key :: c :: after →
      (∀ v, v ∈ before → addr v ≠ addr match_) →
      addr key ≠ addr match_ → addr c = addr match_ →
      remove parent match_ = Some (before ++ after))) ∧
  (Kind_ parent = SequenceNode →
   remove parent match_
   = Some (filter (λ c, addr c ≠ addr match_) (Content parent))) ∧
  (Kind_ parent ≠ MappingNode → Kind_ parent ≠ SequenceNode →
   remove parent match_ = Some (Content parent)).
Proof.
  unfold remove. split_and!.
  - intros ->. unfold removeProperty, childIndex. split_and!.
    + intros Hnone%Forall_forall. rewrite childIndex_from_absent by done.
      rewrite slice_negative by lia. done.
    + intros c after Hcontent Hc.
      rewrite Hcontent, (childIndex_from_found 0 [] c after) by done.
      rewrite slice_negative by (simpl; lia). done.
    + intros before key c after Hcontent Hbefore%Forall_forall Hkey Hc.
      assert (Content parent = (before ++ [key]) ++ c :: after) as ->
        by (by rewrite <- app_assoc).
      rewrite (childIndex_from_found 0 (before ++ [key]) c after match_);
        [| by apply Forall_app; split; [| constructor] | done].
      rewrite length_app. simpl length.
      replace (0 + Z.of_nat (length before + 1) - 1)%Z with (Z.of_nat (length before))
        by lia.
      replace (0 + Z.of_nat (length before + 1) + 1)%Z
        with (Z.of_nat (S (S (length before)))) by lia.
      rewrite slice_prefix by (rewrite !length_app; simpl; lia).
      rewrite sliceFrom_suffix by (rewrite !length_app; simpl; lia).
      simpl. f_equal. rewrite <- app_assoc, take_app_length. f_equal.
      rewrite drop_app_ge by lia.
      by replace (S (S (length before)) - length before)%nat with 2%nat by lia.
  - intros ->. by rewrite removeChild_eq.
  - by destruct (Kind_ parent).
Qed.

(** X13.  find gives the first node in document order (a node before its
    children, the children from the first to the last) that satisfies the
    predicate, and nil exactly when no node of the tree does. *)
Theorem find_first_in_document_order doc predicate :
  find doc predicate = first predicate (nodes doc) ∧
  (∀ found, find doc predicate = Some found →
            found ∈ nodes doc ∧ predicate found = true) ∧
  (find doc predicate = None ↔ ∀ n, n ∈ nodes doc → predicate n = false).
Proof.
  rewrite find_first. split; [done |]. split.
  - intros found. apply first_Some.
  - split; [apply first_None |].
    induction (nodes doc) as [| n rest IH]; [done |]. intros Hall. simpl.
    rewrite (Hall n) by left. apply IH. intros m ?. apply Hall. by right.
Qed.

(** X14.  The parent that Perform looks up with find and containsChild is a
    node of the document that has the matched node among its Content; the
    lookup gives nil exactly when no node of the document has, as for the
    document node itself. *)
Theorem find_containsChild_parent doc child :
  (∀ parent, find doc (containsChild child) = Some parent →
             parent ∈ nodes doc ∧ ∃ c, c ∈ Content parent ∧ addr c = addr child) ∧
  (find doc (containsChild child) = None ↔
   ∀ n c, n ∈ nodes doc → c ∈ Content n → addr c ≠ addr child).
Proof.
  rewrite find_first. split.
  - intros parent [Hin Hp]%first_Some. split; [done |]. by apply containsChild_spec.
  - split.
    + intros Hnone n c Hn Hc Heq.
      pose proof (first_None _ _ Hnone n Hn) as Hfalse.
      assert (containsChild child n = true) as Htrue
        by (apply containsChild_spec; eauto).
      congruence.
    + intros Hall. induction (nodes doc) as [| n rest IH]; [done |]. simpl.
      destruct (containsChild child n) eqn:Hn.
      * apply containsChild_spec in Hn as (c & Hc & Heq).
        exfalso. eapply (Hall n c); [left | done | done].
      * apply IH. intros m c ?. apply Hall. by right.
Qed.
End PatchProperties.

Section PatchExamples.
Import patch.

Lemma addChildAtIndex_inserts_before_witness :
  Content sequence = [scalar 2 "a"] ++ scalar 3 "b" :: [scalar 4 "c"] ∧
  addChildAtIndex sequence (scalar 3 "b") replacement
  = Some [scalar 2 "a"; scalar 12 "x"; scalar 13 "y"; scalar 3 "b"; scalar 4 "c"] ∧
  replaceChildAtIndex sequence (scalar 3 "b") replacement
  = Some [scalar 2 "a"; scalar 12 "x"; scalar 13 "y"; scalar 4 "c"].
Proof.
  split; [reflexivity |].
  apply (proj2 (addChildAtIndex_inserts_before sequence (scalar 3 "b") replacement)
           [scalar 2 "a"] (scalar 3 "b") [scalar 4 "c"] eq_refl); [| reflexivity].
  apply Forall_forall. compute_done.
Defined.


Lemma remove_by_kind_witness :
  Kind_ mapping = MappingNode ∧
  Content mapping
  = [scalar 6 "name"; scalar 7 "app"] ++ scalar 8 "image" :: scalar 9 "nginx" :: [] ∧
  remove mapping (scalar 9 "nginx") = Some [scalar 6 "name"; scalar 7 "app"] ∧
  remove mapping (scalar 6 "name") = None.
Proof.
  split; [reflexivity |]. split; [reflexivity |]. split.
  - apply (proj2 (proj2 (proj1 (remove_by_kind mapping (scalar 9 "nginx")) eq_refl))
             [scalar 6 "name"; scalar 7 "app"] (scalar 8 "image") (scalar 9 "nginx") []
             eq_refl); [| simpl; lia | reflexivity].
    apply Forall_forall. compute_done.
  - apply (proj1 (proj2 (proj1 (remove_by_kind mapping (scalar 6 "name")) eq_refl))
             (scalar 6 "name") _ eq_refl eq_refl).
Defined.

(** The parent of the value of [image] in the document is the mapping; the
    document node itself has no parent. *)
Example find_parent_in_document :
  find document (containsChild (scalar 9 "nginx")) = Some mapping ∧
  find document (containsChild document) = None.
Proof. split; reflexivity. Qed.
End PatchExamples.

(** ** Package helper *)

Section HelperFacts.
Import helper.
Context `{Library}.

#[local] Arguments afterKeyword : simpl never.
#[local] Arguments instruction : simpl never.









Lemma splitDockerfileAtTarget_not_Diverge content target :
  splitDockerfileAtTarget content target ≠ Diverge.
Proof.
  unfold splitDockerfileAtTarget. repeat case_match; done.
Qed.

(** An ENTRYPOINT line makes what was found before it irrelevant. *)
Lemma parseLine_ENTRYPOINT line args e c e' c' :
  instruction "ENTRYPOINT" line = Some args →
  parseLine line e c = parseLine line e' c'.
Proof. unfold parseLine. by intros ->. Qed.

(** Whether a line ends the function with an error does not depend on what
    was found before it. *)
Lemma parseLine_error line e c :
  parses line → ∃ found, parseLine line e c = inl found.
Proof.
  unfold parses, parseLine. intros [found Hfound].
  repeat case_match; simplify_eq; eauto.
Qed.

Lemma parseLines_from_ENTRYPOINT scanErr l1 line l2 args e c :
  Forall parses l1 →
  instruction "ENTRYPOINT" line = Some args →
  parseLines scanErr (l1 ++ line :: l2) e c = parseLines scanErr (line :: l2) None None.
Proof.
  intros Hclean Hline. revert e c.
  induction Hclean as [| l l1 Hl _ IH]; intros e c; simpl.
  - by rewrite (parseLine_ENTRYPOINT line args e c None None).
  - apply (parseLine_error l e c) in Hl as [[e1 c1] ->]. apply IH.
Qed.

Lemma parseLines_no_instruction scanErr l e c :
  Forall (λ l, instruction "ENTRYPOINT" l = None ∧ instruction "CMD" l = None) l →
  parseLines scanErr l e c = (e, c, errorString <$> scanErr).
Proof.
  induction 1 as [| line l [He Hc] _ IH]; [done |]. simpl.
  unfold parseLine. by rewrite He, Hc.
Qed.

(** What [withHelper] gives on. *)
Lemma withHelper_Ok entrypoint cmd additionalInstructions oldEntrypoint oldCmd e c lines :
  withHelper entrypoint cmd additionalInstructions oldEntrypoint oldCmd = Ok (e, c, lines) →
  lines = Some (elems additionalInstructions ++ ["COPY /.devspace /"]) ∧
  (∃ rest, e = Some (restart_ScriptPath :: rest) ∧
           ((0 < len entrypoint)%nat → rest = elems entrypoint) ∧
           (len entrypoint = 0%nat → rest = elems oldEntrypoint)) ∧
  ((0 < len cmd)%nat → c = cmd) ∧
  (len cmd = 0%nat → (0 < len oldCmd)%nat → c = oldCmd).
Proof.
  unfold withHelper. intros Hrun.
  repeat case_decide; simplify_eq; (split; [done |]);
    (split; [eexists; split; [done |]; split; [done || lia | done || lia] |]);
    split; done || lia.
Qed.
End HelperFacts.

Section HelperProperties.
Import helper.
Context `{Library}.



(** X17.  parseLastOccurence looks at nothing before the last ENTRYPOINT
    line: lines before it that parse are irrelevant, and a CMD found before
    it is dropped.  When no ENTRYPOINT or CMD line follows a shell-form
    ENTRYPOINT, the entrypoint is the shell with the rest of that line and
    the command is nil. *)
Theorem parseLastOccurence_from_last_ENTRYPOINT content l1 line l2 args :
  (bufio_Scan content).1 = l1 ++ line :: l2 →
  Forall parses l1 →
  instruction "ENTRYPOINT" line = Some args →
  parseLastOccurence content = parseLines (bufio_Scan content).2 (line :: l2) None None ∧
  (execForm args = false →
   Forall (λ l, instruction "ENTRYPOINT" l = None ∧ instruction "CMD" l = None) l2 →
   parseLastOccurence content
   = (Some ["/bin/sh"; "-c"; args], None, errorString <$> (bufio_Scan content).2)).
Proof.
  intros Hlines Hclean Hline. unfold parseLastOccurence. rewrite Hlines.
  rewrite (parseLines_from_ENTRYPOINT _ l1 line l2 args) by done.
  split; [done |]. intros Hshell Hrest. simpl. unfold parseLine.
  rewrite Hline, Hshell. by apply parseLines_no_instruction.
Qed.

(** X18.  RewriteDockerfile either has nothing to do (no entrypoint, no
    command, no helper, no instruction: it gives the empty path and touches
    nothing), or stops before a file is made (only with the restart helper:
    the Dockerfile cannot be read or parsed, or has neither ENTRYPOINT nor
    CMD), or goes on as CreateTempDockerfile with arguments that pass its
    check for emptiness.  With the restart helper the entrypoint begins with
    the helper script, followed by the configured entrypoint if there is
    one, and the instructions end with the COPY of the helper; a configured
    command is passed on as it is. *)
Theorem RewriteDockerfile_hands_over dockerfile entrypoint cmd additionalInstructions
    target injectHelper fs :
  let r := RewriteDockerfile dockerfile entrypoint cmd additionalInstructions target
             injectHelper fs in
  (len entrypoint = 0%nat ∧ len cmd = 0%nat ∧ injectHelper = false ∧
   len additionalInstructions = 0%nat ∧ r = (Ok "", fs)) ∨
  (injectHelper = true ∧ ((∃ err, r = (Err err, fs)) ∨ r = (Panic, fs))) ∨
  (∃ e c lines,
     r = CreateTempDockerfile dockerfile e c lines target fs ∧
     ¬ (e = None ∧ c = None ∧ len lines = 0%nat) ∧
     (injectHelper = false → e = entrypoint ∧ c = cmd ∧
                             elems lines = elems additionalInstructions) ∧
     (injectHelper = true →
      lines = Some (elems additionalInstructions ++ ["COPY /.devspace /"]) ∧
      ∃ rest, e = Some (restart_ScriptPath :: rest) ∧
              ((0 < len entrypoint)%nat → rest = elems entrypoint)) ∧
     ((0 < len cmd)%nat → c = cmd)).
Proof.
  intros r. subst r. unfold RewriteDockerfile.
  case_decide as Hnothing; [left; by destruct Hnothing as (? & ? & ? & ?) |].
  set (instructions := if decide (additionalInstructions = None) then Some []
                       else additionalInstructions).
  assert (elems instructions = elems additionalInstructions) as Hinstructions
    by (by destruct additionalInstructions).
  destruct injectHelper.
  - destruct (ioutil_ReadFile dockerfile fs) as [data | msg]; [| right; left; eauto].
    destruct (getLastestEntrypointAndCmd data target)
      as [[[oldEntrypoint oldCmd] [err |]] | err | |] eqn:Hold;
      [right; left; eauto | | right; left; eauto | right; left; eauto |].
    2:{ exfalso. unfold getLastestEntrypointAndCmd in Hold. case_decide; [done |].
        pose proof (splitDockerfileAtTarget_not_Diverge data target).
        by destruct (splitDockerfileAtTarget data target) as [[??] | | |]. }
    destruct (withHelper entrypoint cmd instructions oldEntrypoint oldCmd)
      as [[[e c] lines] | err | |] eqn:Hwith.
    + apply withHelper_Ok in Hwith as (-> & (rest & -> & Hrest & _) & Hcmd & _).
      right; right. eexists _, c, _. split; [done |]. split_and!.
      * by intros [? _].
      * done.
      * intros _. rewrite Hinstructions. split; [done | by exists rest].
      * done.
    + right; left. eauto.
    + right; left. eauto.
    + exfalso. unfold withHelper in Hwith. by repeat case_decide.
  - right; right. eexists entrypoint, cmd, _. split; [done |]. split_and!.
    + intros (-> & -> & Hlines). apply Hnothing. split_and!; try done.
      unfold len in *. by rewrite <- Hinstructions.
    + done.
    + done.
    + done.
Qed.
End HelperProperties.

Section HelperExamples.
Import helper Workstation.



Lemma parseLastOccurence_from_last_ENTRYPOINT_witness :
  let content := ("FROM node" ++ newline ++ "CMD node a.js" ++ newline ++
                  "ENTRYPOINT npm start" ++ newline ++ "EXPOSE 80")%string in
  (bufio_Scan content).1
  = ["FROM node"; "CMD node a.js"] ++ "ENTRYPOINT npm start" :: ["EXPOSE 80"] ∧
  instruction "ENTRYPOINT" "ENTRYPOINT npm start" = Some "npm start" ∧
  parseLastOccurence content = (Some ["/bin/sh"; "-c"; "npm start"], None, None).
Proof.
  intros content.
  assert ((bufio_Scan content).1
          = ["FROM node"; "CMD node a.js"] ++ "ENTRYPOINT npm start" :: ["EXPOSE 80"])
    as Hlines by (vm_compute; reflexivity).
  assert (instruction "ENTRYPOINT" "ENTRYPOINT npm start" = Some "npm start") as Hline
    by (vm_compute; reflexivity).
  split; [exact Hlines |]. split; [exact Hline |].
  refine (proj2 (parseLastOccurence_from_last_ENTRYPOINT content
                   ["FROM node"; "CMD node a.js"] "ENTRYPOINT npm start" ["EXPOSE 80"]
                   "npm start" Hlines _ Hline) eq_refl _).
  - repeat (constructor; [by eexists |]). constructor.
  - repeat constructor.
Defined.

(** The restart helper put into the stage [build] of a Dockerfile with two
    stages: the new file has the instructions at the end of that stage, and
    the Dockerfile is as it was. *)
Example RewriteDockerfile_build_stage :
  let r := RewriteDockerfile "./Dockerfile" None None None "build" true home in
  r.1 = Ok "/tmp/example1/Dockerfile" ∧
  Scenario.assoc "./Dockerfile" (files r.2) = Some twoStages ∧
  Scenario.assoc "/tmp/example1/Dockerfile" (files r.2)
  = Some ("FROM golang:1.17 AS build" ++ newline ++ "CMD go test" ++ newline ++
          "ENTRYPOINT go run main.go" ++ newline ++
          "COPY /.devspace /" ++ newline ++ newline ++
          "ENTRYPOINT [" ++ quote ++ "/.devspace/restart-helper" ++ quote ++ ","
            ++ quote ++ "/bin/sh" ++ quote ++ "," ++ quote ++ "-c" ++ quote ++ ","
            ++ quote ++ "go run main.go" ++ quote ++ "]" ++ newline ++ newline ++
          "FROM alpine AS run" ++ newline ++
          "CMD [" ++ quote ++ "/app" ++ quote ++ "," ++ quote ++ "--serve" ++ quote
            ++ "]")%string.
Proof. vm_compute. done. Qed.
End HelperExamples.

(** ** Package update *)

Section UpdateProperties.
Import update.
Context `{Plugins}.





End UpdateProperties.

Section UpdateExamples.
Import update update.Registry.


(** An update of an outdated plugin, and of one that is at its newest
    version. *)
Example Run_outdated_and_current :
  (Run "" ["kubectl"] outdated).1.1 = Returned None ∧
  (Run "" ["kubectl"] outdated).2
  = [EvGetByName "kubectl"; EvExecutePluginHookAt ("kubectl", "v1") "before_update";
     EvStartWait "Updating plugin kubectl"; EvUpdate "kubectl" ""; EvStopWait;
     EvDonef "Successfully updated plugin kubectl";
     EvExecutePluginHookAt ("kubectl", "v2") "after_update"; EvStopWait] ∧
  (Run "" ["kubectl"] current).1.1 = Returned None ∧
  (Run "" ["kubectl"] current).2
  = [EvGetByName "kubectl"; EvExecutePluginHookAt ("kubectl", "v2") "before_update";
     EvStartWait "Updating plugin kubectl"; EvUpdate "kubectl" "";
     EvInfo "no update for plugin found"; EvStopWait].
Proof. vm_compute. done. Qed.
End UpdateExamples.

(** ** Package services *)

Section TerminalProperties.
Import services.
Context `{Cluster} `{!Streams}.



End TerminalProperties.

Section TerminalExamples.
Import services services.Sessions.


(** A session that ends with the exit code 3 and then one that ends with 0:
    with restart the second one is started and 0 is returned.  The command
    is the configured one, run in the configured directory. *)
Example StartTerminal_restarts :
  StartTerminal 2 configured ask [] "" false true [3%Z; 0%Z] = (Returned 0 None, []) ∧
  getCommand configured [] "" = ["sh"; "-c"; "cd /app; npm start"] ∧
  getCommand configured ["ls"; "-l"] "" = ["sh"; "-c"; "cd /app; ls -l"] ∧
  getCommand {| config := None |} ["ls"; "-l"] " " = ["ls"; "-l"].
Proof. vm_compute. done. Qed.
End TerminalExamples.

